(** * vectorbt/strategy.py: indicator sweeps and stop-based exit signals

    A shallow embedding of [src/vectorbt/strategy.py].  NumPy arrays of
    dtype [f8] are lists of binary64 floats (the kernel's primitive floats,
    specified by [SpecFloat]), 2-D arrays are lists of rows, [i8] values are
    [Z], and every operation that raises in Python (an index out of range, a
    missing dictionary key, a shape mismatch on assignment) returns [None]. *)

From Stdlib Require Import ZArith Floats Lia Sorted Reals Lra Psatz.
From stdpp Require Import base option list gmap.

Set Warnings "-inexact-float".
Set Default Proof Using "Type".

(** ** NumPy arrays *)

Module Np.

Abbreviation f8 := float.
Abbreviation matrix A := (list (list A)).

Section Arrays.
Context {A : Type}.

(** [a.shape[0]] and [a.shape[1]].  A matrix with no row does not record
    its number of columns; it is read as 0 there. *)
Definition shape0 (a : matrix A) : nat := length a.
Definition shape1 (a : matrix A) : nat :=
  match a with [] => 0 | r :: _ => length r end.

(** Every row has [n] cells. *)
Definition rows_of_width (n : nat) (a : matrix A) : bool :=
  forallb (λ r, Nat.eqb (length r) n) a.

(** [a[t, c]] *)
Definition at2 (a : matrix A) (t c : nat) : option A :=
  r ← a !! t; r !! c.

(** [a[:, c]] *)
Definition column (a : matrix A) (c : nat) : option (list A) :=
  mapM (λ r : list A, r !! c) a.

(** [np.expand_dims(v, axis=1)]: a vector as a matrix of one column. *)
Definition expand_dims (v : list A) : matrix A := map (λ x, [x]) v.

(** [np.full((T, N), v)]; [np.empty] is read as [np.full] with a filler
    the callers overwrite cell by cell. *)
Definition full (T N : nat) (v : A) : matrix A := replicate T (replicate N v).

(** One row of [dst[:, start:start+width] = src]. *)
Definition splice (start : nat) (drow srow : list A) : list A :=
  take start drow ++ srow ++ drop (start + length srow) drow.

(** [dst[:, start:start+width] = src], for [src] of shape
    [(dst.shape[0], width)]: any other shape is a shape error (the
    helpers this module calls return arrays of their input's shape, so
    NumPy's broadcasting of a smaller right-hand side is not modelled). *)
Definition set_cols (dst : matrix A) (start width : nat) (src : matrix A)
  : option (matrix A) :=
  if Nat.eqb (length src) (length dst)
     && rows_of_width width src
     && forallb (λ r, Nat.leb (start + width) (length r)) dst
  then Some (zip_with (splice start) dst src)
  else None.

(** [a[:, i*width:(i+1)*width]] *)
Definition block (i width : nat) (a : matrix A) : matrix A :=
  map (λ r, take width (drop (i * width) r)) a.

(** [for i in range(len(xs)): s = body(i, xs[i], s)], stopping at the
    first error. *)
Fixpoint for_each {B St : Type} (body : nat → B → St → option St)
    (i : nat) (xs : list B) (s : St) : option St :=
  match xs with
  | [] => Some s
  | x :: rest => s' ← body i x s; for_each body (S i) rest s'
  end.
End Arrays.

(** Elementwise comparisons of [f8] arrays: [a < b] and [a > b]. *)
Definition lt (a b : f8) : bool := PrimFloat.ltb a b.
Definition gt (a b : f8) : bool := PrimFloat.ltb b a.
Definition ne (a b : f8) : bool := negb (PrimFloat.eqb a b).

(** [a >= b] and [a <= b]. *)
Definition ge (a b : f8) : bool := PrimFloat.leb b a.
Definition le (a b : f8) : bool := PrimFloat.leb a b.

(** Two arrays of one shape, row by row. *)
Definition same_shape {A B} (a : matrix A) (b : matrix B) : bool :=
  Nat.eqb (length a) (length b)
  && forallb (λ p : list A * list B, Nat.eqb (length p.1) (length p.2)) (zip a b).

(** An elementwise operation on two arrays of one shape (NumPy would also
    broadcast a smaller operand; the arrays combined here come from one
    column and are of one shape, anything else is a shape error). *)
Definition elementwise {A B C} (f : A → B → C) (a : matrix A) (b : matrix B)
  : option (matrix C) :=
  if same_shape a b then Some (zip_with (zip_with f) a b) else None.

(** [dst[start:, :] = src], for [src] of the shape of [dst[start:, :]]. *)
Definition set_rows_from {A} (dst : matrix A) (start : nat) (src : matrix A)
  : option (matrix A) :=
  if same_shape (drop start dst) src then Some (take start dst ++ src) else None.

(** [dst[idxs, :] = src[idxs, :]] *)
Fixpoint copy_rows {A} (dst : matrix A) (idxs : list nat) (src : matrix A)
  : option (matrix A) :=
  match idxs with
  | [] => Some dst
  | i :: rest =>
      row ← src !! i;
      old ← dst !! i;
      if Nat.eqb (length row) (length old)
      then copy_rows (<[i := row]> dst) rest src
      else None
  end.

(** [np.min] and [np.max] of a float array: a NaN anywhere gives NaN, an
    empty array is an error. *)
Definition fmin (a b : f8) : f8 :=
  if is_nan a then a else if is_nan b then b else if PrimFloat.ltb b a then b else a.
Definition fmax (a b : f8) : f8 :=
  if is_nan a then a else if is_nan b then b else if PrimFloat.ltb a b then b else a.
Definition min (a : matrix f8) : option f8 :=
  match concat a with [] => None | x :: rest => Some (foldl fmin x rest) end.
Definition max (a : matrix f8) : option f8 :=
  match concat a with [] => None | x :: rest => Some (foldl fmax x rest) end.

(** The [i8] to [f8] conversion NumPy applies when an integer meets a
    float: the nearest binary64 number.  [of_uint63] converts the 63-bit
    magnitudes; the magnitude of the least [i8] has 64 bits and is a power
    of two. *)
Definition of_int (z : Z) : f8 :=
  if (z <? 0)%Z then
    if (z =? - 2 ^ 63)%Z then (- 0x1p63)%float
    else (- of_uint63 (Uint63.of_Z (- z)))%float
  else of_uint63 (Uint63.of_Z z).

(** [np.unique]: the distinct values, in increasing order. *)
Fixpoint insert_unique (x : Z) (l : list Z) : list Z :=
  match l with
  | [] => [x]
  | y :: rest =>
      if (x <? y)%Z then x :: l
      else if (x =? y)%Z then l
      else y :: insert_unique x rest
  end.
Definition unique (l : list Z) : list Z := foldr insert_unique [] l.

(** The stop of the slice [a[:w]] of an array of [T] rows: a negative [w]
    counts from the end, and the slice is clipped to the array. *)
Definition slice_stop (T : nat) (w : Z) : nat :=
  if (w <? 0)%Z then Z.to_nat (Z.max 0 (Z.of_nat T + w))
  else Nat.min (Z.to_nat w) T.

(** [a[:w, :] = v] *)
Definition set_rows_until {A} (a : matrix A) (w : Z) (v : A) : matrix A :=
  let k := slice_stop (length a) w in
  map (map (λ _, v)) (take k a) ++ drop k a.

(** [np.tile(a, (1, k))] *)
Definition tile {A} (a : matrix A) (k : nat) : matrix A :=
  map (λ r, concat (replicate k r)) a.

(** [np.flatnonzero]: the flat indices of the cells that are not zero (a
    NaN is not zero). *)
Definition flatnonzero (a : matrix f8) : list nat :=
  omap (λ p : nat * f8, if ne p.2 0%float then Some p.1 else None)
       (imap (λ i x, (i, x)) (concat a)).

(** [a] has [T] rows of [N] cells. *)
Definition has_shape {A} (T N : nat) (a : matrix A) : Prop :=
  length a = T ∧ Forall (λ r, length r = N) a.

(** The body of a loop that fills block i of the output with what [g] gives
    for parameter i: [out[:, i*C:(i+1)*C] = g(xs[i])]. *)
Definition assemble {A B} (g : B → option (matrix A)) (C : nat) :=
  λ (i : nat) (x : B) (out : matrix A), src ← g x; set_cols out (i * C) C src.

End Np.

Import Np.

(** ** Risk minimization: the fixed stop-loss *)

(** A column's exit mask as [generate_exits_nb] asks for it:
    [exit_mask_func_nb(entries, col_idx, entry_idx, *args)]. *)
Definition exit_mask_func := matrix bool → nat → nat → option (list bool).

(** The threshold a fixed stop-loss compares the prices against, from the
    stop and the price at the entry. *)
Definition effective_stop (is_relative : bool) (stop entry_price : f8) : f8 :=
  if is_relative then ((1 - stop) * entry_price)%float else stop.

Definition stoploss_exit_mask_nb (entries : matrix bool) (col_idx entry_idx : nat)
    (ts stop : matrix f8) (is_relative : bool) : option (list bool) :=
  ts ← column ts col_idx;
  (* Stop is defined at the entry point *)
  stop ← at2 stop entry_idx col_idx;
  stop ← (if is_relative
          then p ← ts !! entry_idx; Some ((1 - stop) * p)%float
          else Some stop);
  Some (map (λ x, lt x stop) ts).

(** ** The exit scanner (vectorbt.signals.generate_exits_nb) *)

(** Modelled from the spec: [generate_exits_nb] of [vectorbt/signals.py] is
    not part of the sources; section 4.3 of the specification describes it
    as a state machine per column.  [FLAT] is the initial state; the first
    entry met while [FLAT] arms the scanner and fixes the exit mask of the
    episode (the mask function is called with that entry index); entries met
    while [ARMED] are ignored; the first index after the entry where the
    mask holds is marked and the scanner is [FLAT] again, looking for an
    entry strictly after it.  Without [only_first] the later indices where
    that mask holds are marked too, until the scanner is armed again
    ([FLAT] then remembers the mask it still watches). *)
Inductive scan_state :=
  | FLAT (watch : option (list bool))
  | ARMED (mask : list bool).

Definition scan_step (only_first : bool) (exit_mask : nat → option (list bool))
    (st : scan_state) (t : nat) (entry : bool) : option (bool * scan_state) :=
  match st with
  | ARMED mask =>
      hit ← mask !! t;
      if hit : bool
      then Some (true, FLAT (if only_first then None else Some mask))
      else Some (false, ARMED mask)
  | FLAT watch =>
      if entry
      then mask ← exit_mask t; Some (false, ARMED mask)
      else match watch with
           | None => Some (false, FLAT None)
           | Some mask => hit ← mask !! t; Some (hit, FLAT watch)
           end
  end.

Fixpoint scan_column (only_first : bool) (exit_mask : nat → option (list bool))
    (st : scan_state) (t : nat) (entries_col : list bool) : option (list bool) :=
  match entries_col with
  | [] => Some []
  | e :: rest =>
      '(x, st') ← scan_step only_first exit_mask st t e;
      xs ← scan_column only_first exit_mask st' (S t) rest;
      Some (x :: xs)
  end.

(** The exits matrix from its columns; a cell no column reaches keeps the
    [False] the matrix is created with. *)
Definition of_columns (T : nat) (cols : list (list bool)) : matrix bool :=
  map (λ t, map (λ col : list bool, default false (col !! t)) cols) (seq 0 T).

Definition generate_exits_nb (entries : matrix bool)
    (exit_mask_func_nb : exit_mask_func) (only_first : bool)
  : option (matrix bool) :=
  cols ← mapM (λ col_idx,
                 ecol ← column entries col_idx;
                 scan_column only_first (exit_mask_func_nb entries col_idx)
                   (FLAT None) 0 ecol)
              (seq 0 (shape1 entries));
  Some (of_columns (shape0 entries) cols).

(** ** Stop-loss exits over a cube of stops *)

Definition stoploss_exits_nb (ts : matrix f8) (entries : matrix bool)
    (stops : list (matrix f8)) (is_relative only_first : bool)
  : option (matrix bool) :=
  let exits := full (shape0 ts) (shape1 ts * length stops) false in
  for_each
    (λ i stop_i exits,
       i_exits ← generate_exits_nb entries
                   (λ e c t, stoploss_exit_mask_nb e c t ts stop_i is_relative)
                   only_first;
       set_cols exits (i * shape1 ts) (shape1 ts) i_exits)
    0 stops exits.

(** Modelled from the spec: the decorators of [vectorbt/utils/decorators.py]
    are not part of the sources.  Section 3 of the specification has the
    stop cube built from a scalar, from a 1-D array of length P or from an
    array that is a cube already, each stop becoming a matrix of the shape
    of [ts]; section 6 has a 1-D series promoted to a single column. *)
Inductive stops_arg :=
  | StopScalar (s : f8)
  | StopArray (ss : list f8)
  | StopCube (cube : list (matrix f8)).

Definition broadcast_to_cube_of (stops : stops_arg) (ts : matrix f8)
  : list (matrix f8) :=
  match stops with
  | StopScalar s => [full (shape0 ts) (shape1 ts) s]
  | StopArray ss => map (full (shape0 ts) (shape1 ts)) ss
  | StopCube cube => cube
  end.

Definition to_2d {A} (v : list A) : matrix A := expand_dims v.

Definition generate_stoploss_exits (ts : matrix f8) (entries : matrix bool)
    (stops : stops_arg) (is_relative only_first : bool) : option (matrix bool) :=
  stoploss_exits_nb ts entries (broadcast_to_cube_of stops ts)
    is_relative only_first.

(** ** The time-series routines (vectorbt.timeseries) *)

(** [vectorbt/timeseries.py] is imported by the module and is not part of
    the sources: its routines are an interface here, and what is proved of
    the module holds for every implementation of it.  The rolling routines
    may reject their window. *)
Class Timeseries := {
  ewma_nb : matrix f8 → Z → bool → option (matrix f8);
  rolling_mean_nb : matrix f8 → Z → option (matrix f8);
  rolling_std_nb : matrix f8 → Z → option (matrix f8);
  rolling_max_nb : matrix f8 → option Z → matrix f8;
  diff_nb : matrix f8 → matrix f8;
  pct_change_nb : matrix f8 → matrix f8;
  set_by_mask_nb : matrix f8 → matrix bool → f8 → matrix f8;
  fillna_nb : matrix f8 → f8 → matrix f8;
  ffill_nb : matrix f8 → matrix f8;
  prepend_nb : matrix f8 → nat → f8 → matrix f8;
}.

(** ** Risk minimization: the trailing stop *)

Section TrailingStop.
Context `{Timeseries}.

Definition tstop_exit_mask_nb (entries : matrix bool) (col_idx entry_idx : nat)
    (ts stop : matrix f8) (is_relative : bool) : option (list bool) :=
  ts ← expand_dims <$> column ts col_idx;
  stop ← expand_dims <$> column stop col_idx;
  let peak := full (shape0 ts) (shape1 ts) nan in
  (* Propagate the maximum value from the entry using expanding max *)
  peak ← set_rows_from peak entry_idx (rolling_max_nb (drop entry_idx ts) None);
  lo ← Np.min stop;
  hi ← Np.max stop;
  stop ← (if ne lo hi
          then
            (* Propagate the stop value of the last max *)
            let raising_idxs := flatnonzero (pct_change_nb peak) in
            let stop_temp := full (shape0 ts) (shape1 ts) neg_infinity in
            stop_temp ← copy_rows stop_temp raising_idxs stop;
            Some (fillna_nb (ffill_nb stop_temp) neg_infinity)
          else Some stop);
  stop ← (if is_relative
          then elementwise (λ s p, (1 - s) * p)%float stop peak
          else Some stop);
  below ← elementwise lt ts stop;
  column below 0.

Definition tstop_exits_nb (ts : matrix f8) (entries : matrix bool)
    (stops : list (matrix f8)) (is_relative only_first : bool)
  : option (matrix bool) :=
  let exits := full (shape0 ts) (shape1 ts * length stops) false in
  for_each
    (λ i stop_i exits,
       i_exits ← generate_exits_nb entries
                   (λ e c t, tstop_exit_mask_nb e c t ts stop_i is_relative)
                   only_first;
       set_cols exits (i * shape1 ts) (shape1 ts) i_exits)
    0 stops exits.

Definition generate_tstop_exits (ts : matrix f8) (entries : matrix bool)
    (stops : stops_arg) (is_relative only_first : bool) : option (matrix bool) :=
  tstop_exits_nb ts entries (broadcast_to_cube_of stops ts)
    is_relative only_first.
End TrailingStop.

(** ** A reference implementation of the time-series routines *)

Module SpecTimeseries.

Definition get_column (a : matrix f8) (c : nat) : list f8 :=
  map (λ r : list f8, default nan (r !! c)) a.

(** A routine that works on each column on its own. *)
Definition per_column (f : list f8 → list f8) (a : matrix f8) : matrix f8 :=
  let cols := map (λ c, f (get_column a c)) (seq 0 (shape1 a)) in
  map (λ t, map (λ col : list f8, default nan (col !! t)) cols)
      (seq 0 (shape0 a)).

(** [acc] threaded through a column, each cell replaced by the new [acc]. *)
Fixpoint running (f : f8 → f8 → f8) (acc : f8) (l : list f8) : list f8 :=
  match l with
  | [] => []
  | x :: rest => let acc' := f acc x in acc' :: running f acc' rest
  end.

(** The trailing window of length [w] ending at [t]: shorter while fewer
    than [w] cells are available. *)
Definition window (l : list f8) (w t : nat) : list f8 :=
  take (Nat.min w (S t)) (drop (S t - w) l).

Definition sum (l : list f8) : f8 := foldl PrimFloat.add 0%float l.
Definition mean (l : list f8) : f8 :=
  (sum l / of_int (Z.of_nat (length l)))%float.
Definition std (l : list f8) : f8 :=
  let m := mean l in
  PrimFloat.sqrt (mean (map (λ x, (x - m) * (x - m))%float l)).
Definition maximum (l : list f8) : f8 :=
  match l with [] => nan | x :: rest => foldl fmax x rest end.

Definition rolling (stat : list f8 → f8) (w : nat) (l : list f8) : list f8 :=
  map (λ t, stat (window l w t)) (seq 0 (length l)).

Definition expanding (stat : list f8 → f8) (l : list f8) : list f8 :=
  rolling stat (length l) l.

Definition checked_window {A} (w : Z) (k : nat → A) : option A :=
  if (0 <? w)%Z then Some (k (Z.to_nat w)) else None.

(** Exponential smoothing with factor [2 / (w + 1)]: the recurrence
    [y = (1 - alpha) * y + alpha * x] started at the first cell, or with
    [adjust] the ratio of the weighted sum to the sum of the weights. *)
Definition ewma (w : nat) (adjust : bool) (l : list f8) : list f8 :=
  let alpha := (2 / (of_int (Z.of_nat w) + 1))%float in
  match l with
  | [] => []
  | x0 :: rest =>
      if adjust
      then
        let step (acc : f8 * f8) x :=
          (x + (1 - alpha) * acc.1, 1 + (1 - alpha) * acc.2)%float in
        x0 :: (fix go acc l :=
                 match l with
                 | [] => []
                 | x :: l' =>
                     let acc' := step acc x in
                     (acc'.1 / acc'.2)%float :: go acc' l'
                 end) (x0, 1%float) rest
      else x0 :: running (λ y x, (1 - alpha) * y + alpha * x)%float x0 rest
  end.

Definition diff (l : list f8) : list f8 :=
  match l with
  | [] => []
  | _ :: rest => nan :: zip_with (λ cur prev, cur - prev)%float rest l
  end.

Definition pct_change (l : list f8) : list f8 :=
  match l with
  | [] => []
  | _ :: rest => nan :: zip_with (λ cur prev, cur / prev - 1)%float rest l
  end.

Definition ffill (l : list f8) : list f8 :=
  match l with
  | [] => []
  | x :: rest => x :: running (λ prev x, if is_nan x then prev else x) x rest
  end.

(** Modelled from the spec: [vectorbt/timeseries.py] is not part of the
    sources.  Section 4.1 of the specification has the simple mean over
    the trailing window of length w ending at each time (over the shorter
    window while fewer cells are available), a window that is not
    positive rejected, the standard deviation over the same window and
    the exponential mean with a smoothing factor derived from w, adjusted
    or not; section 4.2 has the first difference and the row of NaN put
    back on top; section 4.3 has the expanding maximum
    [peak[t'] = max(price[t..t'])] and the forward fill.  The other
    routines do what their names say. *)
#[export] Instance reference : Timeseries := {|
  ewma_nb a w adjust := checked_window w (λ w, per_column (ewma w adjust) a);
  rolling_mean_nb a w := checked_window w (λ w, per_column (rolling mean w) a);
  rolling_std_nb a w := checked_window w (λ w, per_column (rolling std w) a);
  rolling_max_nb a w :=
    match w with
    | None => per_column (expanding maximum) a
    | Some w => per_column (rolling maximum (Z.to_nat w)) a
    end;
  diff_nb := per_column diff;
  pct_change_nb := per_column pct_change;
  set_by_mask_nb a mask v :=
    zip_with (zip_with (λ x (m : bool), if m then v else x)) a mask;
  fillna_nb a v := map (map (λ x, if is_nan x then v else x)) a;
  ffill_nb := per_column ffill;
  prepend_nb a n v := replicate n (replicate (shape1 a) v) ++ a;
|}.

(** The sums of the trailing windows of length [w], each from the one
    before: the cell that enters the window is added and the cell that
    leaves it is subtracted. *)
Fixpoint running_sums (l : list f8) (w t : nat) (acc : f8) (rest : list f8)
  : list f8 :=
  match rest with
  | [] => []
  | x :: rest' =>
      let leaving := default nan (l !! (t - w)%nat) in
      let acc := (acc + x)%float in
      let acc := if Nat.leb w t then (acc - leaving)%float else acc in
      acc :: running_sums l w (S t) acc rest'
  end.

Definition running_mean (w : nat) (l : list f8) : list f8 :=
  imap (λ t s, (s / of_int (Z.of_nat (Nat.min w (S t))))%float)
       (running_sums l w 0 0%float l).

(** Modelled from the spec: [vectorbt/timeseries.py] is not part of the
    sources, and section 4.1 of the specification fixes the simple mean by
    its value (the arithmetic mean over the trailing window), not by the
    way it is computed.  This second implementation differs from
    [reference] in [rolling_mean_nb] alone, which keeps a running sum of
    the window instead of summing the window anew at each row.  On exact
    numbers the two means are the same; in binary64 the running sum of
    cells that are not negative can end below zero. *)
Definition running_sum : Timeseries := {|
  ewma_nb := ewma_nb (Timeseries := reference);
  rolling_mean_nb a w := checked_window w (λ w, per_column (running_mean w) a);
  rolling_std_nb := rolling_std_nb (Timeseries := reference);
  rolling_max_nb := rolling_max_nb (Timeseries := reference);
  diff_nb := diff_nb (Timeseries := reference);
  pct_change_nb := pct_change_nb (Timeseries := reference);
  set_by_mask_nb := set_by_mask_nb (Timeseries := reference);
  fillna_nb := fillna_nb (Timeseries := reference);
  ffill_nb := ffill_nb (Timeseries := reference);
  prepend_nb := prepend_nb (Timeseries := reference);
|}.

End SpecTimeseries.

(** ** Indicators *)

Section Indicators.
Context `{Timeseries}.

(** The cache-filling loops: [for i in range(keys.shape[0]):
    cache_d[keys[i]] = compute(keys[i])].  Besides the dictionary, the
    loop's state records the windows the rolling routines were run for,
    in the order of the runs. *)
Definition fill_cache {V} (compute : Z → option V) (keys : list Z)
  : option (gmap Z V * list Z) :=
  for_each (λ _ w (st : gmap Z V * list Z),
              v ← compute w; Some (<[w := v]> st.1, st.2 ++ [w]))
           0 keys (∅, []).

(** *** MovingAverage *)

(** One pass of the first loop of [ma_nb]. *)
Definition ma_entry (ts : matrix f8) (ewm adjust min_periods : bool) (w : Z)
  : option (matrix f8) :=
  ma ← (if ewm then ewma_nb ts w adjust else rolling_mean_nb ts w);
  Some (if min_periods then set_rows_until ma w nan else ma).

Definition ma_cache (ts : matrix f8) (fast_windows slow_windows : list Z)
    (ewm adjust min_periods : bool) : option (gmap Z (matrix f8) * list Z) :=
  (* Cache moving averages to effectively reduce the number of operations *)
  let unique_windows := unique (fast_windows ++ slow_windows) in
  fill_cache (ma_entry ts ewm adjust min_periods) unique_windows.

Definition ma_nb (ts : matrix f8) (fast_windows slow_windows : list Z)
    (ewm adjust min_periods : bool) : option (matrix f8 * matrix f8) :=
  '(cache_d, _) ← ma_cache ts fast_windows slow_windows ewm adjust min_periods;
  (* Concatenate moving averages out of cache and return *)
  let fast_mas := full (shape0 ts) (shape1 ts * length fast_windows) 0%float in
  let slow_mas := full (shape0 ts) (shape1 ts * length fast_windows) 0%float in
  for_each
    (λ i fast_w (out : matrix f8 * matrix f8),
       fast_ma ← cache_d !! fast_w;
       fast_mas ← set_cols out.1 (i * shape1 ts) (shape1 ts) fast_ma;
       slow_w ← slow_windows !! i;
       slow_ma ← cache_d !! slow_w;
       slow_mas ← set_cols out.2 (i * shape1 ts) (shape1 ts) slow_ma;
       Some (fast_mas, slow_mas))
    0 fast_windows (fast_mas, slow_mas).

(** The windows [ma_nb] runs its rolling routine for. *)
Definition ma_nb_computed (ts : matrix f8) (fast_windows slow_windows : list Z)
    (ewm adjust min_periods : bool) : option (list Z) :=
  snd <$> ma_cache ts fast_windows slow_windows ewm adjust min_periods.

Record MovingAverage := { fast_mas : matrix f8; slow_mas : matrix f8 }.

(** [MovingAverage.__init__], on windows the decorators have broadcast
    to one length; the defaults are [ewm=False], [adjust=False],
    [min_periods=True]. *)
Definition MovingAverage_init (ts : matrix f8) (fast_windows slow_windows : list Z)
    (ewm adjust min_periods : bool) : option MovingAverage :=
  '(fast_mas, slow_mas) ← ma_nb ts fast_windows slow_windows ewm adjust min_periods;
  Some {| fast_mas := fast_mas; slow_mas := slow_mas |}.

Definition MovingAverage_generate_entries (self : MovingAverage)
  : option (matrix bool) :=
  elementwise gt (fast_mas self) (slow_mas self).

Definition MovingAverage_generate_exits (self : MovingAverage)
  : option (matrix bool) :=
  elementwise lt (fast_mas self) (slow_mas self).

(** *** BollingerBands *)

Definition bb_entry (ts : matrix f8) (min_periods : bool) (n : Z)
  : option (matrix f8 * matrix f8) :=
  ma ← rolling_mean_nb ts n;
  mstd ← rolling_std_nb ts n;
  Some (if min_periods
        then (set_rows_until ma n nan, set_rows_until mstd n nan)
        else (ma, mstd)).

Definition bb_cache (ts : matrix f8) (ns : list Z) (min_periods : bool)
  : option (gmap Z (matrix f8 * matrix f8) * list Z) :=
  (* Cache moving averages to effectively reduce the number of operations *)
  fill_cache (bb_entry ts min_periods) ns.

(** One cell of the bands for the mean [ma], the multiplier [k] and the
    deviation [mstd]. *)
Definition upper_band (ma : f8) (k : Z) (mstd : f8) : f8 :=
  (ma + of_int k * mstd)%float.
Definition lower_band (ma : f8) (k : Z) (mstd : f8) : f8 :=
  (ma - of_int k * mstd)%float.

Definition bb_nb (ts : matrix f8) (ns ks : list Z) (min_periods : bool)
  : option (matrix f8 * matrix f8 * matrix f8) :=
  '(cache_d, _) ← bb_cache ts ns min_periods;
  (* Calculate lower, middle and upper bands *)
  let empty := full (shape0 ts) (shape1 ts * length ns) 0%float in
  for_each
    (λ i n '(upper_bands, middle_bands, lower_bands),
       '(ma, mstd) ← cache_d !! n;
       k ← ks !! i;
       upper ← elementwise (λ m s, upper_band m k s) ma mstd;
       lower ← elementwise (λ m s, lower_band m k s) ma mstd;
       upper_bands ← set_cols upper_bands (i * shape1 ts) (shape1 ts) upper;
       middle_bands ← set_cols middle_bands (i * shape1 ts) (shape1 ts) ma;
       lower_bands ← set_cols lower_bands (i * shape1 ts) (shape1 ts) lower;
       Some (upper_bands, middle_bands, lower_bands))
    0 ns (empty, empty, empty).

Definition bb_nb_computed (ts : matrix f8) (ns : list Z) (min_periods : bool)
  : option (list Z) :=
  snd <$> bb_cache ts ns min_periods.

Record BollingerBands := {
  bb_ts : matrix f8; (* self.ts *)
  upper_bands : matrix f8;
  middle_bands : matrix f8;
  lower_bands : matrix f8;
}.

(** [BollingerBands.__init__], on windows and multipliers the decorators
    have broadcast to one length; the default is [min_periods=True]. *)
Definition BollingerBands_init (ts : matrix f8) (windows std_ns : list Z)
    (min_periods : bool) : option BollingerBands :=
  let self_ts := tile ts (length windows) in
  '(upper_bands, middle_bands, lower_bands) ←
    bb_nb ts windows std_ns min_periods;
  Some {| bb_ts := self_ts; upper_bands := upper_bands;
          middle_bands := middle_bands; lower_bands := lower_bands |}.

Definition BollingerBands_percent_b (self : BollingerBands)
  : option (matrix f8) :=
  above_lower ← elementwise PrimFloat.sub (bb_ts self) (lower_bands self);
  width ← elementwise PrimFloat.sub (upper_bands self) (lower_bands self);
  elementwise PrimFloat.div above_lower width.

Definition BollingerBands_bandwidth (self : BollingerBands)
  : option (matrix f8) :=
  width ← elementwise PrimFloat.sub (upper_bands self) (lower_bands self);
  elementwise PrimFloat.div width (middle_bands self).

Definition BollingerBands_generate_entries (self : BollingerBands)
  : option (matrix bool) :=
  elementwise ge (bb_ts self) (upper_bands self).

Definition BollingerBands_generate_exits (self : BollingerBands)
  : option (matrix bool) :=
  elementwise le (bb_ts self) (lower_bands self).

(** *** RSI *)

(** One cell of the index for the smoothed up-moves and down-moves. *)
Definition rsi_cell (roll_up roll_down : f8) : f8 :=
  (100 - 100 / (1 + roll_up / roll_down))%float.

(** The up-moves and the down-moves: the differences without their first
    row, negative ones zeroed for the up-moves, positive ones zeroed and
    the magnitude taken for the down-moves.  For prices of a single row
    the differences have no row left, and a list of rows with no row does
    not record its width (see [shape1]), which the array of the source
    keeps: [rsi_nb] is modelled for prices of two rows or more. *)
Definition rsi_moves (ts : matrix f8) : matrix f8 * matrix f8 :=
  let delta := drop 1 (diff_nb ts) in (* otherwise ewma will be all NaN *)
  let up := set_by_mask_nb delta (map (map (λ x, lt x 0%float)) delta) 0%float in
  let down := map (map PrimFloat.abs)
                (set_by_mask_nb delta (map (map (λ x, gt x 0%float)) delta) 0%float) in
  (up, down).

Definition rsi_entry (up down : matrix f8) (ewm adjust min_periods : bool) (w : Z)
  : option (matrix f8 * matrix f8) :=
  roll_up ← (if ewm then ewma_nb up w adjust else rolling_mean_nb up w);
  roll_down ← (if ewm then ewma_nb down w adjust else rolling_mean_nb down w);
  let roll_up := prepend_nb roll_up 1 nan in (* bring to old shape *)
  let roll_down := prepend_nb roll_down 1 nan in
  Some (if min_periods
        then (set_rows_until roll_up w nan, set_rows_until roll_down w nan)
        else (roll_up, roll_down)).

Definition rsi_cache (ts : matrix f8) (windows : list Z)
    (ewm adjust min_periods : bool)
  : option (gmap Z (matrix f8 * matrix f8) * list Z) :=
  let '(up, down) := rsi_moves ts in
  (* Cache moving averages to effectively reduce the number of operations *)
  let unique_windows := unique windows in
  fill_cache (rsi_entry up down ewm adjust min_periods) unique_windows.

Definition rsi_nb (ts : matrix f8) (windows : list Z)
    (ewm adjust min_periods : bool) : option (matrix f8) :=
  '(cache_d, _) ← rsi_cache ts windows ewm adjust min_periods;
  (* Calculate RSI *)
  let rsi := full (shape0 ts) (shape1 ts * length windows) 0%float in
  for_each
    (λ i w rsi,
       '(roll_up, roll_down) ← cache_d !! w;
       cells ← elementwise rsi_cell roll_up roll_down;
       set_cols rsi (i * shape1 ts) (shape1 ts) cells)
    0 windows rsi.

Definition rsi_nb_computed (ts : matrix f8) (windows : list Z)
    (ewm adjust min_periods : bool) : option (list Z) :=
  snd <$> rsi_cache ts windows ewm adjust min_periods.

(** What block i of the RSI holds, from the cache entry of window [w]. *)
Definition rsi_block (ts : matrix f8) (ewm adjust min_periods : bool) (w : Z)
  : option (matrix f8) :=
  '(roll_up, roll_down) ←
    rsi_entry (rsi_moves ts).1 (rsi_moves ts).2 ewm adjust min_periods w;
  elementwise rsi_cell roll_up roll_down.
Record RSI := { rsi : matrix f8 }.

(** [RSI.__init__]; the defaults are [ewm=False], [adjust=False],
    [min_periods=True]. *)
Definition RSI_init (ts : matrix f8) (windows : list Z)
    (ewm adjust min_periods : bool) : option RSI :=
  rsi ← rsi_nb ts windows ewm adjust min_periods;
  Some {| rsi := rsi |}.

(** [RSI.generate_entries] and [RSI.generate_exits], on a bound the
    decorators have broadcast to the shape of [self.rsi]. *)
Definition RSI_generate_entries (self : RSI) (lower_bound : matrix f8)
  : option (matrix bool) :=
  elementwise lt (rsi self) lower_bound.

Definition RSI_generate_exits (self : RSI) (upper_bound : matrix f8)
  : option (matrix bool) :=
  elementwise gt (rsi self) upper_bound.
End Indicators.

(** ** Binary64 numbers as real numbers *)

(** The vocabulary of the proofs about rounding: the value of a mantissa and
    an exponent, the exponent the format gives to a magnitude, and classes of
    [spec_float] values. *)
Module Binary64.
Local Open Scope Z_scope.

Definition bpow (e : Z) : R := powerRZ 2 e.
Definition F2R (m e : Z) : R := (IZR m * bpow e)%R.

Abbreviation fexp := (SpecFloat.fexp prec emax).

(** The value of a finite number; 0 for the others. *)
Definition SF2R (x : spec_float) : R :=
  match x with
  | S754_finite s m e => F2R (cond_Zopp s (Zpos m)) e
  | _ => 0%R
  end.

(** The place of a number on the line of the reals, with the infinities
    put at the two ends: every finite binary64 number is within
    [2^1024] of zero. *)
Definition SFval (x : spec_float) : R :=
  match x with
  | S754_infinity s => if s then (- bpow 1024)%R else bpow 1024
  | _ => SF2R x
  end.

(** Nothing was shifted out of a record. *)
Definition exact_record (mrs : shr_record) : Prop :=
  shr_r mrs = false ∧ shr_s mrs = false.

(** [m * 2^e] has the exponent the format gives to its magnitude. *)
Definition canonical (m e : Z) : Prop := fexp (Zdigits2 m + e) = e.

(** [m * 2^e] has no more digits than the format keeps. *)
Definition coarse (m e : Z) : Prop := fexp (Zdigits2 m + e) ≤ e.

(** By how much [shr_fexp] shifts [m * 2^e]. *)
Definition shift_of (m e : Z) : Z := Z.max 0 (fexp (Zdigits2 m + e) - e).

(** The binary64 numbers 1 and 100. *)
Definition SF_one : spec_float := S754_finite false 4503599627370496 (-52).
Definition SF_hundred : spec_float := S754_finite false 7036874417766400 (-46).

(** Plus zero, plus infinity or a positive finite number. *)
Definition SFnonneg (r : spec_float) : Prop :=
  r = S754_zero false ∨ r = S754_infinity false
  ∨ ∃ (p : positive) (e : Z), r = S754_finite false p e.

(** Not below zero: NaN, a zero, plus infinity or a positive number. *)
Definition SFnot_neg (x : spec_float) : Prop :=
  match x with
  | S754_infinity true | S754_finite true _ _ => False
  | _ => True
  end.

(** Zero or finite. *)
Definition SFfinite (x : spec_float) : Prop :=
  match x with S754_zero _ | S754_finite _ _ _ => True | _ => False end.

(** What [roll_up / roll_down], [1 + .], [100 / .] and [100 - .] can be in
    a cell of the RSI. *)
Definition Rclass (r : spec_float) : Prop :=
  r = S754_nan ∨ (∃ s, r = S754_zero s) ∨ (∃ s, r = S754_infinity s)
  ∨ ∃ (m : positive) (e : Z), r = S754_finite false m e.

Definition Sclass (r : spec_float) : Prop :=
  r = S754_nan ∨ (∃ s, r = S754_infinity s)
  ∨ ∃ (m : positive) (e : Z),
      r = S754_finite false m e ∧ (1 <= F2R (Zpos m) e)%R.

Definition Qclass (r : spec_float) : Prop :=
  r = S754_nan ∨ (∃ s, r = S754_zero s)
  ∨ ∃ (m : positive) (e : Z),
      r = S754_finite false m e ∧ SFleb r SF_hundred = true.

Definition Vclass (r : spec_float) : Prop :=
  r = S754_nan
  ∨ (SFleb (S754_zero false) r = true ∧ SFleb r SF_hundred = true).

(** What [ks[i] * mstd] can be: a zero, plus infinity or a positive finite
    number. *)
Definition Pclass (p : spec_float) : Prop :=
  (∃ s, p = S754_zero s) ∨ p = S754_infinity false
  ∨ ∃ (m : positive) (e : Z), p = S754_finite false m e.

End Binary64.

(** * Properties *)

(** ** Arrays *)

Section ArrayFacts.
Context {A : Type}.
Implicit Types (a b : matrix A) (r : list A).

Lemma column_lookup a c col t :
  column a c = Some col → col !! t = at2 a t c.
Proof.
  unfold column, at2. intros Hcol. apply mapM_Some in Hcol.
  destruct (a !! t) as [r|] eqn:Hr; simpl.
  - destruct (Forall2_lookup_l _ _ _ _ _ Hcol Hr) as (x & Hx & Hrx). congruence.
  - apply Forall2_length in Hcol. apply lookup_ge_None in Hr.
    apply lookup_ge_None. lia.
Qed.

Lemma column_length a c col : column a c = Some col → length col = length a.
Proof. intros Hcol. symmetry. exact (length_mapM _ _ _ Hcol). Qed.

Lemma column_is_Some a c :
  (∀ r, r ∈ a → c < length r) → is_Some (column a c).
Proof.
  intros Hc. unfold column. apply mapM_is_Some. apply Forall_forall.
  intros r Hr. apply lookup_lt_is_Some. auto.
Qed.
End ArrayFacts.

(** ** The fixed stop-loss mask *)

(** C1: the fixed stop-loss mask compares every price of the column with one
    threshold, anchored at the entry index: [stop[t, c]] when the stop is
    absolute, [(1 - stop[t, c]) * ts[t, c]] when it is relative; the mask has
    one cell per row and is true exactly where the price is strictly below
    that threshold, whatever the scan index. *)
Theorem stoploss_exit_mask_anchored_at_entry
    (entries : matrix bool) (ts stop : matrix f8) (c t : nat)
    (is_relative : bool) (s p : f8) :
  is_Some (column ts c) →
  at2 stop t c = Some s →
  at2 ts t c = Some p →
  ∃ mask,
    stoploss_exit_mask_nb entries c t ts stop is_relative = Some mask
    ∧ length mask = length ts
    ∧ effective_stop is_relative s p
      = (if is_relative then (1 - s) * p else s)%float
    ∧ ∀ t', mask !! t'
            = (λ x, PrimFloat.ltb x (effective_stop is_relative s p))
                <$> at2 ts t' c.
Proof.
  intros [col Hcol] Hs Hp.
  exists (map (λ x, lt x (effective_stop is_relative s p)) col).
  pose proof (column_lookup _ _ _ t Hcol) as Hcolt. rewrite Hp in Hcolt.
  repeat split.
  - unfold stoploss_exit_mask_nb. rewrite Hcol. simpl. rewrite Hs. simpl.
    unfold effective_stop. destruct is_relative; [rewrite Hcolt|]; done.
  - rewrite length_map. eauto using column_length.
  - intros t'. rewrite list_lookup_fmap, (column_lookup _ _ _ t' Hcol). done.
Qed.

Lemma stoploss_exit_mask_anchored_at_entry_witness :
  ∃ mask,
    stoploss_exit_mask_nb [[true]; [false]] 0 0
      [[10]; [8]]%float [[0.1]; [0.5]]%float true = Some mask
    ∧ length mask = 2
    ∧ effective_stop true 0.1 10 = ((1 - 0.1) * 10)%float
    ∧ ∀ t', mask !! t'
            = (λ x, PrimFloat.ltb x (effective_stop true 0.1 10))
                <$> at2 [[10]; [8]]%float t' 0.
Proof.
  apply (stoploss_exit_mask_anchored_at_entry
           [[true]; [false]] [[10]; [8]]%float [[0.1]; [0.5]]%float 0 0 true
           0.1%float 10%float).
  - vm_compute. eauto.
  - reflexivity.
  - reflexivity.
Defined.

(** C2: the price series 10, 9, 11, 8, 12 with an entry at index 0, one
    relative stop of 0.1 and [only_first]: the entry price 10 gives the
    threshold 9, and the only exit is at index 3. *)
Theorem generate_stoploss_exits_scenario :
  generate_stoploss_exits
    (to_2d [10; 9; 11; 8; 12]%float)
    (to_2d [true; false; false; false; false])
    (StopScalar 0.1%float) true true
  = Some (to_2d [false; false; false; true; false])
  ∧ effective_stop true 0.1 10 = 9%float
  ∧ map (λ x, PrimFloat.ltb x 9) [10; 9; 11; 8; 12]%float
    = [false; false; false; true; false].
Proof. repeat split; vm_compute; reflexivity. Qed.

(** ** Comparisons and arithmetic with NaN *)

Section NaN.
Implicit Types x y : f8.

Lemma Prim2SF_nan : Prim2SF nan = S754_nan.
Proof. reflexivity. Qed.

Lemma ltb_nan_r x y : Prim2SF y = S754_nan → PrimFloat.ltb x y = false.
Proof.
  intros Hy. rewrite FloatAxioms.ltb_spec, Hy. unfold SFltb, SFcompare.
  by destruct (Prim2SF x).
Qed.

Lemma mul_nan_r x y : Prim2SF y = S754_nan → Prim2SF (x * y) = S754_nan.
Proof.
  intros Hy. rewrite FloatAxioms.mul_spec, Hy. unfold SF64mul, SFmul.
  by destruct (Prim2SF x).
Qed.

Lemma lt_relative_nan x s : lt x ((1 - s) * nan)%float = false.
Proof. apply ltb_nan_r, mul_nan_r, Prim2SF_nan. Qed.
End NaN.

(** ** Shapes *)

Section ShapeFacts.
Context {A B C : Type}.

Lemma same_shape_length (a : matrix A) (b : matrix B) :
  same_shape a b = true → length a = length b.
Proof.
  unfold same_shape. intros [Hl _]%andb_prop. by apply Nat.eqb_eq.
Qed.

Lemma same_shape_rows (a : matrix A) (b : matrix B) i ra rb :
  same_shape a b = true → a !! i = Some ra → b !! i = Some rb →
  length ra = length rb.
Proof.
  unfold same_shape. intros [_ Hall]%andb_prop Ha Hb.
  rewrite forallb_forall in Hall.
  apply Nat.eqb_eq, (Hall (ra, rb)).
  apply list_elem_of_In, list_elem_of_lookup. exists i.
  by apply lookup_zip_with_Some; eauto.
Qed.

Lemma elementwise_Some (f : A → B → C) a b z :
  elementwise f a b = Some z →
  same_shape a b = true ∧ z = zip_with (zip_with f) a b.
Proof.
  unfold elementwise. destruct (same_shape a b); [|done].
  intros [= <-]. done.
Qed.

Lemma elementwise_lookup (f : A → B → C) a b z i ra rb :
  elementwise f a b = Some z → a !! i = Some ra → b !! i = Some rb →
  z !! i = Some (zip_with f ra rb) ∧ length ra = length rb.
Proof.
  intros [Hs ->]%elementwise_Some Ha Hb. split.
  - by rewrite lookup_zip_with, Ha, Hb.
  - eauto using same_shape_rows.
Qed.

Lemma elementwise_length (f : A → B → C) a b z :
  elementwise f a b = Some z → length z = length a.
Proof.
  intros [Hs ->]%elementwise_Some. apply same_shape_length in Hs.
  rewrite length_zip_with. lia.
Qed.
End ShapeFacts.

(** ** The trailing-stop mask *)

Section TrailingStopFacts.
Context `{Timeseries}.

Lemma full_lookup {A} (T N : nat) (v : A) i :
  i < T → full T N v !! i = Some (replicate N v).
Proof. intros. unfold full. by apply lookup_replicate_2. Qed.

Lemma set_rows_from_lookup_before {A} (dst src out : matrix A) start i :
  set_rows_from dst start src = Some out → i < start → i < length dst →
  out !! i = dst !! i.
Proof.
  unfold set_rows_from. destruct (same_shape _ _); [|done].
  intros [= <-] Hi Hl. rewrite lookup_app_l.
  - by apply lookup_take_lt.
  - rewrite length_take. lia.
Qed.

Lemma expand_dims_lookup {A} (v : list A) i x :
  v !! i = Some x → expand_dims v !! i = Some [x].
Proof. intros Hx. unfold expand_dims. by rewrite list_lookup_fmap, Hx. Qed.

Lemma expand_dims_shape1 {A} (v : list A) :
  v ≠ [] → shape1 (expand_dims v) = 1.
Proof. by destruct v. Qed.

Lemma length_one_inv {A} (l : list A) : length l = 1 → ∃ x, l = [x].
Proof. destruct l as [|x [|]]; try done. eauto. Qed.

(** C10, as amended: with a relative stop the trailing-stop mask is false at
    every index before the entry index, the running peak being NaN there;
    the mask has one cell per row of the price matrix. *)
Theorem tstop_exit_mask_relative_false_before_entry
    (entries : matrix bool) (ts stop : matrix f8) (c t t' : nat)
    (mask : list bool) :
  tstop_exit_mask_nb entries c t ts stop true = Some mask →
  t' < t → t' < length ts →
  length mask = length ts ∧ mask !! t' = Some false.
Proof.
  unfold tstop_exit_mask_nb. intros Hm Ht' HT.
  destruct (column ts c) as [tcol|] eqn:Htc; [|done].
  destruct (column stop c) as [scol|] eqn:Hsc; [|done].
  cbn [fmap option_fmap option_map mbind option_bind] in Hm.
  destruct (set_rows_from _ _ _) as [peak|] eqn:Hpeak; [|done].
  cbn [mbind option_bind] in Hm.
  destruct (Np.min _) as [lo|]; [|done].
  destruct (Np.max _) as [hi|]; [|done].
  cbn [mbind option_bind] in Hm.
  match type of Hm with (?e ≫= _ = _) => destruct e as [stop2|]; [|done] end.
  cbn [mbind option_bind] in Hm.
  destruct (elementwise _ stop2 peak) as [stop3|] eqn:Hs3; [|done].
  cbn [mbind option_bind] in Hm.
  destruct (elementwise lt _ stop3) as [below|] eqn:Hb; [|done].
  cbn [mbind option_bind] in Hm.
  pose proof (column_length _ _ _ Htc) as Hlen.
  pose proof (column_length _ _ _ Hm) as Hlm.
  pose proof (elementwise_length _ _ _ _ Hb) as Hlb.
  assert (length (expand_dims tcol) = length ts) as Hle
    by (unfold expand_dims; rewrite length_map; done).
  split; [lia|].
  destruct (lookup_lt_is_Some_2 tcol t') as [x Hx]; [lia|].
  assert (tcol ≠ []) as Hne by (intros ->; done).
  (* the peak is NaN before the entry *)
  assert (peak !! t' = Some [nan]) as Hp.
  { rewrite (set_rows_from_lookup_before _ _ _ _ _ Hpeak Ht').
    - rewrite full_lookup by (unfold shape0; lia).
      by rewrite expand_dims_shape1.
    - unfold full, shape0. rewrite length_replicate. lia. }
  (* so is the relative threshold *)
  pose proof (elementwise_Some _ _ _ _ Hs3) as [Hsh _].
  destruct (lookup_lt_is_Some_2 stop2 t') as [rs Hrs].
  { rewrite (same_shape_length _ _ Hsh). by eapply lookup_lt_Some. }
  destruct (elementwise_lookup _ _ _ _ _ _ _ Hs3 Hrs Hp) as [Hs3t Hl1].
  destruct (length_one_inv rs Hl1) as [s ->]. cbn in Hs3t.
  destruct (elementwise_lookup _ _ _ _ _ _ _ Hb (expand_dims_lookup _ _ _ Hx) Hs3t)
    as [Hbt _].
  cbn in Hbt. rewrite lt_relative_nan in Hbt.
  rewrite (column_lookup _ _ _ t' Hm). unfold at2. by rewrite Hbt.
Qed.
End TrailingStopFacts.

Lemma tstop_exit_mask_relative_false_before_entry_witness :
  length [false; false; false] = length [[12]; [2]; [3]]%float
  ∧ [false; false; false] !! 0 = Some false.
Proof.
  apply (tstop_exit_mask_relative_false_before_entry
           (H := SpecTimeseries.reference)
           (to_2d [false; true; false]) [[12]; [2]; [3]]%float
           [[0.5]; [0.5]; [0.5]]%float 0 1 0 [false; false; false]).
  - vm_compute. reflexivity.
  - lia.
  - simpl. lia.
Defined.

(** The original C10 fails for an absolute stop: the comparison is then made
    with the stop itself, which is not NaN before the entry.  Prices 1 and
    12, the entry at index 1, the absolute stop 2: the mask is true at
    index 0. *)
Lemma tstop_exit_mask_absolute_true_before_entry :
  ¬ (∀ (entries : matrix bool) (ts stop : matrix f8) (c t t' : nat)
       (is_relative : bool) (mask : list bool),
       tstop_exit_mask_nb (H := SpecTimeseries.reference)
         entries c t ts stop is_relative = Some mask →
       t' < t → t' < length ts → mask !! t' = Some false).
Proof.
  intros Hall.
  specialize (Hall (to_2d [false; true]) [[1]; [12]]%float [[2]; [2]]%float
                   0 1 0 false [true; false]).
  discriminate Hall; [vm_compute; reflexivity | lia | simpl; lia].
Qed.

(** The fixed stop-loss mask, by contrast, is taken over the whole column
    and can hold before the entry index. *)
Lemma stoploss_exit_mask_true_before_entry :
  stoploss_exit_mask_nb (to_2d [false; true]) 0 1
    [[1]; [12]]%float [[0.5]; [0.5]]%float true
  = Some [true; false].
Proof. vm_compute. reflexivity. Qed.

(** C3: the price series 10, 12, 11, 15, 9 with an entry at index 0 and one
    relative trailing stop of 0.2: the expanding peak from the entry is
    10, 12, 12, 15, 15, the thresholds are [(1 - 0.2) * peak], and the
    only exit is at index 4, where 9 is below the threshold 12. *)
Theorem generate_tstop_exits_scenario :
  let price := [10; 12; 11; 15; 9]%float in
  let peak := [10; 12; 12; 15; 15]%float in
  let thresholds := map (λ p, (1 - 0.2) * p)%float peak in
  generate_tstop_exits (H := SpecTimeseries.reference)
    (to_2d price) (to_2d [true; false; false; false; false])
    (StopScalar 0.2%float) true true
  = Some (to_2d [false; false; false; false; true])
  ∧ rolling_max_nb (Timeseries := SpecTimeseries.reference) (to_2d price) None
    = to_2d peak
  ∧ thresholds
    = [8; 9.6000000000000014; 9.6000000000000014; 12; 12]%float
  ∧ zip_with PrimFloat.ltb price thresholds
    = [false; false; false; false; true].
Proof. repeat split; vm_compute; reflexivity. Qed.

(** ** [np.unique] *)

Section Unique.
Implicit Types (x y : Z) (l : list Z).

Lemma elem_of_insert_unique x y l : y ∈ insert_unique x l ↔ y = x ∨ y ∈ l.
Proof.
  induction l as [|z l IH]; simpl.
  - rewrite list_elem_of_singleton, elem_of_nil. tauto.
  - destruct (Z.ltb_spec x z); [apply elem_of_cons|].
    destruct (Z.eqb_spec x z) as [->|]; [rewrite elem_of_cons; tauto|].
    rewrite !elem_of_cons, IH. tauto.
Qed.

Lemma elem_of_unique x l : x ∈ unique l ↔ x ∈ l.
Proof.
  unfold unique. induction l as [|z l IH]; simpl; [done|].
  rewrite elem_of_insert_unique, elem_of_cons, IH. done.
Qed.

Lemma insert_unique_sorted x l :
  StronglySorted Z.lt l → StronglySorted Z.lt (insert_unique x l).
Proof.
  induction 1 as [|z l Hs IH Hz]; simpl.
  - repeat constructor.
  - destruct (Z.ltb_spec x z) as [Hlt|Hge].
    + constructor; [by constructor|].
      constructor; [done|]. eapply Forall_impl; [exact Hz|]. intros; simpl in *; lia.
    + destruct (Z.eqb_spec x z) as [->|Hne]; [by constructor|].
      constructor; [done|].
      apply Forall_forall. intros y [->|Hy]%elem_of_insert_unique; [lia|].
      rewrite Forall_forall in Hz. auto.
Qed.

Lemma unique_sorted l : StronglySorted Z.lt (unique l).
Proof.
  unfold unique. induction l; simpl; [constructor|by apply insert_unique_sorted].
Qed.

Lemma unique_NoDup l : NoDup (unique l).
Proof.
  generalize (unique_sorted l). generalize (unique l). clear l.
  induction 1 as [|z l Hs IH Hz]; constructor; [|done].
  intros Hin. rewrite Forall_forall in Hz. specialize (Hz _ Hin). lia.
Qed.
End Unique.

(** ** Loops *)

Section Loops.
Context {B St : Type}.

(** The invariant rule of [for_each]. *)
Lemma for_each_invariant (body : nat → B → St → option St)
    (I : nat → St → Prop) xs i s s' :
  I i s →
  (∀ j x s s', xs !! j = Some x → I (i + j) s →
               body (i + j) x s = Some s' → I (S (i + j)) s') →
  for_each body i xs s = Some s' →
  I (i + length xs) s'.
Proof.
  revert i s. induction xs as [|x xs IH]; intros i s Hi Hstep Hrun; simpl in *.
  - injection Hrun as <-. by rewrite Nat.add_0_r.
  - destruct (body i x s) as [s1|] eqn:Hb; [|done]. simpl in Hrun.
    replace (i + S (length xs)) with (S i + length xs) by lia.
    apply (IH (S i) s1); [| |done].
    + specialize (Hstep 0 x s s1). rewrite Nat.add_0_r in Hstep. by apply Hstep.
    + intros j y t t' Hy Ht Hbt.
      replace (S i + j) with (i + S j) in * by lia. by eapply Hstep.
Qed.

(** A loop whose every pass succeeds runs to its end. *)
Lemma for_each_is_Some (body : nat → B → St → option St)
    (I : nat → St → Prop) xs i s :
  I i s →
  (∀ j x s, xs !! j = Some x → I (i + j) s →
            ∃ s', body (i + j) x s = Some s' ∧ I (S (i + j)) s') →
  is_Some (for_each body i xs s).
Proof.
  revert i s. induction xs as [|x xs IH]; intros i s Hi Hstep; simpl; [eauto|].
  destruct (Hstep 0 x s) as (s1 & Hb & H1); [done|by rewrite Nat.add_0_r|].
  rewrite Nat.add_0_r in Hb, H1. rewrite Hb. simpl.
  apply (IH (S i) s1); [done|].
  intros j y t Hy Ht. replace (S i + j) with (i + S j) in * by lia.
  by apply Hstep.
Qed.

Lemma for_each_ext (body1 body2 : nat → B → St → option St) i xs s :
  (∀ j x s, body1 j x s = body2 j x s) →
  for_each body1 i xs s = for_each body2 i xs s.
Proof.
  intros Hext. revert i s. induction xs as [|x xs IH]; intros i s; simpl; [done|].
  rewrite Hext. destruct (body2 i x s); simpl; auto.
Qed.
End Loops.

(** ** Column blocks *)

Section Blocks.
Context {A : Type}.
Implicit Types (a dst src out : matrix A) (r drow srow : list A).

Lemma full_has_shape T N (v : A) : has_shape T N (full T N v).
Proof.
  unfold full. split; [by rewrite length_replicate|].
  apply Forall_replicate. by rewrite length_replicate.
Qed.

Lemma rows_of_width_spec n a :
  rows_of_width n a = true ↔ Forall (λ r, length r = n) a.
Proof.
  unfold rows_of_width. rewrite forallb_forall, Forall_forall.
  split; intros Hall r Hr.
  - apply Nat.eqb_eq, Hall. by apply list_elem_of_In.
  - apply Nat.eqb_eq, Hall. by apply list_elem_of_In.
Qed.

Lemma splice_length start drow srow :
  start + length srow ≤ length drow →
  length (splice start drow srow) = length drow.
Proof.
  intros. unfold splice. rewrite !length_app, length_take, length_drop. lia.
Qed.

Lemma splice_block_same start drow srow :
  start ≤ length drow →
  take (length srow) (drop start (splice start drow srow)) = srow.
Proof.
  intros. unfold splice.
  rewrite drop_app_length' by (rewrite length_take; lia).
  by rewrite take_app_length.
Qed.

Lemma splice_block_before k w start drow srow :
  k + w ≤ start → start ≤ length drow →
  take w (drop k (splice start drow srow)) = take w (drop k drow).
Proof.
  intros Hk Hs. unfold splice.
  rewrite drop_app_le by (rewrite length_take; lia).
  rewrite take_app_le by (rewrite length_drop, length_take; lia).
  rewrite !take_drop_commute, take_take. f_equal. f_equal. lia.
Qed.

Lemma set_cols_Some dst start w src out :
  set_cols dst start w src = Some out →
  has_shape (length dst) w src
  ∧ Forall (λ r, start + w ≤ length r) dst
  ∧ out = zip_with (splice start) dst src.
Proof.
  unfold set_cols.
  destruct (Nat.eqb_spec (length src) (length dst)) as [Hl|]; [|done].
  destruct (rows_of_width w src) eqn:Hw; [|done].
  destruct (forallb _ dst) eqn:Hd; [|done].
  intros [= <-]. split_and!; [by split; [|apply rows_of_width_spec]| |done].
  rewrite forallb_forall in Hd. apply Forall_forall. intros r Hr.
  apply Nat.leb_le, Hd. by apply list_elem_of_In.
Qed.

Lemma set_cols_is_Some dst start w src T N :
  has_shape T N dst → has_shape T w src → start + w ≤ N →
  is_Some (set_cols dst start w src).
Proof.
  intros [Hd1 Hd2] [Hs1 Hs2] Hle. unfold set_cols.
  rewrite (proj2 (Nat.eqb_eq _ _)) by lia.
  rewrite (proj2 (rows_of_width_spec _ _)) by done.
  assert (forallb (λ r, Nat.leb (start + w) (length r)) dst = true) as ->; [|eauto].
  apply forallb_forall. intros r Hr%list_elem_of_In.
  rewrite Forall_forall in Hd2. apply Nat.leb_le. rewrite (Hd2 r Hr). lia.
Qed.

Lemma set_cols_has_shape dst start w src out T N :
  has_shape T N dst → set_cols dst start w src = Some out → has_shape T N out.
Proof.
  intros [Hd1 Hd2] ([Hs1 Hs2] & Hfit & ->)%set_cols_Some. split.
  - rewrite length_zip_with. lia.
  - apply Forall_forall. intros r (i & Hi)%list_elem_of_lookup.
    apply lookup_zip_with_Some in Hi as (drow & srow & -> & Hdi & Hsi).
    rewrite splice_length.
    + eapply (Forall_lookup_1 _ _ _ _ Hd2 Hdi).
    + rewrite (Forall_lookup_1 _ _ _ _ Hs2 Hsi).
      apply (Forall_lookup_1 _ _ _ _ Hfit Hdi).
Qed.

Lemma block_set_cols_same dst i w src out :
  set_cols dst (i * w) w src = Some out → block i w out = src.
Proof.
  intros ([Hs1 Hs2] & Hfit & ->)%set_cols_Some. unfold block.
  apply list_eq. intros t. rewrite list_lookup_fmap, lookup_zip_with.
  destruct (dst !! t) as [drow|] eqn:Hd; simpl.
  - destruct (src !! t) as [srow|] eqn:Hs; simpl.
    + pose proof (Forall_lookup_1 _ _ _ _ Hs2 Hs) as Hlen. simpl in Hlen.
      pose proof (Forall_lookup_1 _ _ _ _ Hfit Hd) as Hle. simpl in Hle.
      rewrite <- Hlen at 1. rewrite splice_block_same by lia. done.
    + apply lookup_lt_Some in Hd. apply lookup_ge_None in Hs. lia.
  - symmetry. apply lookup_ge_None. apply lookup_ge_None in Hd. lia.
Qed.

Lemma block_set_cols_before dst i j w src out :
  j < i → set_cols dst (i * w) w src = Some out →
  block j w out = block j w dst.
Proof.
  intros Hj ([Hs1 Hs2] & Hfit & ->)%set_cols_Some. unfold block.
  apply list_eq. intros t. rewrite !list_lookup_fmap, lookup_zip_with.
  destruct (dst !! t) as [drow|] eqn:Hd; simpl; [|done].
  destruct (src !! t) as [srow|] eqn:Hs; simpl.
  - pose proof (Forall_lookup_1 _ _ _ _ Hfit Hd) as Hle. simpl in Hle.
    rewrite splice_block_before; [done| |lia]. nia.
  - apply lookup_lt_Some in Hd. apply lookup_ge_None in Hs. lia.
Qed.

(** A sweep of one parameter: the only block is the whole output. *)
Lemma set_cols_single T w (v : A) src :
  has_shape T w src → set_cols (full T (w * 1) v) (0 * w) w src = Some src.
Proof.
  intros Hsrc.
  destruct (set_cols_is_Some (full T (w * 1) v) (0 * w) w src T (w * 1))
    as [out Hout]; [apply full_has_shape|done|lia|].
  rewrite Hout. f_equal.
  pose proof (block_set_cols_same _ _ _ _ _ Hout) as Hb.
  pose proof (set_cols_has_shape _ _ _ _ _ _ _ (full_has_shape _ _ _) Hout)
    as [_ Hrows].
  rewrite <- Hb. unfold block. symmetry. etrans; [|apply list_fmap_id].
  apply Forall_fmap_ext_1. eapply Forall_impl; [exact Hrows|].
  intros r Hr. simpl in *. rewrite drop_0. apply take_ge. lia.
Qed.
End Blocks.

(** ** The window cache *)

Section Cache.
Context {V : Type}.
Implicit Types (compute : Z → option V) (keys log : list Z) (d : gmap Z V).

(** What a cache-filling loop leaves: the rolling routine was run once for
    each key of the loop, in order, and the dictionary holds under each key
    what the routine computes for it. *)
Lemma fill_cache_Some compute keys d log :
  fill_cache compute keys = Some (d, log) →
  log = keys
  ∧ (∀ w, w ∈ keys → is_Some (compute w) ∧ d !! w = compute w)
  ∧ (∀ w, w ∉ keys → d !! w = None).
Proof.
  unfold fill_cache. intros Hrun.
  pose (I := λ (k : nat) (st : gmap Z V * list Z),
          st.2 = take k keys
          ∧ (∀ w, w ∈ take k keys → is_Some (compute w) ∧ st.1 !! w = compute w)
          ∧ (∀ w, w ∉ take k keys → st.1 !! w = None)).
  assert (I (0 + length keys) (d, log)) as (Hlog & Hin & Hout).
  { apply (for_each_invariant _ I) in Hrun; [done| |].
    - split_and!; [done| |done]. simpl. intros w Hw. by apply elem_of_nil in Hw.
    - intros j x [d0 l0] [d1 l1] Hx (Hl0 & Hin0 & Hout0) Hbody. simpl in *.
      destruct (compute x) as [v|] eqn:Hv; [|done]. injection Hbody as <- <-.
      unfold I. rewrite (take_S_r _ _ _ Hx). split_and!; simpl.
      + by rewrite Hl0.
      + intros w [Hw|Hw%list_elem_of_singleton]%elem_of_app.
        * destruct (decide (w = x)) as [->|Hne].
          -- rewrite lookup_insert_eq, Hv. eauto.
          -- rewrite lookup_insert_ne by done. auto.
        * subst w. rewrite lookup_insert_eq, Hv. eauto.
      + intros w Hw. rewrite elem_of_app, list_elem_of_singleton in Hw.
        rewrite lookup_insert_ne by (intros ->; tauto). apply Hout0. tauto. }
  simpl in *. rewrite firstn_all in *. done.
Qed.

Lemma fill_cache_is_Some compute keys :
  (∀ w, w ∈ keys → is_Some (compute w)) → is_Some (fill_cache compute keys).
Proof.
  intros Hall. unfold fill_cache.
  apply (for_each_is_Some _ (λ _ _, True)); [done|].
  intros j x [d0 l0] Hx _. simpl.
  destruct (Hall x) as [v ->]; [by eapply list_elem_of_lookup_2|].
  simpl. eauto.
Qed.
End Cache.

(** ** Sweeps of moving averages *)

Section MovingAverageFacts.
Context `{Timeseries}.
Implicit Types (ts : matrix f8) (fast_windows slow_windows : list Z).

Lemma ma_nb_blocks ts fast_windows slow_windows ewm adjust min_periods F S :
  ma_nb ts fast_windows slow_windows ewm adjust min_periods = Some (F, S) →
  ∀ i fw, fast_windows !! i = Some fw →
    ∃ sw, slow_windows !! i = Some sw
      ∧ ma_entry ts ewm adjust min_periods fw = Some (block i (shape1 ts) F)
      ∧ ma_entry ts ewm adjust min_periods sw = Some (block i (shape1 ts) S)
      ∧ has_shape (shape0 ts) (shape1 ts) (block i (shape1 ts) F)
      ∧ has_shape (shape0 ts) (shape1 ts) (block i (shape1 ts) S).
Proof.
  unfold ma_nb, ma_cache. intros Hrun.
  destruct (fill_cache _ _) as [[cache_d log]|] eqn:Hcache; [|done].
  apply fill_cache_Some in Hcache as (_ & Hin & _).
  cbn [mbind option_bind] in Hrun.
  set (T := shape0 ts) in *. set (C := shape1 ts) in *.
  set (N := C * length fast_windows) in *.
  pose (I := λ (k : nat) (out : matrix f8 * matrix f8),
          has_shape T N out.1 ∧ has_shape T N out.2
          ∧ ∀ j fw, j < k → fast_windows !! j = Some fw →
              ∃ sw, slow_windows !! j = Some sw
                ∧ cache_d !! fw = Some (block j C out.1)
                ∧ cache_d !! sw = Some (block j C out.2)
                ∧ has_shape T C (block j C out.1)
                ∧ has_shape T C (block j C out.2)).
  apply (for_each_invariant _ I) in Hrun.
  - destruct Hrun as (_ & _ & Hblocks). intros i fw Hfw.
    destruct (Hblocks i fw) as (sw & Hsw & Hf & Hs & HF & HS);
      [apply lookup_lt_Some in Hfw; simpl; lia|done|].
    simpl in *. exists sw. split_and!; [done| | |done|done].
    + rewrite <- Hf. symmetry. apply Hin, elem_of_unique, elem_of_app. left.
      by eapply list_elem_of_lookup_2.
    + rewrite <- Hs. symmetry. apply Hin, elem_of_unique, elem_of_app. right.
      by eapply list_elem_of_lookup_2.
  - split_and!; [apply full_has_shape..|]. intros; lia.
  - intros j x [F0 S0] [F1 S1] Hx (HF0 & HS0 & Hprev) Hbody. simpl in *.
    destruct (cache_d !! x) as [fm|] eqn:Hfm; [|done]. simpl in Hbody.
    destruct (set_cols F0 _ _ fm) as [F'|] eqn:HF'; [|done]. simpl in Hbody.
    destruct (slow_windows !! j) as [sw|] eqn:Hsw; [|done]. simpl in Hbody.
    destruct (cache_d !! sw) as [sm|] eqn:Hsm; [|done]. simpl in Hbody.
    destruct (set_cols S0 _ _ sm) as [S'|] eqn:HS'; [|done]. simpl in Hbody.
    injection Hbody as <- <-.
    pose proof (set_cols_Some _ _ _ _ _ HF') as (Hfms & _ & _).
    pose proof (set_cols_Some _ _ _ _ _ HS') as (Hsms & _ & _).
    rewrite (proj1 HF0) in Hfms. rewrite (proj1 HS0) in Hsms.
    unfold I. simpl.
    split_and!; [exact (set_cols_has_shape _ _ _ _ _ _ _ HF0 HF')
                |exact (set_cols_has_shape _ _ _ _ _ _ _ HS0 HS')|].
    intros j' fw Hj' Hfw.
    destruct (decide (j' = j)) as [->|Hne].
    + exists sw. rewrite Hx in Hfw. injection Hfw as <-.
      rewrite (block_set_cols_same _ _ _ _ _ HF'),
              (block_set_cols_same _ _ _ _ _ HS'). done.
    + assert (j' < j) as Hlt by lia.
      rewrite (block_set_cols_before _ _ _ _ _ _ Hlt HF'),
              (block_set_cols_before _ _ _ _ _ _ Hlt HS').
      by apply Hprev.
Qed.

(** The sweep of one pair of windows. *)
Lemma ma_nb_single ts fw sw ewm adjust min_periods fm sm :
  ma_entry ts ewm adjust min_periods fw = Some fm →
  ma_entry ts ewm adjust min_periods sw = Some sm →
  has_shape (shape0 ts) (shape1 ts) fm →
  has_shape (shape0 ts) (shape1 ts) sm →
  ma_nb ts [fw] [sw] ewm adjust min_periods = Some (fm, sm).
Proof.
  intros Hfm Hsm Hfs Hss. unfold ma_nb, ma_cache.
  destruct (fill_cache_is_Some (ma_entry ts ewm adjust min_periods)
              (unique ([fw] ++ [sw]))) as [[cache_d log] Hcache].
  { intros w [Hw|Hw]%elem_of_unique%elem_of_app;
      apply list_elem_of_singleton in Hw; subst w; eauto. }
  rewrite Hcache. cbn [mbind option_bind].
  apply fill_cache_Some in Hcache as (_ & Hin & _).
  assert (cache_d !! fw = Some fm) as Hf.
  { rewrite <- Hfm. apply Hin, elem_of_unique. simpl. repeat constructor. }
  assert (cache_d !! sw = Some sm) as Hs.
  { rewrite <- Hsm. apply Hin, elem_of_unique. simpl. repeat constructor. }
  cbn [for_each length fst snd mbind option_bind lookup list_lookup].
  rewrite Hf. cbn [mbind option_bind].
  rewrite set_cols_single by done. cbn [mbind option_bind lookup list_lookup].
  rewrite Hs. cbn [mbind option_bind].
  rewrite set_cols_single by done. done.
Qed.

(** Block i of a sweep of moving averages is the sweep of pair i alone. *)
Lemma ma_nb_block ts fast_windows slow_windows ewm adjust min_periods F S i fw sw :
  ma_nb ts fast_windows slow_windows ewm adjust min_periods = Some (F, S) →
  fast_windows !! i = Some fw → slow_windows !! i = Some sw →
  ma_nb ts [fw] [sw] ewm adjust min_periods
  = Some (block i (shape1 ts) F, block i (shape1 ts) S).
Proof.
  intros Hrun Hfw Hsw.
  destruct (ma_nb_blocks _ _ _ _ _ _ _ _ Hrun i fw Hfw)
    as (sw' & Hsw' & Hf & Hs & HF & HS).
  rewrite Hsw in Hsw'. injection Hsw' as <-.
  by apply ma_nb_single.
Qed.
End MovingAverageFacts.

(** ** Sweeps with one output *)

Section Assemble.
Context {A B : Type}.
Implicit Types (g : B → option (matrix A)) (xs : list B).

Lemma assemble_blocks g xs T C v out :
  for_each (assemble g C) 0 xs (full T (C * length xs) v) = Some out →
  ∀ i x, xs !! i = Some x →
    g x = Some (block i C out) ∧ has_shape T C (block i C out).
Proof.
  intros Hrun.
  pose (I := λ (k : nat) (out : matrix A),
          has_shape T (C * length xs) out
          ∧ ∀ j x, j < k → xs !! j = Some x →
              g x = Some (block j C out) ∧ has_shape T C (block j C out)).
  apply (for_each_invariant _ I) in Hrun.
  - destruct Hrun as [_ Hblocks]. intros i x Hx. apply Hblocks; [|done].
    apply lookup_lt_Some in Hx. simpl. lia.
  - split; [apply full_has_shape|]. intros; lia.
  - intros j x o o' Hx [Ho Hprev] Hbody. unfold assemble in Hbody. simpl in *.
    destruct (g x) as [src|] eqn:Hg; [|done]. simpl in Hbody.
    pose proof (set_cols_Some _ _ _ _ _ Hbody) as (Hsrc & _ & _).
    rewrite (proj1 Ho) in Hsrc.
    unfold I. split; [exact (set_cols_has_shape _ _ _ _ _ _ _ Ho Hbody)|].
    intros j' y Hj' Hy. destruct (decide (j' = j)) as [->|Hne].
    + rewrite Hx in Hy. injection Hy as <-.
      by rewrite (block_set_cols_same _ _ _ _ _ Hbody).
    + assert (j' < j) as Hlt by lia.
      rewrite (block_set_cols_before _ _ _ _ _ _ Hlt Hbody). by apply Hprev.
Qed.

Lemma assemble_single g x T C v src :
  g x = Some src → has_shape T C src →
  for_each (assemble g C) 0 [x] (full T (C * length [x]) v) = Some src.
Proof.
  intros Hg Hsrc. unfold assemble. simpl. rewrite Hg. simpl.
  by rewrite set_cols_single.
Qed.

(** Block i of a sweep is the sweep of parameter i alone. *)
Lemma assemble_block g xs T C v out i x :
  for_each (assemble g C) 0 xs (full T (C * length xs) v) = Some out →
  xs !! i = Some x →
  for_each (assemble g C) 0 [x] (full T (C * length [x]) v)
  = Some (block i C out).
Proof.
  intros Hrun Hx. destruct (assemble_blocks _ _ _ _ _ _ Hrun i x Hx).
  by apply assemble_single.
Qed.
End Assemble.

(** ** Sweeps of the RSI *)

Section RsiFacts.
Context `{Timeseries}.
Implicit Types (ts : matrix f8) (windows : list Z).

Lemma rsi_nb_assemble ts windows ewm adjust min_periods :
  rsi_nb ts windows ewm adjust min_periods
  = (cache ← rsi_cache ts windows ewm adjust min_periods;
     for_each
       (assemble (λ w, '(roll_up, roll_down) ← cache.1 !! w;
                       elementwise rsi_cell roll_up roll_down)
                 (shape1 ts))
       0 windows (full (shape0 ts) (shape1 ts * length windows) 0%float)).
Proof.
  unfold rsi_nb. destruct (rsi_cache _ _ _ _ _) as [[cache_d log]|]; [|done].
  simpl. apply for_each_ext. intros j w out. unfold assemble.
  by destruct (cache_d !! w) as [[ru rd]|].
Qed.

Lemma rsi_cache_lookup ts windows ewm adjust min_periods cache_d log w :
  rsi_cache ts windows ewm adjust min_periods = Some (cache_d, log) →
  w ∈ windows →
  ('(roll_up, roll_down) ← cache_d !! w; elementwise rsi_cell roll_up roll_down)
  = rsi_block ts ewm adjust min_periods w.
Proof.
  unfold rsi_cache, rsi_block. destruct (rsi_moves ts) as [up down]. simpl.
  intros (_ & Hin & _)%fill_cache_Some Hw.
  destruct (Hin w) as [_ ->]; [by apply elem_of_unique|]. done.
Qed.

Lemma rsi_cache_is_Some ts ewm adjust min_periods w :
  is_Some (rsi_block ts ewm adjust min_periods w) →
  is_Some (rsi_cache ts [w] ewm adjust min_periods).
Proof.
  unfold rsi_cache, rsi_block. destruct (rsi_moves ts) as [up down]. simpl.
  intros [cells Hcells]. apply fill_cache_is_Some.
  intros w' Hw'%elem_of_unique%list_elem_of_singleton. subst w'.
  destruct (rsi_entry _ _ _ _ _ w); [eauto|done].
Qed.

Lemma rsi_nb_blocks ts windows ewm adjust min_periods R :
  rsi_nb ts windows ewm adjust min_periods = Some R →
  ∀ i w, windows !! i = Some w →
    rsi_block ts ewm adjust min_periods w = Some (block i (shape1 ts) R)
    ∧ has_shape (shape0 ts) (shape1 ts) (block i (shape1 ts) R).
Proof.
  rewrite rsi_nb_assemble. intros Hrun i w Hw.
  destruct (rsi_cache _ _ _ _ _) as [[cache_d log]|] eqn:Hcache; [|done].
  simpl in Hrun.
  destruct (assemble_blocks _ _ _ _ _ _ Hrun i w Hw) as [Hb Hs].
  split; [|done]. rewrite <- Hb. symmetry.
  eapply rsi_cache_lookup; [done|]. by eapply list_elem_of_lookup_2.
Qed.

Lemma rsi_nb_single ts ewm adjust min_periods w cells :
  rsi_block ts ewm adjust min_periods w = Some cells →
  has_shape (shape0 ts) (shape1 ts) cells →
  rsi_nb ts [w] ewm adjust min_periods = Some cells.
Proof.
  intros Hcells Hshape. rewrite rsi_nb_assemble.
  destruct (rsi_cache_is_Some ts ewm adjust min_periods w) as [[cache_d log] Hc];
    [by rewrite Hcells|].
  rewrite Hc. simpl. apply assemble_single; [|done].
  rewrite <- Hcells. eapply rsi_cache_lookup; [done|]. repeat constructor.
Qed.

(** Block i of a sweep of the RSI is the sweep of window i alone. *)
Lemma rsi_nb_block ts windows ewm adjust min_periods R i w :
  rsi_nb ts windows ewm adjust min_periods = Some R →
  windows !! i = Some w →
  rsi_nb ts [w] ewm adjust min_periods = Some (block i (shape1 ts) R).
Proof.
  intros Hrun Hw. destruct (rsi_nb_blocks _ _ _ _ _ _ Hrun i w Hw).
  by apply rsi_nb_single.
Qed.
End RsiFacts.

(** ** Sweeps of Bollinger bands *)

Section BollingerFacts.
Context `{Timeseries}.
Implicit Types (ts : matrix f8) (ns ks : list Z).

Lemma bb_nb_blocks ts ns ks min_periods U M L :
  bb_nb ts ns ks min_periods = Some (U, M, L) →
  ∀ i n, ns !! i = Some n →
    ∃ k ma mstd,
      ks !! i = Some k
      ∧ bb_entry ts min_periods n = Some (ma, mstd)
      ∧ elementwise (λ m s, upper_band m k s) ma mstd
        = Some (block i (shape1 ts) U)
      ∧ block i (shape1 ts) M = ma
      ∧ elementwise (λ m s, lower_band m k s) ma mstd
        = Some (block i (shape1 ts) L)
      ∧ has_shape (shape0 ts) (shape1 ts) ma.
Proof.
  unfold bb_nb, bb_cache. intros Hrun.
  destruct (fill_cache _ _) as [[cache_d log]|] eqn:Hcache; [|done].
  apply fill_cache_Some in Hcache as (_ & Hin & _).
  cbn [mbind option_bind] in Hrun.
  set (T := shape0 ts) in *. set (C := shape1 ts) in *.
  set (N := C * length ns) in *.
  pose (I := λ (k : nat) (out : matrix f8 * matrix f8 * matrix f8),
          has_shape T N out.1.1 ∧ has_shape T N out.1.2 ∧ has_shape T N out.2
          ∧ ∀ j n, j < k → ns !! j = Some n →
              ∃ k ma mstd,
                ks !! j = Some k
                ∧ cache_d !! n = Some (ma, mstd)
                ∧ elementwise (λ m s, upper_band m k s) ma mstd
                  = Some (block j C out.1.1)
                ∧ block j C out.1.2 = ma
                ∧ elementwise (λ m s, lower_band m k s) ma mstd
                  = Some (block j C out.2)
                ∧ has_shape T C ma).
  apply (for_each_invariant _ I) in Hrun.
  - destruct Hrun as (_ & _ & _ & Hblocks). intros i n Hn.
    destruct (Hblocks i n) as (k & ma & mstd & Hk & Hc & Hu & Hm & Hl & Hs);
      [apply lookup_lt_Some in Hn; simpl; lia|done|].
    exists k, ma, mstd. split_and!; try done.
    rewrite <- Hc. symmetry. apply Hin. by eapply list_elem_of_lookup_2.
  - unfold I. simpl. split_and!; [apply full_has_shape..|]. intros; lia.
  - intros j n [[U0 M0] L0] [[U1 M1] L1] Hn (HU0 & HM0 & HL0 & Hprev) Hbody.
    simpl in *.
    destruct (cache_d !! n) as [[ma mstd]|] eqn:Hc; [|done]. simpl in Hbody.
    destruct (ks !! j) as [k|] eqn:Hk; [|done]. simpl in Hbody.
    destruct (elementwise (λ m s, upper_band m k s) ma mstd)
      as [upper|] eqn:Hup; [|done].
    simpl in Hbody.
    destruct (elementwise (λ m s, lower_band m k s) ma mstd)
      as [lower|] eqn:Hlo; [|done].
    simpl in Hbody.
    destruct (set_cols U0 _ _ upper) as [U'|] eqn:HU'; [|done]. simpl in Hbody.
    destruct (set_cols M0 _ _ ma) as [M'|] eqn:HM'; [|done]. simpl in Hbody.
    destruct (set_cols L0 _ _ lower) as [L'|] eqn:HL'; [|done]. simpl in Hbody.
    injection Hbody as <- <- <-.
    pose proof (set_cols_Some _ _ _ _ _ HM') as (Hmas & _ & _).
    rewrite (proj1 HM0) in Hmas.
    unfold I. simpl.
    split_and!; [exact (set_cols_has_shape _ _ _ _ _ _ _ HU0 HU')
                |exact (set_cols_has_shape _ _ _ _ _ _ _ HM0 HM')
                |exact (set_cols_has_shape _ _ _ _ _ _ _ HL0 HL')|].
    intros j' n' Hj' Hn'.
    destruct (decide (j' = j)) as [->|Hne].
    + exists k, ma, mstd. rewrite Hn in Hn'. injection Hn' as <-.
      rewrite (block_set_cols_same _ _ _ _ _ HU'),
              (block_set_cols_same _ _ _ _ _ HM'),
              (block_set_cols_same _ _ _ _ _ HL'). done.
    + assert (j' < j) as Hlt by lia.
      rewrite (block_set_cols_before _ _ _ _ _ _ Hlt HU'),
              (block_set_cols_before _ _ _ _ _ _ Hlt HM'),
              (block_set_cols_before _ _ _ _ _ _ Hlt HL').
      by apply Hprev.
Qed.
End BollingerFacts.

(** ** Sweeps and single runs *)

(** C4: block i of a sweep is the output of the same computation run with
    parameter i alone, for the moving averages and for the RSI; and two
    positions of a sweep that hold the same window give the same block. *)
Theorem sweep_block_is_single_run `{Timeseries}
    (ts : matrix f8) (ewm adjust min_periods : bool) (i : nat) :
  (∀ fast_windows slow_windows fast slow fw sw,
     ma_nb ts fast_windows slow_windows ewm adjust min_periods
       = Some (fast, slow) →
     fast_windows !! i = Some fw → slow_windows !! i = Some sw →
     ma_nb ts [fw] [sw] ewm adjust min_periods
     = Some (block i (shape1 ts) fast, block i (shape1 ts) slow))
  ∧ (∀ windows rsi w,
       rsi_nb ts windows ewm adjust min_periods = Some rsi →
       windows !! i = Some w →
       rsi_nb ts [w] ewm adjust min_periods = Some (block i (shape1 ts) rsi))
  ∧ (∀ fast_windows slow_windows fast slow j w,
       ma_nb ts fast_windows slow_windows ewm adjust min_periods
         = Some (fast, slow) →
       fast_windows !! i = Some w → fast_windows !! j = Some w →
       block i (shape1 ts) fast = block j (shape1 ts) fast)
  ∧ (∀ windows rsi j w,
       rsi_nb ts windows ewm adjust min_periods = Some rsi →
       windows !! i = Some w → windows !! j = Some w →
       block i (shape1 ts) rsi = block j (shape1 ts) rsi).
Proof.
  split_and!.
  - intros. by eapply ma_nb_block.
  - intros. by eapply rsi_nb_block.
  - intros fws sws fast slow j w Hrun Hi Hj.
    destruct (ma_nb_blocks _ _ _ _ _ _ _ _ Hrun i w Hi) as (_ & _ & Hbi & _).
    destruct (ma_nb_blocks _ _ _ _ _ _ _ _ Hrun j w Hj) as (_ & _ & Hbj & _).
    congruence.
  - intros ws rsi j w Hrun Hi Hj.
    destruct (rsi_nb_blocks _ _ _ _ _ _ Hrun i w Hi) as [Hbi _].
    destruct (rsi_nb_blocks _ _ _ _ _ _ Hrun j w Hj) as [Hbj _].
    congruence.
Qed.

Lemma sweep_block_is_single_run_witness :
  ma_nb (H := SpecTimeseries.reference)
    [[1; 10]; [2; 20]; [3; 30]; [4; 40]]%float [2]%Z [3]%Z false false true
  = Some (block 1 2 [[nan; nan; nan; nan]; [2; 20; nan; nan];
                     [3; 30; 2.5; 25]; [4; 40; 3.5; 35]]%float,
          block 1 2 [[nan; nan; nan; nan]; [nan; nan; nan; nan];
                     [2.5; 25; nan; nan]; [3.5; 35; 3; 30]]%float).
Proof.
  apply (proj1 (sweep_block_is_single_run (H := SpecTimeseries.reference)
                  [[1; 10]; [2; 20]; [3; 30]; [4; 40]]%float false false true 1)
           [1; 2]%Z [2; 3]%Z).
  - vm_compute. reflexivity.
  - reflexivity.
  - reflexivity.
Defined.

(** ** The min_periods rule *)

Section MinPeriods.
Context {A : Type}.
Implicit Types (a : matrix A) (w : Z) (v : A).

Lemma fmap_const_replicate {B} (v : B) (r : list A) :
  map (λ _, v) r = replicate (length r) v.
Proof. induction r; simpl; congruence. Qed.

Lemma slice_stop_nonneg T w :
  (0 ≤ w)%Z → slice_stop T w = Nat.min (Z.to_nat w) T.
Proof. intros. unfold slice_stop. by destruct (Z.ltb_spec w 0); [lia|]. Qed.

Lemma set_rows_until_length a w v : length (set_rows_until a w v) = length a.
Proof.
  unfold set_rows_until. rewrite length_app, length_map, length_take, length_drop.
  lia.
Qed.

(** The rows the rule overwrites: those of index below [w]. *)
Lemma set_rows_until_forced a w v t r :
  (0 ≤ w)%Z → (Z.of_nat t < w)%Z → a !! t = Some r →
  set_rows_until a w v !! t = Some (replicate (length r) v).
Proof.
  intros Hw Ht Hr. unfold set_rows_until. rewrite slice_stop_nonneg by done.
  apply lookup_lt_Some in Hr as Hlt.
  rewrite lookup_app_l by (rewrite length_map, length_take; lia).
  rewrite list_lookup_fmap, lookup_take_lt by lia. rewrite Hr. simpl.
  by rewrite fmap_const_replicate.
Qed.

(** The rows it leaves alone: those of index [w] and later. *)
Lemma set_rows_until_kept a w v t :
  (0 ≤ w)%Z → (w ≤ Z.of_nat t)%Z →
  set_rows_until a w v !! t = a !! t.
Proof.
  intros Hw Ht. unfold set_rows_until. rewrite slice_stop_nonneg by done.
  destruct (decide (t < length a)) as [Hlt|Hge].
  - rewrite lookup_app_r by (rewrite length_map, length_take; lia).
    rewrite length_map, length_take, lookup_drop. f_equal. lia.
  - rewrite (proj2 (lookup_ge_None a t)) by lia.
    apply lookup_ge_None. rewrite length_app, length_map, length_take, length_drop.
    lia.
Qed.

Lemma set_rows_until_has_shape a w v T N :
  has_shape T N (set_rows_until a w v) → has_shape T N a.
Proof.
  intros [Hl Hrows]. rewrite set_rows_until_length in Hl. split; [done|].
  apply Forall_lookup. intros t r Hr.
  unfold set_rows_until in Hrows. apply Forall_app in Hrows as [Hhead Htail].
  destruct (decide (t < slice_stop (length a) w)) as [Hlt|Hge].
  - assert (take (slice_stop (length a) w) a !! t = Some r) as Ht
      by (by rewrite lookup_take_lt).
    rewrite Forall_fmap in Hhead.
    pose proof (Forall_lookup_1 _ _ _ _ Hhead Ht) as Hlen. simpl in Hlen.
    by rewrite length_map in Hlen.
  - assert (drop (slice_stop (length a) w) a !! (t - slice_stop (length a) w)
            = Some r) as Ht.
    { rewrite lookup_drop. rewrite <- Hr. f_equal. lia. }
    apply (Forall_lookup_1 _ _ _ _ Htail Ht).
Qed.
End MinPeriods.

Section MinPeriodsOfMovingAverages.
Context `{Timeseries}.

(** C5, as amended: with [min_periods] the moving average of window w has
    its first w rows, those of index 0 to w - 1, forced to NaN, and the rows
    of index w and later are what the rolling routine produced. *)
Theorem ma_nb_min_periods_forces_first_w_rows
    (ts : matrix f8) (w : Z) (ewm adjust : bool) (fast slow r : matrix f8)
    (t : nat) :
  (0 ≤ w)%Z →
  ma_nb ts [w] [w] ewm adjust true = Some (fast, slow) →
  (if ewm then ewma_nb ts w adjust else rolling_mean_nb ts w) = Some r →
  ((Z.of_nat t < w)%Z → t < shape0 ts →
   fast !! t = Some (replicate (shape1 ts) nan))
  ∧ ((w ≤ Z.of_nat t)%Z → fast !! t = r !! t).
Proof.
  intros Hw Hrun Hr.
  destruct (ma_nb_blocks _ _ _ _ _ _ _ _ Hrun 0 w eq_refl)
    as (sw & [= <-] & Hf & Hs & HF & HS).
  pose proof (ma_nb_single _ _ _ _ _ _ _ _ Hf Hs HF HS) as Hsingle.
  rewrite Hrun in Hsingle. injection Hsingle as Hfast _.
  rewrite <- Hfast in Hf, HF. clear Hfast Hs HS.
  unfold ma_entry in Hf. rewrite Hr in Hf. injection Hf as <-.
  apply set_rows_until_has_shape in HF as [Hlen Hrows]. split.
  - intros Ht HT. destruct (lookup_lt_is_Some_2 r t) as [row Hrow];
      [unfold shape0 in *; lia|].
    rewrite (set_rows_until_forced _ _ _ _ _ Hw Ht Hrow).
    by rewrite (Forall_lookup_1 _ _ _ _ Hrows Hrow).
  - intros Ht. by apply set_rows_until_kept.
Qed.
End MinPeriodsOfMovingAverages.

Lemma ma_nb_min_periods_forces_first_w_rows_witness :
  ((Z.of_nat 1 < 2)%Z → 1 < shape0 [[1]; [2]; [3]]%float →
   [[nan]; [nan]; [2.5]]%float !! 1
   = Some (replicate (shape1 [[1]; [2]; [3]]%float) nan))
  ∧ ((2 ≤ Z.of_nat 1)%Z →
     [[nan]; [nan]; [2.5]]%float !! 1 = [[1]; [1.5]; [2.5]]%float !! 1).
Proof.
  apply (ma_nb_min_periods_forces_first_w_rows (H := SpecTimeseries.reference)
           [[1]; [2]; [3]]%float 2 false false
           [[nan]; [nan]; [2.5]]%float [[nan]; [nan]; [2.5]]%float
           [[1]; [1.5]; [2.5]]%float 1).
  - lia.
  - vm_compute. reflexivity.
  - vm_compute. reflexivity.
Defined.

(** The original C5 has the row of index w - 1 keep what the rolling routine
    produced.  Prices 1, 2, 3 and the window 2: the rolling mean of row 1 is
    1.5, and the moving average holds NaN there. *)
Lemma ma_nb_min_periods_row_before_w_not_kept :
  ¬ (∀ (ts : matrix f8) (w : Z) (fast slow r : matrix f8) (t : nat),
       (0 < w)%Z →
       ma_nb (H := SpecTimeseries.reference) ts [w] [w] false false true
         = Some (fast, slow) →
       rolling_mean_nb (Timeseries := SpecTimeseries.reference) ts w = Some r →
       (w - 1 ≤ Z.of_nat t)%Z →
       fast !! t = r !! t).
Proof.
  intros Hall.
  specialize (Hall [[1]; [2]; [3]]%float 2%Z
                   [[nan]; [nan]; [2.5]]%float [[nan]; [nan]; [2.5]]%float
                   [[1]; [1.5]; [2.5]]%float 1).
  assert (Some [nan] = Some [1.5%float]) as Heq.
  { apply Hall; [lia|vm_compute; reflexivity..|lia]. }
  apply (f_equal (λ o : option (list f8),
                    match o with Some [x] => is_nan x | _ => false end)) in Heq.
  vm_compute in Heq. discriminate.
Qed.

(** ** The windows the rolling routines run for *)

Section Computed.
Context `{Timeseries}.

(** [ma_nb] runs its rolling routine once for each distinct window. *)
Lemma ma_nb_computed_distinct ts fast_windows slow_windows ewm adjust mp log :
  ma_nb_computed ts fast_windows slow_windows ewm adjust mp = Some log →
  NoDup log ∧ ∀ w, w ∈ log ↔ w ∈ fast_windows ∨ w ∈ slow_windows.
Proof.
  unfold ma_nb_computed, ma_cache.
  destruct (fill_cache _ _) as [[d l]|] eqn:Hc; [|done]. intros [= <-].
  apply fill_cache_Some in Hc as (-> & _). simpl. split.
  - apply unique_NoDup.
  - intros w. by rewrite elem_of_unique, elem_of_app.
Qed.

(** So does [rsi_nb]. *)
Lemma rsi_nb_computed_distinct ts windows ewm adjust mp log :
  rsi_nb_computed ts windows ewm adjust mp = Some log →
  NoDup log ∧ ∀ w, w ∈ log ↔ w ∈ windows.
Proof.
  unfold rsi_nb_computed, rsi_cache. destruct (rsi_moves ts) as [up down].
  destruct (fill_cache _ _) as [[d l]|] eqn:Hc; [|done]. intros [= <-].
  apply fill_cache_Some in Hc as (-> & _). simpl. split.
  - apply unique_NoDup.
  - intros w. by rewrite elem_of_unique.
Qed.

(** [bb_nb] runs them for every position of the sweep. *)
Lemma bb_nb_computed_all ts ns mp log :
  bb_nb_computed ts ns mp = Some log → log = ns.
Proof.
  unfold bb_nb_computed, bb_cache.
  destruct (fill_cache _ _) as [[d l]|] eqn:Hc; [|done]. intros [= <-].
  by apply fill_cache_Some in Hc as (-> & _).
Qed.
End Computed.

(** C9 at the sweep of the window 2 given twice: the moving averages and the
    RSI run their rolling routine for the window 2 once, the Bollinger bands
    run theirs twice. *)
Theorem bb_nb_computes_repeated_window_again :
  let ts := [[1]; [2]; [3]; [4]]%float in
  ma_nb_computed (H := SpecTimeseries.reference) ts [2; 2]%Z [2; 2]%Z
    false false true = Some [2%Z]
  ∧ rsi_nb_computed (H := SpecTimeseries.reference) ts [2; 2]%Z
      false false true = Some [2%Z]
  ∧ bb_nb_computed (H := SpecTimeseries.reference) ts [2; 2]%Z true
    = Some [2%Z; 2%Z].
Proof. repeat split; vm_compute; reflexivity. Qed.

(** ** Strict comparisons *)

Section Compare.
Implicit Types (a b : spec_float) (x y : f8).

Lemma compare_cont_Eq_antisym (p q : positive) :
  Pos.compare_cont Eq q p = CompOpp (Pos.compare_cont Eq p q).
Proof. symmetry. apply (Pos.compare_cont_antisym p q Eq). Qed.

Lemma SFcompare_antisym a b :
  SFcompare b a = option_map CompOpp (SFcompare a b).
Proof.
  destruct a as [sa|sa| |sa ma ea], b as [sb|sb| |sb mb eb]; simpl;
    try done; try (by destruct sa); try (by destruct sb);
    try (by destruct sa, sb).
  destruct sa, sb; simpl; try done.
  - rewrite (Z.compare_antisym ea eb).
    destruct (ea ?= eb)%Z; simpl; try done.
    by rewrite (compare_cont_Eq_antisym ma mb).
  - rewrite (Z.compare_antisym ea eb).
    destruct (ea ?= eb)%Z; simpl; try done.
    by rewrite (compare_cont_Eq_antisym ma mb).
Qed.

Lemma ltb_asym x y : PrimFloat.ltb x y = true → PrimFloat.ltb y x = false.
Proof.
  rewrite !FloatAxioms.ltb_spec. unfold SFltb.
  rewrite (SFcompare_antisym (Prim2SF x) (Prim2SF y)).
  by destruct (SFcompare (Prim2SF x) (Prim2SF y)) as [[]|].
Qed.

Lemma eqb_not_ltb x y :
  PrimFloat.eqb x y = true →
  PrimFloat.ltb x y = false ∧ PrimFloat.ltb y x = false.
Proof.
  rewrite FloatAxioms.eqb_spec, !FloatAxioms.ltb_spec. unfold SFeqb, SFltb.
  rewrite (SFcompare_antisym (Prim2SF x) (Prim2SF y)).
  by destruct (SFcompare (Prim2SF x) (Prim2SF y)) as [[]|].
Qed.

Lemma ltb_irrefl x : PrimFloat.ltb x x = false.
Proof.
  destruct (PrimFloat.ltb x x) eqn:Hlt; [|done].
  by rewrite (ltb_asym _ _ Hlt) in Hlt.
Qed.
End Compare.

Section CellsOfElementwise.
Context {A B C : Type}.

Lemma elementwise_at2 (f : A → B → C) a b z t c x y :
  elementwise f a b = Some z →
  at2 a t c = Some x → at2 b t c = Some y →
  at2 z t c = Some (f x y).
Proof.
  unfold at2. intros Hz Ha Hb.
  destruct (a !! t) as [ra|] eqn:Hra; [|done].
  destruct (b !! t) as [rb|] eqn:Hrb; [|done]. simpl in *.
  destruct (elementwise_lookup _ _ _ _ _ _ _ Hz Hra Hrb) as [-> _]. simpl.
  by rewrite lookup_zip_with, Ha, Hb.
Qed.

Lemma elementwise_at2_inv (f : A → B → C) a b z t c v :
  elementwise f a b = Some z →
  at2 z t c = Some v →
  ∃ x y, at2 a t c = Some x ∧ at2 b t c = Some y ∧ v = f x y.
Proof.
  unfold at2. intros [Hs ->]%elementwise_Some Hv.
  rewrite lookup_zip_with in Hv.
  destruct (a !! t) as [ra|]; [|done].
  destruct (b !! t) as [rb|]; [|done]. simpl in *.
  rewrite lookup_zip_with in Hv.
  destruct (ra !! c) as [x|]; [|done].
  destruct (rb !! c) as [y|]; [|done]. simpl in *.
  injection Hv as <-. eauto.
Qed.
End CellsOfElementwise.

(** C6: at no cell are the entries ([fast > slow]) and the exits
    ([fast < slow]) of a MovingAverage both true, and at a cell where the
    two moving averages are equal both are false. *)
Theorem MovingAverage_entries_exits_exclusive
    (self : MovingAverage) (entries exits : matrix bool) (t c : nat) :
  MovingAverage_generate_entries self = Some entries →
  MovingAverage_generate_exits self = Some exits →
  ¬ (at2 entries t c = Some true ∧ at2 exits t c = Some true)
  ∧ ∀ x y, at2 (fast_mas self) t c = Some x →
           at2 (slow_mas self) t c = Some y →
           x = y ∨ PrimFloat.eqb x y = true →
           at2 entries t c = Some false ∧ at2 exits t c = Some false.
Proof.
  unfold MovingAverage_generate_entries, MovingAverage_generate_exits.
  intros Hen Hex. split.
  - intros [Het Hxt].
    destruct (elementwise_at2_inv _ _ _ _ _ _ _ Hen Het) as (x & y & Hx & Hy & Hgt).
    destruct (elementwise_at2_inv _ _ _ _ _ _ _ Hex Hxt) as (x' & y' & Hx' & Hy' & Hlt).
    rewrite Hx in Hx'. rewrite Hy in Hy'. injection Hx' as <-. injection Hy' as <-.
    unfold gt, lt in *. symmetry in Hgt. apply ltb_asym in Hgt. congruence.
  - intros x y Hx Hy Heq.
    rewrite (elementwise_at2 _ _ _ _ _ _ _ _ Hen Hx Hy),
            (elementwise_at2 _ _ _ _ _ _ _ _ Hex Hx Hy).
    unfold gt, lt. destruct Heq as [->|Heq].
    + by rewrite ltb_irrefl.
    + by destruct (eqb_not_ltb _ _ Heq) as [-> ->].
Qed.

Lemma MovingAverage_entries_exits_exclusive_witness :
  ¬ (at2 [[false; false; true]] 0 1 = Some true
     ∧ at2 [[true; false; false]] 0 1 = Some true)
  ∧ ∀ x y, at2 [[1; 2; 3]]%float 0 1 = Some x →
           at2 [[2; 2; 2]]%float 0 1 = Some y →
           x = y ∨ PrimFloat.eqb x y = true →
           at2 [[false; false; true]] 0 1 = Some false
           ∧ at2 [[true; false; false]] 0 1 = Some false.
Proof.
  apply (MovingAverage_entries_exits_exclusive
           {| fast_mas := [[1; 2; 3]]%float; slow_mas := [[2; 2; 2]]%float |}
           [[false; false; true]] [[true; false; false]] 0 1).
  - vm_compute. reflexivity.
  - vm_compute. reflexivity.
Defined.

(** ** Rounding in binary64 *)

(** [SpecFloat] defines the operations of binary64; what follows relates
    them to the real numbers they round, as far as the bounds on the cells
    of the indicators need it: a representable number on one side of the
    exact result is on the same side of the rounded one. *)
Module Binary64Facts.
Import Binary64.
Local Open Scope Z_scope.

(** *** Powers of two *)
Section Bpow.
Implicit Types a b e k : Z.

Lemma bpow_gt_0 e : (0 < bpow e)%R.
Proof. apply powerRZ_lt. lra. Qed.

Lemma bpow_plus a b : bpow (a + b) = (bpow a * bpow b)%R.
Proof. apply powerRZ_add. lra. Qed.

Lemma bpow_0 : bpow 0 = 1%R.
Proof. reflexivity. Qed.

Lemma bpow_1 : bpow 1 = 2%R.
Proof. unfold bpow. simpl. lra. Qed.

Lemma IZR_pow2 k : 0 ≤ k → IZR (2 ^ k) = bpow k.
Proof.
  intros Hk. rewrite <- (Z2Nat.id k Hk) at 1 2. unfold bpow.
  rewrite <- pow_IZR, <- pow_powerRZ. done.
Qed.

Lemma bpow_ge_1 k : 0 ≤ k → (1 <= bpow k)%R.
Proof.
  intros Hk. rewrite <- IZR_pow2 by done. apply IZR_le.
  pose proof (Z.pow_pos_nonneg 2 k). lia.
Qed.

Lemma bpow_ge_2 k : 0 < k → (2 <= bpow k)%R.
Proof.
  intros Hk. replace k with (1 + (k - 1)) by lia.
  rewrite bpow_plus, bpow_1. pose proof (bpow_ge_1 (k - 1) ltac:(lia)). lra.
Qed.

Lemma bpow_le a b : a ≤ b → (bpow a <= bpow b)%R.
Proof.
  intros Hab. replace b with (a + (b - a)) by lia. rewrite bpow_plus.
  pose proof (bpow_gt_0 a). pose proof (bpow_ge_1 (b - a) ltac:(lia)). nra.
Qed.

Lemma bpow_lt a b : a < b → (bpow a < bpow b)%R.
Proof.
  intros Hab. replace b with (a + (b - a)) by lia. rewrite bpow_plus.
  pose proof (bpow_gt_0 a). pose proof (bpow_ge_2 (b - a) ltac:(lia)). nra.
Qed.

Lemma bpow_lt_inv a b : (bpow a < bpow b)%R → a < b.
Proof.
  intros Hlt. destruct (Z_lt_le_dec a b) as [|Hle]; [done|].
  apply bpow_le in Hle. lra.
Qed.

Lemma bpow_le_inv a b : (bpow a <= bpow b)%R → a ≤ b.
Proof.
  intros Hle. destruct (Z_lt_le_dec b a) as [Hlt|]; [|done].
  apply bpow_lt in Hlt. lra.
Qed.

Lemma F2R_shift m e k : 0 ≤ k → F2R (m * 2 ^ k) e = F2R m (e + k).
Proof.
  intros Hk. unfold F2R. rewrite mult_IZR, IZR_pow2, bpow_plus by done. lra.
Qed.

Lemma F2R_le m1 m2 e : m1 ≤ m2 → (F2R m1 e <= F2R m2 e)%R.
Proof.
  intros H%IZR_le. unfold F2R. pose proof (bpow_gt_0 e). nra.
Qed.

Lemma F2R_lt m1 m2 e : m1 < m2 → (F2R m1 e < F2R m2 e)%R.
Proof.
  intros H%IZR_lt. unfold F2R. pose proof (bpow_gt_0 e). nra.
Qed.

Lemma F2R_le_inv m1 m2 e : (F2R m1 e <= F2R m2 e)%R → m1 ≤ m2.
Proof.
  unfold F2R. intros H. apply le_IZR. pose proof (bpow_gt_0 e). nra.
Qed.

Lemma F2R_lt_inv m1 m2 e : (F2R m1 e < F2R m2 e)%R → m1 < m2.
Proof.
  unfold F2R. intros H. apply lt_IZR. pose proof (bpow_gt_0 e). nra.
Qed.
End Bpow.

(** *** The digits of a mantissa *)
Section Digits.

Lemma digits2_pos_bounds (m : positive) :
  2 ^ (Zpos (digits2_pos m) - 1) ≤ Zpos m < 2 ^ Zpos (digits2_pos m).
Proof.
  induction m as [m IH|m IH|]; simpl digits2_pos.
  - rewrite Pos2Z.inj_succ.
    replace (Z.succ (Z.pos (digits2_pos m)) - 1) with (1 + (Z.pos (digits2_pos m) - 1)) by lia.
    unfold Z.succ. rewrite (Z.add_comm _ 1), !Z.pow_add_r by lia.
    change (2 ^ 1) with 2. lia.
  - rewrite Pos2Z.inj_succ.
    replace (Z.succ (Z.pos (digits2_pos m)) - 1) with (1 + (Z.pos (digits2_pos m) - 1)) by lia.
    unfold Z.succ. rewrite (Z.add_comm _ 1), !Z.pow_add_r by lia.
    change (2 ^ 1) with 2. lia.
  - simpl. lia.
Qed.

Lemma Zdigits2_bounds (m : Z) :
  0 < m → 2 ^ (Zdigits2 m - 1) ≤ m < 2 ^ Zdigits2 m.
Proof. destruct m; try lia. intros _. apply digits2_pos_bounds. Qed.

Lemma Zdigits2_pos (m : Z) : 0 < m → 0 < Zdigits2 m.
Proof. destruct m; simpl; lia. Qed.

Lemma Zdigits2_nonneg (m : Z) : 0 ≤ Zdigits2 m.
Proof. destruct m; simpl; lia. Qed.

Lemma Zdigits2_unique (m k : Z) :
  2 ^ (k - 1) ≤ m < 2 ^ k → 0 < m → Zdigits2 m = k.
Proof.
  intros [Hlo Hhi] Hm. pose proof (Zdigits2_bounds m Hm) as [Hlo' Hhi'].
  pose proof (Zdigits2_pos m Hm).
  assert (0 < k).
  { destruct (Z_lt_le_dec 0 k); [done|]. exfalso.
    destruct (Z.eq_dec k 0) as [->|]; [simpl in Hhi; lia|].
    rewrite Z.pow_neg_r in Hhi by lia. lia. }
  destruct (Z.lt_trichotomy (Zdigits2 m) k) as [Hlt|[Heq|Hgt]]; [|done|].
  - assert (2 ^ Zdigits2 m ≤ 2 ^ (k - 1)) by (apply Z.pow_le_mono_r; lia). lia.
  - assert (2 ^ k ≤ 2 ^ (Zdigits2 m - 1)) by (apply Z.pow_le_mono_r; lia). lia.
Qed.

Lemma Zdigits2_le (m1 m2 : Z) : 0 < m1 → m1 ≤ m2 → Zdigits2 m1 ≤ Zdigits2 m2.
Proof.
  intros H1 H12. pose proof (Zdigits2_bounds m1 H1) as [Hlo1 Hhi1].
  pose proof (Zdigits2_bounds m2 ltac:(lia)) as [Hlo2 Hhi2].
  destruct (Z_lt_le_dec (Zdigits2 m2) (Zdigits2 m1)) as [Hlt|]; [|done].
  assert (2 ^ Zdigits2 m2 ≤ 2 ^ (Zdigits2 m1 - 1)) by (apply Z.pow_le_mono_r; lia).
  lia.
Qed.

Lemma Zdigits2_mul_pow2 (m k : Z) :
  0 < m → 0 ≤ k → Zdigits2 (m * 2 ^ k) = Zdigits2 m + k.
Proof.
  intros Hm Hk. pose proof (Zdigits2_bounds m Hm) as [Hlo Hhi].
  pose proof (Zdigits2_pos m Hm).
  pose proof (Z.pow_pos_nonneg 2 k ltac:(lia) Hk).
  apply Zdigits2_unique; [|nia].
  replace (Zdigits2 m + k - 1) with (Zdigits2 m - 1 + k) by lia.
  rewrite !Z.pow_add_r by lia. nia.
Qed.

Lemma Zdigits2_div_pow2 (m k : Z) :
  0 < m → 0 ≤ k → k < Zdigits2 m → Zdigits2 (m / 2 ^ k) = Zdigits2 m - k.
Proof.
  intros Hm Hk Hkd. pose proof (Zdigits2_bounds m Hm) as [Hlo Hhi].
  pose proof (Z.pow_pos_nonneg 2 k ltac:(lia) Hk) as Hp.
  assert (2 ^ (Zdigits2 m - k - 1) ≤ m / 2 ^ k).
  { apply Z.div_le_lower_bound; [done|]. rewrite <- Z.pow_add_r by lia.
    replace (k + (Zdigits2 m - k - 1)) with (Zdigits2 m - 1) by lia. done. }
  assert (m / 2 ^ k < 2 ^ (Zdigits2 m - k)).
  { apply Z.div_lt_upper_bound; [done|]. rewrite <- Z.pow_add_r by lia.
    replace (k + (Zdigits2 m - k)) with (Zdigits2 m) by lia. done. }
  assert (0 < 2 ^ (Zdigits2 m - k - 1)) by (apply Z.pow_pos_nonneg; lia).
  apply Zdigits2_unique; lia.
Qed.

Lemma Zdigits2_div_pow2_zero (m k : Z) :
  0 ≤ m → 0 ≤ k → Zdigits2 m ≤ k → m / 2 ^ k = 0.
Proof.
  intros Hm Hk Hkd. destruct (Z.eq_dec m 0) as [->|]; [by rewrite Z.div_0_l by lia|].
  pose proof (Zdigits2_bounds m ltac:(lia)) as [Hlo Hhi].
  apply Z.div_small. split; [done|].
  assert (2 ^ Zdigits2 m ≤ 2 ^ k) by (apply Z.pow_le_mono_r; lia). lia.
Qed.

(* magnitude in R *)
Lemma F2R_mag_bounds (m e : Z) :
  0 < m → (bpow (Zdigits2 m + e - 1) <= F2R m e < bpow (Zdigits2 m + e))%R.
Proof.
  intros Hm. pose proof (Zdigits2_bounds m Hm) as [Hlo Hhi].
  pose proof (Zdigits2_pos m Hm).
  apply IZR_le in Hlo. apply IZR_lt in Hhi.
  rewrite IZR_pow2 in Hlo, Hhi by lia.
  replace (Zdigits2 m + e - 1) with (Zdigits2 m - 1 + e) by lia.
  rewrite !bpow_plus. unfold F2R. pose proof (bpow_gt_0 e). nra.
Qed.
End Digits.

Lemma fexp_eq e : fexp e = Z.max (e - 53) (-1074).
Proof. reflexivity. Qed.

Section Shr.
Implicit Types (mrs : shr_record) (m e n : Z) (l : location).

Lemma shr_1_m mrs : 0 ≤ shr_m mrs → shr_m (shr_1 mrs) = shr_m mrs / 2.
Proof.
  destruct mrs as [m r s]. simpl. intros Hm. rewrite <- Z.div2_div.
  destruct m as [|[p|p|]|p]; simpl; done.
Qed.

Lemma shr_1_exact mrs :
  0 ≤ shr_m mrs → exact_record mrs → shr_m mrs / 2 * 2 = shr_m mrs →
  exact_record (shr_1 mrs).
Proof.
  destruct mrs as [m r s]. unfold exact_record. simpl. intros Hm [-> ->] Hev.
  destruct m as [|[p|p|]|p]; simpl; try done.
  all: exfalso; rewrite <- Z.div2_div in Hev; simpl in Hev; lia.
Qed.

Lemma iter_shr_1_m (p : positive) mrs :
  0 ≤ shr_m mrs →
  shr_m (SpecFloat.iter_pos shr_1 p mrs) = shr_m mrs / 2 ^ Zpos p.
Proof.
  revert mrs. induction p as [p IH|p IH|]; intros mrs Hm; simpl SpecFloat.iter_pos.
  - assert (0 ≤ shr_m (shr_1 mrs)) as H1
      by (rewrite shr_1_m by done; apply Z.div_pos; lia).
    assert (0 ≤ shr_m (SpecFloat.iter_pos shr_1 p (shr_1 mrs))) as H2
      by (rewrite IH by done; apply Z.div_pos; [done|apply Z.pow_pos_nonneg; lia]).
    rewrite IH, IH, shr_1_m by done.
    rewrite !Z.div_div by (try apply Z.pow_pos_nonneg; lia).
    f_equal. rewrite (Pos2Z.inj_xI p).
    replace (2 * Z.pos p + 1) with (1 + Z.pos p + Z.pos p) by lia.
    rewrite !Z.pow_add_r by lia. change (2 ^ 1) with 2. lia.
  - assert (0 ≤ shr_m (SpecFloat.iter_pos shr_1 p mrs)) as H2
      by (rewrite IH by done; apply Z.div_pos; [done|apply Z.pow_pos_nonneg; lia]).
    rewrite IH, IH by done.
    rewrite !Z.div_div by (try apply Z.pow_pos_nonneg; lia).
    f_equal. rewrite (Pos2Z.inj_xO p).
    replace (2 * Z.pos p) with (Z.pos p + Z.pos p) by lia.
    rewrite !Z.pow_add_r by lia. lia.
  - rewrite shr_1_m by done. done.
Qed.

Lemma div_mul_exact_split (m a b : Z) :
  0 < a → 0 < b → m / (a * b) * (a * b) = m →
  m / a * a = m ∧ m / a / b * b = m / a.
Proof.
  intros Ha Hb Hex.
  assert (m = a * (b * (m / (a * b)))) as Hm by lia.
  assert (m / a = b * (m / (a * b))) as Hq.
  { rewrite Hm at 1. rewrite Z.mul_comm, Z.div_mul by lia. done. }
  split; [lia|]. rewrite Hq. rewrite (Z.mul_comm b), Z.div_mul by lia. lia.
Qed.

Lemma iter_shr_1_exact (p : positive) mrs :
  0 ≤ shr_m mrs → exact_record mrs →
  shr_m mrs / 2 ^ Zpos p * 2 ^ Zpos p = shr_m mrs →
  exact_record (SpecFloat.iter_pos shr_1 p mrs).
Proof.
  revert mrs. induction p as [p IH|p IH|]; intros mrs Hm Hex Hdiv; simpl SpecFloat.iter_pos.
  - assert (0 < 2 ^ Z.pos p) as Hp by (apply Z.pow_pos_nonneg; lia).
    rewrite (Pos2Z.inj_xI p) in Hdiv.
    replace (2 * Z.pos p + 1) with (1 + (Z.pos p + Z.pos p)) in Hdiv by lia.
    rewrite Z.pow_add_r in Hdiv by lia. change (2 ^ 1) with 2 in Hdiv.
    apply div_mul_exact_split in Hdiv as [Hd1 Hd2];
      [|lia|apply Z.pow_pos_nonneg; lia].
    rewrite Z.pow_add_r in Hd2 by lia.
    apply div_mul_exact_split in Hd2 as [Hd2 Hd3]; [|done..].
    assert (0 ≤ shr_m (shr_1 mrs)) as H1
      by (rewrite shr_1_m by done; apply Z.div_pos; lia).
    assert (0 ≤ shr_m (SpecFloat.iter_pos shr_1 p (shr_1 mrs))) as H2
      by (rewrite iter_shr_1_m by done; apply Z.div_pos; [done|lia]).
    apply IH; [done| |].
    + apply IH; [done|by apply shr_1_exact|]. by rewrite shr_1_m.
    + rewrite iter_shr_1_m, shr_1_m by done. done.
  - assert (0 < 2 ^ Z.pos p) as Hp by (apply Z.pow_pos_nonneg; lia).
    rewrite (Pos2Z.inj_xO p) in Hdiv.
    replace (2 * Z.pos p) with (Z.pos p + Z.pos p) in Hdiv by lia.
    rewrite Z.pow_add_r in Hdiv by lia.
    apply div_mul_exact_split in Hdiv as [Hd2 Hd3]; [|done..].
    assert (0 ≤ shr_m (SpecFloat.iter_pos shr_1 p mrs)) as H2
      by (rewrite iter_shr_1_m by done; apply Z.div_pos; [done|lia]).
    apply IH; [done| |].
    + by apply IH.
    + by rewrite iter_shr_1_m.
  - apply shr_1_exact; done.
Qed.

Lemma loc_of_shr_record_of_loc m l :
  loc_of_shr_record (shr_record_of_loc m l) = l.
Proof. by destruct l as [|[]]. Qed.

Lemma shr_m_record_of_loc m l : shr_m (shr_record_of_loc m l) = m.
Proof. by destruct l as [|[]]. Qed.

Lemma exact_record_loc mrs :
  exact_record mrs ↔ loc_of_shr_record mrs = loc_Exact.
Proof.
  destruct mrs as [m [] []]; unfold exact_record; simpl; split; try done;
    intros []; done.
Qed.

(** One stage of [binary_round_aux]: the shift to the exponent of the
    format. *)
Lemma shr_fexp_spec m e l mrs' e' :
  0 ≤ m → shr_fexp prec emax m e l = (mrs', e') →
  let n := Z.max 0 (fexp (Zdigits2 m + e) - e) in
  shr_m mrs' = m / 2 ^ n
  ∧ e' = e + n
  ∧ (l = loc_Exact → m / 2 ^ n * 2 ^ n = m →
     loc_of_shr_record mrs' = loc_Exact)
  ∧ (n = 0 → loc_of_shr_record mrs' = l).
Proof.
  intros Hm. unfold shr_fexp, shr.
  destruct (fexp (Zdigits2 m + e) - e) as [|p|p] eqn:Hn; intros [= <- <-]; simpl.
  - rewrite shr_m_record_of_loc, Z.div_1_r, loc_of_shr_record_of_loc.
    split_and!; [done|lia|by intros ->|done].
  - rewrite iter_shr_1_m by (by rewrite shr_m_record_of_loc).
    rewrite shr_m_record_of_loc. split_and!; [done|done| |lia].
    intros -> Hex. apply exact_record_loc, iter_shr_1_exact.
    + by rewrite shr_m_record_of_loc.
    + done.
    + by rewrite shr_m_record_of_loc.
  - rewrite shr_m_record_of_loc, Z.div_1_r, loc_of_shr_record_of_loc.
    split_and!; [done|lia|by intros ->|done].
Qed.

Lemma round_nearest_even_cases m l :
  round_nearest_even m l = m
  ∨ (round_nearest_even m l = m + 1 ∧ l ≠ loc_Exact).
Proof.
  destruct l as [|[]]; simpl; auto.
  destruct (Z.even m); auto.
Qed.
End Shr.

(** *** Canonical representations *)
Section Canonical.
Implicit Types (m e : Z).

Lemma canonical_coarse m e : canonical m e → coarse m e.
Proof. unfold canonical, coarse. lia. Qed.

Lemma valid_finite_inv s (m : positive) e :
  valid_binary (S754_finite s m e) = true →
  canonical (Zpos m) e ∧ e ≤ 971.
Proof.
  unfold SpecFloat.valid_binary, bounded, canonical_mantissa, canonical.
  intros [H1 H2]%andb_prop. apply Z.eqb_eq in H1. apply Z.leb_le in H2.
  split; [exact H1|exact H2].
Qed.

Lemma fexp_mono a b : a ≤ b → fexp a ≤ fexp b.
Proof. rewrite !fexp_eq. lia. Qed.

(** Comparing a canonical number with one that is not finer than the
    format: the exponents decide, then the mantissas. *)
Lemma canonical_le_coarse mb eb m e :
  0 < mb → 0 < m → canonical mb eb → coarse m e →
  (F2R mb eb <= F2R m e)%R →
  eb < e ∨ (eb = e ∧ mb ≤ m).
Proof.
  unfold canonical, coarse. rewrite !fexp_eq. intros Hmb Hm Hcb Hcr Hle.
  destruct (Z.lt_trichotomy eb e) as [Hlt|[Heq|Hgt]]; [by left| |].
  - right. subst e. split; [done|]. by eapply F2R_le_inv.
  - exfalso.
    pose proof (F2R_mag_bounds mb eb Hmb) as [Hlo _].
    pose proof (F2R_mag_bounds m e Hm) as [_ Hhi].
    assert (Zdigits2 mb = 53) as Hdb by lia.
    assert (Zdigits2 m ≤ 53) as Hdm by lia.
    assert (bpow (Zdigits2 m + e) <= bpow (Zdigits2 mb + eb - 1))%R
      by (apply bpow_le; lia).
    lra.
Qed.

Lemma canonical_lt_exponent m1 e1 m2 e2 :
  0 < m1 → 0 < m2 → canonical m1 e1 → canonical m2 e2 → e1 < e2 →
  (F2R m1 e1 < F2R m2 e2)%R.
Proof.
  intros H1 H2 Hc1 Hc2 Hlt.
  destruct (Rlt_le_dec (F2R m1 e1) (F2R m2 e2)) as [|Hle]; [done|].
  destruct (canonical_le_coarse m2 e2 m1 e1) as [|[]];
    auto using canonical_coarse; lia.
Qed.
End Canonical.

(** *** Comparisons of positive finite numbers *)
Section ComparePositive.

Lemma SFleb_finite_pos (m1 m2 : positive) e1 e2 :
  SFleb (S754_finite false m1 e1) (S754_finite false m2 e2) = true
  ↔ e1 < e2 ∨ (e1 = e2 ∧ Zpos m1 ≤ Zpos m2).
Proof.
  unfold SFleb, SFcompare.
  destruct (Z.compare_spec e1 e2) as [Heq|Hlt|Hgt].
  - change (PosDef.Pos.compare_cont Eq m1 m2) with (Pos.compare m1 m2).
    destruct (Pos.compare_spec m1 m2) as [->|Hl|Hg]; split; try done;
      try lia; intros _; right; split; lia.
  - split; [auto|done].
  - split; [done|lia].
Qed.

Lemma SFleb_finite_neg (m1 m2 : positive) e1 e2 :
  SFleb (S754_finite true m1 e1) (S754_finite true m2 e2)
  = SFleb (S754_finite false m2 e2) (S754_finite false m1 e1).
Proof.
  unfold SFleb, SFcompare. rewrite (Z.compare_antisym e1 e2).
  destruct (e1 ?= e2); simpl; try done.
  change (PosDef.Pos.compare_cont Eq) with Pos.compare.
  rewrite (Pos.compare_antisym m1 m2). by destruct (m1 ?= m2)%positive.
Qed.
End ComparePositive.

(** *** The stages of rounding *)
Section Stage.
Implicit Types (m e n : Z).

Lemma shift_of_nonneg m e : 0 ≤ shift_of m e.
Proof. unfold shift_of. lia. Qed.

Lemma F2R_floor m e n :
  0 ≤ m → 0 ≤ n → (F2R (m / 2 ^ n) (e + n) <= F2R m e)%R.
Proof.
  intros Hm Hn. rewrite <- F2R_shift by done. apply F2R_le.
  pose proof (Z.pow_pos_nonneg 2 n ltac:(lia) Hn).
  pose proof (Z.mul_div_le m (2 ^ n) ltac:(lia)). lia.
Qed.

Lemma F2R_floor_lt m e n :
  0 ≤ m → 0 ≤ n → m / 2 ^ n * 2 ^ n ≠ m →
  (F2R (m / 2 ^ n) (e + n) < F2R m e)%R.
Proof.
  intros Hm Hn Hne. rewrite <- F2R_shift by done. apply F2R_lt.
  pose proof (Z.pow_pos_nonneg 2 n ltac:(lia) Hn).
  pose proof (Z.mul_div_le m (2 ^ n) ltac:(lia)). lia.
Qed.

Lemma stage_coarse m e :
  0 < m → 0 < m / 2 ^ shift_of m e →
  coarse (m / 2 ^ shift_of m e) (e + shift_of m e).
Proof.
  intros Hm Hq. unfold coarse.
  destruct (Z_le_gt_dec (fexp (Zdigits2 m + e) - e) 0) as [Hn|Hn].
  - assert (shift_of m e = 0) as -> by (unfold shift_of; lia).
    rewrite Z.div_1_r, Z.add_0_r. lia.
  - assert (shift_of m e = fexp (Zdigits2 m + e) - e) as Hs
      by (unfold shift_of; lia).
    destruct (Z_lt_le_dec (shift_of m e) (Zdigits2 m)) as [Hlt|Hge].
    + rewrite Zdigits2_div_pow2 by lia.
      replace (Zdigits2 m - shift_of m e + (e + shift_of m e))
        with (Zdigits2 m + e) by lia. lia.
    + rewrite Zdigits2_div_pow2_zero in Hq by lia. lia.
Qed.

Lemma stage_pre m e :
  0 ≤ m → e ≤ fexp (Zdigits2 m + e) →
  e + shift_of m e = fexp (Zdigits2 m + e)
  ∧ (0 < m / 2 ^ shift_of m e →
     canonical (m / 2 ^ shift_of m e) (e + shift_of m e))
  ∧ (m / 2 ^ shift_of m e = 0 → e + shift_of m e = -1074).
Proof.
  intros Hm Hpre.
  assert (shift_of m e = fexp (Zdigits2 m + e) - e) as Hs
    by (unfold shift_of; lia).
  split_and!; [lia| |].
  - intros Hq. unfold canonical.
    assert (0 < m) as Hmpos
      by (destruct (Z.eq_dec m 0) as [->|]; [by rewrite Zdiv_0_l in Hq|lia]).
    destruct (Z.eq_dec (shift_of m e) 0) as [H0|H0].
    + rewrite H0, Z.div_1_r, Z.add_0_r. lia.
    + destruct (Z_lt_le_dec (shift_of m e) (Zdigits2 m)) as [Hlt|Hge].
      * rewrite Zdigits2_div_pow2 by lia.
        replace (Zdigits2 m - shift_of m e + (e + shift_of m e))
          with (Zdigits2 m + e) by lia. lia.
      * rewrite Zdigits2_div_pow2_zero in Hq by lia. lia.
  - intros Hq. rewrite fexp_eq in *.
    destruct (Z.eq_dec m 0) as [->|Hne]; [simpl in *; lia|].
    destruct (Z_lt_le_dec (shift_of m e) (Zdigits2 m)) as [Hlt|Hge]; [|lia].
    pose proof (shift_of_nonneg m e).
    pose proof (Zdigits2_div_pow2 m (shift_of m e) ltac:(lia) ltac:(lia) Hlt)
      as Hd.
    rewrite Hq in Hd. simpl in Hd. lia.
Qed.

(** A representable number below the exact value is below its floor on
    the grid of the format. *)
Lemma floor_lower mb eb m e :
  0 < mb → 0 ≤ m → canonical mb eb →
  (F2R mb eb <= F2R m e)%R →
  (F2R mb eb <= F2R (m / 2 ^ shift_of m e) (e + shift_of m e))%R.
Proof.
  intros Hmb Hm Hcb Hle.
  assert (0 < F2R mb eb)%R as Hbpos.
  { unfold F2R. pose proof (bpow_gt_0 eb). apply IZR_lt in Hmb. nra. }
  assert (0 < m) as Hmpos.
  { destruct (Z.eq_dec m 0) as [->|]; [|lia]. unfold F2R in *. lra. }
  destruct (Z.eq_dec (shift_of m e) 0) as [H0|H0].
  { rewrite H0, Z.div_1_r, Z.add_0_r. done. }
  pose proof (shift_of_nonneg m e) as Hn.
  assert (e + shift_of m e = fexp (Zdigits2 m + e)) as He'
    by (unfold shift_of in *; lia).
  set (n := shift_of m e) in *. set (e' := e + n) in *.
  destruct (Z_le_gt_dec e' eb) as [Hge|Hlt].
  - (* b is on the grid *)
    replace eb with (e + (eb - e)) in Hle by lia.
    rewrite <- F2R_shift in Hle by lia. apply F2R_le_inv in Hle.
    replace (eb - e) with ((eb - e') + n) in Hle by lia.
    rewrite Z.pow_add_r in Hle by lia.
    assert (0 < 2 ^ n) by (apply Z.pow_pos_nonneg; lia).
    assert (mb * 2 ^ (eb - e') ≤ m / 2 ^ n) as Hq
      by (apply Z.div_le_lower_bound; lia).
    replace eb with (e' + (eb - e')) by lia.
    rewrite <- F2R_shift by lia. by apply F2R_le.
  - (* b is below the binade of the exact value *)
    unfold canonical in Hcb. rewrite fexp_eq in *.
    assert (n = Zdigits2 m - 53) as Hnd by lia.
    assert (Zdigits2 (m / 2 ^ n) = 53) as Hd
      by (rewrite Zdigits2_div_pow2; lia).
    assert (0 ≤ m / 2 ^ n)
      by (apply Z.div_pos; [lia|apply Z.pow_pos_nonneg; lia]).
    assert (m / 2 ^ n ≠ 0) by (intros Hz; rewrite Hz in Hd; simpl in Hd; lia).
    assert (0 < m / 2 ^ n) as Hq by lia.
    pose proof (F2R_mag_bounds (m / 2 ^ n) e' Hq) as [Hlo _].
    pose proof (F2R_mag_bounds mb eb Hmb) as [_ Hhi].
    assert (bpow (Zdigits2 mb + eb) <= bpow (Zdigits2 (m / 2 ^ n) + e' - 1))%R
      by (apply bpow_le; lia).
    lra.
Qed.
End Stage.

(** *** Rounding *)
Section Round.
Implicit Types (m e mx ex : Z) (lx : location) (sx : bool).

Lemma round_nearest_even_ge m l : m ≤ round_nearest_even m l.
Proof. destruct (round_nearest_even_cases m l) as [->|[-> _]]; lia. Qed.

(** [binary_round_aux] as its two stages. *)
Lemma binary_round_aux_stages sx mx ex lx :
  0 ≤ mx →
  ∃ l1,
    let n1 := shift_of mx ex in
    let m1 := mx / 2 ^ n1 in
    let e1 := ex + n1 in
    let mr := round_nearest_even m1 l1 in
    let n2 := shift_of mr e1 in
    let m2 := mr / 2 ^ n2 in
    let e2 := e1 + n2 in
    (lx = loc_Exact → m1 * 2 ^ n1 = mx → l1 = loc_Exact)
    ∧ (n1 = 0 → l1 = lx)
    ∧ 0 ≤ m1 ∧ 0 ≤ mr ∧ 0 ≤ m2
    ∧ binary_round_aux prec emax sx mx ex lx
      = match m2 with
        | 0 => S754_zero sx
        | Zpos m => if e2 <=? 971 then S754_finite sx m e2 else S754_infinity sx
        | Zneg _ => S754_nan
        end.
Proof.
  intros Hmx. unfold binary_round_aux.
  destruct (shr_fexp prec emax mx ex lx) as [mrs1 e1] eqn:H1.
  apply shr_fexp_spec in H1 as (Hm1 & He1 & Hex1 & Hloc1); [|done].
  fold (shift_of mx ex) in *.
  assert (0 ≤ mx / 2 ^ shift_of mx ex) as Hm1pos
    by (apply Z.div_pos; [done|apply Z.pow_pos_nonneg; [lia|apply shift_of_nonneg]]).
  pose proof (round_nearest_even_ge (shr_m mrs1) (loc_of_shr_record mrs1)) as Hr.
  destruct (shr_fexp prec emax _ e1 loc_Exact) as [mrs2 e2] eqn:H2.
  apply shr_fexp_spec in H2 as (Hm2 & He2 & _ & _); [|lia].
  fold (shift_of (round_nearest_even (shr_m mrs1) (loc_of_shr_record mrs1)) e1) in *.
  exists (loc_of_shr_record mrs1). subst e1 e2. rewrite Hm1 in *.
  split_and!; [done|done|done|lia| |].
  - apply Z.div_pos; [lia|apply Z.pow_pos_nonneg; [lia|apply shift_of_nonneg]].
  - by rewrite Hm2.
Qed.

Lemma binary_round_aux_sign sx mx ex lx :
  0 ≤ mx →
  binary_round_aux prec emax sx mx ex lx = S754_zero sx
  ∨ binary_round_aux prec emax sx mx ex lx = S754_infinity sx
  ∨ ∃ (p : positive) (e : Z),
      binary_round_aux prec emax sx mx ex lx = S754_finite sx p e.
Proof.
  intros Hmx.
  destruct (binary_round_aux_stages sx mx ex lx Hmx)
    as (l1 & _ & _ & _ & _ & Hm2 & ->).
  cbv zeta in *.
  destruct (_ / _) as [|m|m]; [auto| |lia].
  destruct (_ <=? 971); eauto.
Qed.

Lemma binary_round_aux_opp mx ex lx :
  binary_round_aux prec emax true mx ex lx
  = SFopp (binary_round_aux prec emax false mx ex lx).
Proof.
  unfold binary_round_aux.
  destruct (shr_fexp prec emax mx ex lx) as [mrs1 e1].
  destruct (shr_fexp prec emax _ e1 loc_Exact) as [mrs2 e2].
  destruct (shr_m mrs2); try done. by destruct (_ <=? _).
Qed.

(** A representable number below the exact value is below the rounded
    one. *)
Lemma binary_round_aux_lower (mb : positive) eb mx ex lx :
  0 ≤ mx → canonical (Zpos mb) eb →
  (F2R (Zpos mb) eb <= F2R mx ex)%R →
  SFleb (S754_finite false mb eb)
        (binary_round_aux prec emax false mx ex lx) = true.
Proof.
  intros Hmx Hcb Hle.
  destruct (binary_round_aux_stages false mx ex lx Hmx)
    as (l1 & _ & _ & Hm1 & Hmr & Hm2 & ->).
  cbv zeta in *.
  set (n1 := shift_of mx ex) in *. set (m1 := mx / 2 ^ n1) in *.
  set (e1 := ex + n1) in *. set (mr := round_nearest_even m1 l1) in *.
  set (n2 := shift_of mr e1) in *.
  assert (F2R (Zpos mb) eb <= F2R m1 e1)%R as Hle1
    by (by apply floor_lower).
  assert (F2R m1 e1 <= F2R mr e1)%R as Hle2
    by (apply F2R_le, round_nearest_even_ge).
  assert (F2R (Zpos mb) eb <= F2R (mr / 2 ^ n2) (e1 + n2))%R as Hle3
    by (apply floor_lower; [done|done|done|lra]).
  assert (0 < F2R (Zpos mb) eb)%R as Hbpos.
  { unfold F2R. pose proof (bpow_gt_0 eb).
    assert (0 < IZR (Zpos mb))%R by (by apply IZR_lt). nra. }
  destruct (mr / 2 ^ n2) as [|m|m] eqn:Hq; [|clear Hm2|lia].
  - exfalso. unfold F2R in Hle3 at 2. lra.
  - destruct (_ <=? 971); [|done].
    apply SFleb_finite_pos.
    apply canonical_le_coarse; [done|done|done| |done].
    subst n2. rewrite <- Hq. apply stage_coarse; [|rewrite Hq; lia].
    destruct (Z.eq_dec mr 0) as [Hz|]; [|lia].
    rewrite Hz, Zdiv_0_l in Hq. done.
Qed.

(** A representable number above the exact value is above the rounded
    one; the exact value is [mx * 2^ex] or, when the location is not
    exact, strictly above it. *)
Lemma binary_round_aux_upper (mb : positive) eb mx ex lx :
  0 ≤ mx → ex ≤ fexp (Zdigits2 mx + ex) →
  canonical (Zpos mb) eb → eb ≤ 971 →
  (F2R mx ex <= F2R (Zpos mb) eb)%R →
  (lx ≠ loc_Exact → (F2R mx ex < F2R (Zpos mb) eb)%R) →
  SFleb (binary_round_aux prec emax false mx ex lx)
        (S754_finite false mb eb) = true.
Proof.
  intros Hmx Hpre Hcb Heb Hle Hlt.
  destruct (binary_round_aux_stages false mx ex lx Hmx)
    as (l1 & Hex1 & Hl1 & Hm1 & Hmr & Hm2 & ->).
  cbv zeta in *.
  pose proof (stage_pre mx ex Hmx Hpre) as (He1 & Hc1 & Hz1).
  pose proof (shift_of_nonneg mx ex) as Hn1.
  pose proof (F2R_floor mx ex _ Hmx Hn1) as Hfl1.
  set (n1 := shift_of mx ex) in *. set (m1 := mx / 2 ^ n1) in *.
  set (e1 := ex + n1) in *. set (mr := round_nearest_even m1 l1) in *.
  pose proof (shift_of_nonneg mr e1) as Hn2.
  pose proof (F2R_floor mr e1 _ Hmr Hn2) as Hfl2.
  set (n2 := shift_of mr e1) in *.
  assert (-1074 ≤ eb) as Hebmin
    by (unfold canonical in Hcb; rewrite fexp_eq in Hcb; lia).
  (* the rounded mantissa is below b *)
  assert (F2R mr e1 <= F2R (Zpos mb) eb)%R as Hmrle.
  { subst mr. destruct (round_nearest_even_cases m1 l1) as [->|[-> Hl1ne]];
      [lra|].
    assert (F2R m1 e1 < F2R (Zpos mb) eb)%R as Hstrict.
    { assert (lx = loc_Exact ∨ lx ≠ loc_Exact) as [Hlx|Hlx]
        by (destruct lx; [by left|by right]);
        [|specialize (Hlt Hlx); lra].
      assert (m1 * 2 ^ n1 ≠ mx) as Hne by (intros Heq; by apply Hl1ne, Hex1).
      pose proof (F2R_floor_lt mx ex n1 Hmx Hn1 Hne). fold m1 e1 in H. lra. }
    assert (e1 ≤ eb) as Hgrid.
    { destruct (Z.eq_dec m1 0) as [Hz|Hnz]; [rewrite (Hz1 Hz); lia|].
      specialize (Hc1 ltac:(lia)).
      pose proof (F2R_mag_bounds m1 e1 ltac:(lia)) as [Hlo _].
      pose proof (F2R_mag_bounds (Zpos mb) eb ltac:(lia)) as [_ Hhi].
      assert (Zdigits2 m1 + e1 - 1 < Zdigits2 (Zpos mb) + eb)
        by (apply bpow_lt_inv; lra).
      unfold canonical in *. rewrite <- Hc1, <- Hcb. apply fexp_mono. lia. }
    replace eb with (e1 + (eb - e1)) in Hstrict |- * by lia.
    rewrite <- F2R_shift in Hstrict |- * by lia.
    apply F2R_lt_inv in Hstrict. apply F2R_le. lia. }
  destruct (mr / 2 ^ n2) as [|m|m] eqn:Hq; [done|clear Hm2|lia].
  assert (0 < mr) as Hmrpos.
  { destruct (Z.eq_dec mr 0) as [Hz|]; [|lia]. by rewrite Hz, Zdiv_0_l in Hq. }
  (* the result is canonical *)
  assert (canonical (Zpos m) (e1 + n2)) as Hcr.
  { rewrite <- Hq. apply stage_pre; [lia| |fold n2; rewrite Hq; lia].
    destruct (Z.eq_dec m1 0) as [Hz|Hnz].
    - rewrite (Hz1 Hz), fexp_eq. lia.
    - specialize (Hc1 ltac:(lia)). unfold canonical in Hc1.
      rewrite <- Hc1 at 1. apply fexp_mono.
      pose proof (Zdigits2_le m1 mr ltac:(lia) (round_nearest_even_ge m1 l1)).
      lia. }
  destruct (canonical_le_coarse (Zpos m) (e1 + n2) (Zpos mb) eb)
    as [Hlte|[Heqe Hlem]]; [done|done|done|by apply canonical_coarse| | |].
  - lra.
  - rewrite (proj2 (Z.leb_le _ _)) by lia. apply SFleb_finite_pos. by left.
  - rewrite (proj2 (Z.leb_le _ _)) by lia. apply SFleb_finite_pos. by right.
Qed.
End Round.

(** *** [binary_round] and [binary_normalize] *)
Section Normalize.
Implicit Types (e ez : Z) (mx mb : positive).

Lemma Zpos_iter_xO mx (d : positive) :
  Zpos (Pos.iter xO mx d) = Zpos mx * 2 ^ Zpos d.
Proof.
  change (Pos.iter xO mx d) with (shift_pos d mx).
  rewrite shift_pos_correct, Zpower_pos_nat, Zpower_nat_Z.
  rewrite positive_nat_Z. lia.
Qed.

(** Aligning a mantissa on a smaller exponent keeps the value. *)
Lemma shl_align_spec mx e ez :
  ez ≤ e →
  Zpos (fst (shl_align mx e ez)) = Zpos mx * 2 ^ (e - ez)
  ∧ snd (shl_align mx e ez) = ez.
Proof.
  intros Hle. unfold shl_align.
  destruct (ez - e) as [|d|d] eqn:Hd; simpl; try lia.
  - assert (e - ez = 0) as -> by lia. simpl. lia.
  - rewrite Zpos_iter_xO. replace (e - ez) with (Zpos d) by lia. done.
Qed.

Lemma shl_align_ge mx e ez :
  e ≤ ez → shl_align mx e ez = (mx, e).
Proof.
  intros Hle. unfold shl_align. destruct (ez - e) as [|d|d] eqn:Hd; try done.
  lia.
Qed.

Lemma binary_round_aligned sx mx e :
  ∃ (mz : positive) ez,
    binary_round prec emax sx mx e
    = binary_round_aux prec emax sx (Zpos mz) ez loc_Exact
    ∧ F2R (Zpos mz) ez = F2R (Zpos mx) e
    ∧ ez ≤ fexp (Zdigits2 (Zpos mz) + ez).
Proof.
  unfold binary_round.
  change (Z.pos (digits2_pos mx)) with (Zdigits2 (Zpos mx)).
  set (e' := fexp (Zdigits2 (Zpos mx) + e)).
  destruct (Z_le_gt_dec e e') as [Hle|Hgt].
  - rewrite shl_align_ge by done. exists mx, e. split_and!; [done|done|].
    fold e'. done.
  - destruct (shl_align_spec mx e e' ltac:(lia)) as [Hm He].
    destruct (shl_align mx e e') as [mz ez]. cbn [fst snd] in *. subst ez.
    exists mz, e'. split_and!; [done| |].
    + rewrite Hm, F2R_shift by lia. f_equal. lia.
    + rewrite Hm, Zdigits2_mul_pow2 by lia.
      replace (Zdigits2 (Z.pos mx) + (e - e') + e')
        with (Zdigits2 (Z.pos mx) + e) by lia. fold e'. lia.
Qed.

Lemma binary_round_sign sx mx e :
  binary_round prec emax sx mx e = S754_zero sx
  ∨ binary_round prec emax sx mx e = S754_infinity sx
  ∨ ∃ (p : positive) (e' : Z),
      binary_round prec emax sx mx e = S754_finite sx p e'.
Proof.
  destruct (binary_round_aligned sx mx e) as (mz & ez & -> & _ & _).
  apply binary_round_aux_sign. lia.
Qed.

Lemma binary_round_opp mx e :
  binary_round prec emax true mx e = SFopp (binary_round prec emax false mx e).
Proof.
  unfold binary_round. destruct (shl_align _ _ _) as [mz ez].
  apply binary_round_aux_opp.
Qed.

Lemma binary_round_lower mb eb mx e :
  canonical (Zpos mb) eb →
  (F2R (Zpos mb) eb <= F2R (Zpos mx) e)%R →
  SFleb (S754_finite false mb eb) (binary_round prec emax false mx e) = true.
Proof.
  intros Hcb Hle.
  destruct (binary_round_aligned false mx e) as (mz & ez & -> & Hv & _).
  apply binary_round_aux_lower; [lia|done|by rewrite Hv].
Qed.

Lemma binary_round_upper mb eb mx e :
  canonical (Zpos mb) eb → eb ≤ 971 →
  (F2R (Zpos mx) e <= F2R (Zpos mb) eb)%R →
  SFleb (binary_round prec emax false mx e) (S754_finite false mb eb) = true.
Proof.
  intros Hcb Heb Hle.
  destruct (binary_round_aligned false mx e) as (mz & ez & -> & Hv & Hpre).
  apply binary_round_aux_upper; [lia|done|done|done|by rewrite Hv|done].
Qed.
End Normalize.

(** *** Sums and differences *)
Section AddSub.
Implicit Types (x y r : spec_float) (e ez : Z) (mx my mb : positive).

Lemma SFleb_neg_nonneg mb eb r :
  SFnonneg r → SFleb (S754_finite true mb eb) r = true.
Proof. intros [->|[->|(p & e & ->)]]; reflexivity. Qed.

Lemma SFleb_zero_nonneg s r : SFnonneg r → SFleb (S754_zero s) r = true.
Proof. intros [->|[->|(p & e & ->)]]; reflexivity. Qed.

Lemma SFleb_opp_nonneg_pos mb eb r :
  SFnonneg r → SFleb (SFopp r) (S754_finite false mb eb) = true.
Proof. intros [->|[->|(p & e & ->)]]; reflexivity. Qed.

Lemma SFleb_opp_nonneg_zero s r :
  SFnonneg r → SFleb (SFopp r) (S754_zero s) = true.
Proof. intros [->|[->|(p & e & ->)]]; reflexivity. Qed.

Lemma binary_round_nonneg mx e : SFnonneg (binary_round prec emax false mx e).
Proof. apply binary_round_sign. Qed.

Lemma F2R_pos_gt_0 mb eb : (0 < F2R (Zpos mb) eb)%R.
Proof.
  unfold F2R. pose proof (bpow_gt_0 eb).
  assert (0 < IZR (Zpos mb))%R by (by apply IZR_lt). nra.
Qed.

Lemma F2R_opp m e : F2R (- m) e = (- F2R m e)%R.
Proof. unfold F2R. rewrite opp_IZR. lra. Qed.

Lemma F2R_0 e : F2R 0 e = 0%R.
Proof. unfold F2R. lra. Qed.

Lemma F2R_plus m1 m2 e : F2R (m1 + m2) e = (F2R m1 e + F2R m2 e)%R.
Proof. unfold F2R. rewrite plus_IZR. lra. Qed.

Lemma F2R_minus m1 m2 e : F2R (m1 - m2) e = (F2R m1 e - F2R m2 e)%R.
Proof. unfold F2R. rewrite minus_IZR. lra. Qed.

(** A representable number below the exact value is below the rounded
    one, whatever the signs. *)
Lemma binary_normalize_lower sb mb eb z e :
  valid_binary (S754_finite sb mb eb) = true →
  (SF2R (S754_finite sb mb eb) <= F2R z e)%R →
  SFleb (S754_finite sb mb eb) (binary_normalize prec emax z e false) = true.
Proof.
  intros [Hcb Heb]%valid_finite_inv Hle. simpl in Hle.
  pose proof (F2R_pos_gt_0 mb eb) as Hbpos.
  destruct sb; simpl in Hle.
  - (* b is negative *)
    change (Z.neg mb) with (- Z.pos mb) in Hle. rewrite F2R_opp in Hle.
    destruct z as [|p|p]; simpl.
    + reflexivity.
    + apply SFleb_neg_nonneg, binary_round_nonneg.
    + rewrite binary_round_opp.
      change (Z.neg p) with (- Z.pos p) in Hle. rewrite F2R_opp in Hle.
      assert (SFleb (binary_round prec emax false p e)
                (S754_finite false mb eb) = true) as Hup
        by (apply binary_round_upper; [done|done|lra]).
      destruct (binary_round_nonneg p e) as [Hr|[Hr|(q & e' & Hr)]];
        rewrite Hr in *; [reflexivity|discriminate|].
      simpl. by rewrite SFleb_finite_neg.
  - (* b is positive *)
    destruct z as [|p|p]; simpl.
    + rewrite F2R_0 in Hle. lra.
    + by apply binary_round_lower.
    + change (Z.neg p) with (- Z.pos p) in Hle. rewrite F2R_opp in Hle.
      pose proof (F2R_pos_gt_0 p e). lra.
Qed.

Lemma binary_normalize_upper sb mb eb z e :
  valid_binary (S754_finite sb mb eb) = true →
  (F2R z e <= SF2R (S754_finite sb mb eb))%R →
  SFleb (binary_normalize prec emax z e false) (S754_finite sb mb eb) = true.
Proof.
  intros [Hcb Heb]%valid_finite_inv Hle. simpl in Hle.
  pose proof (F2R_pos_gt_0 mb eb) as Hbpos.
  destruct sb; simpl in Hle.
  - (* b is negative *)
    change (Z.neg mb) with (- Z.pos mb) in Hle. rewrite F2R_opp in Hle.
    destruct z as [|p|p]; simpl.
    + rewrite F2R_0 in Hle. lra.
    + pose proof (F2R_pos_gt_0 p e). lra.
    + rewrite binary_round_opp.
      change (Z.neg p) with (- Z.pos p) in Hle. rewrite F2R_opp in Hle.
      assert (SFleb (S754_finite false mb eb)
                (binary_round prec emax false p e) = true) as Hlo
        by (apply binary_round_lower; [done|lra]).
      destruct (binary_round_nonneg p e) as [Hr|[Hr|(q & e' & Hr)]];
        rewrite Hr in *; [discriminate|reflexivity|].
      simpl. by rewrite SFleb_finite_neg.
  - (* b is positive *)
    destruct z as [|p|p]; simpl.
    + reflexivity.
    + by apply binary_round_upper.
    + rewrite binary_round_opp.
      apply SFleb_opp_nonneg_pos, binary_round_nonneg.
Qed.

Lemma F2R_aligned s mx e ez :
  ez ≤ e →
  F2R (cond_Zopp s (Zpos (fst (shl_align mx e ez)))) ez
  = SF2R (S754_finite s mx e).
Proof.
  intros Hle. destruct (shl_align_spec mx e ez Hle) as [-> _]. simpl.
  destruct s; simpl.
  - rewrite <- Z.mul_opp_l, F2R_shift by lia. f_equal. lia.
  - rewrite F2R_shift by lia. f_equal. lia.
Qed.

Lemma SFadd_finite sx mx ex sy my ey :
  ∃ z ez,
    SFadd prec emax (S754_finite sx mx ex) (S754_finite sy my ey)
    = binary_normalize prec emax z ez false
    ∧ F2R z ez
      = (SF2R (S754_finite sx mx ex) + SF2R (S754_finite sy my ey))%R.
Proof.
  eexists _, (Z.min ex ey). split; [reflexivity|].
  rewrite F2R_plus, !F2R_aligned by lia. done.
Qed.

Lemma SFsub_finite sx mx ex sy my ey :
  ∃ z ez,
    SFsub prec emax (S754_finite sx mx ex) (S754_finite sy my ey)
    = binary_normalize prec emax z ez false
    ∧ F2R z ez
      = (SF2R (S754_finite sx mx ex) - SF2R (S754_finite sy my ey))%R.
Proof.
  eexists _, (Z.min ex ey). split; [reflexivity|].
  rewrite F2R_minus, !F2R_aligned by lia. done.
Qed.

(** Adding a positive number does not decrease. *)
Lemma SFadd_ge sx mx ex my ey :
  valid_binary (S754_finite sx mx ex) = true →
  SFleb (S754_finite sx mx ex)
        (SFadd prec emax (S754_finite sx mx ex) (S754_finite false my ey))
  = true.
Proof.
  intros Hx. destruct (SFadd_finite sx mx ex false my ey) as (z & ez & -> & Hz).
  apply binary_normalize_lower; [done|]. rewrite Hz.
  pose proof (F2R_pos_gt_0 my ey). simpl. lra.
Qed.

(** Subtracting a positive number does not increase. *)
Lemma SFsub_le sx mx ex my ey :
  valid_binary (S754_finite sx mx ex) = true →
  SFleb (SFsub prec emax (S754_finite sx mx ex) (S754_finite false my ey))
        (S754_finite sx mx ex)
  = true.
Proof.
  intros Hx. destruct (SFsub_finite sx mx ex false my ey) as (z & ez & -> & Hz).
  apply binary_normalize_upper; [done|]. rewrite Hz.
  pose proof (F2R_pos_gt_0 my ey). simpl. lra.
Qed.

Lemma SFleb_finite_pos_F2R mx ex my ey :
  valid_binary (S754_finite false mx ex) = true →
  valid_binary (S754_finite false my ey) = true →
  SFleb (S754_finite false mx ex) (S754_finite false my ey) = true →
  (F2R (Zpos mx) ex <= F2R (Zpos my) ey)%R.
Proof.
  intros [Hcx _]%valid_finite_inv [Hcy _]%valid_finite_inv
         [Hlt|[-> Hle]]%SFleb_finite_pos.
  - apply Rlt_le, canonical_lt_exponent; done.
  - by apply F2R_le.
Qed.

(** The difference of a number and a smaller one is not negative. *)
Lemma SFsub_nonneg mx ex my ey :
  valid_binary (S754_finite false mx ex) = true →
  valid_binary (S754_finite false my ey) = true →
  SFleb (S754_finite false my ey) (S754_finite false mx ex) = true →
  SFnonneg (SFsub prec emax (S754_finite false mx ex) (S754_finite false my ey)).
Proof.
  intros Hx Hy Hle. apply SFleb_finite_pos_F2R in Hle; [|done..].
  destruct (SFsub_finite false mx ex false my ey) as (z & ez & -> & Hz).
  simpl in Hz.
  assert (0 ≤ z) as Hzpos.
  { apply (F2R_le_inv 0 z ez). rewrite F2R_0, Hz. lra. }
  destruct z as [|p|p]; simpl; [by left|apply binary_round_nonneg|lia].
Qed.
End AddSub.

(** *** Quotients *)
Section Div.
Implicit Types (e : Z) (mx my : positive).

Lemma new_location_exact n k : new_location n k = loc_Exact ↔ k = 0.
Proof.
  unfold new_location, new_location_even, new_location_odd.
  destruct (Z.even n); destruct (Z.eqb_spec k 0); split; try done.
Qed.

Lemma SFdiv_core_binary_spec mx ex my ey :
  let e' := Z.min (fexp (Zdigits2 (Zpos mx) + ex - (Zdigits2 (Zpos my) + ey)))
                  (ex - ey) in
  let s := ex - ey - e' in
  0 ≤ s
  ∧ SFdiv_core_binary prec emax (Zpos mx) ex (Zpos my) ey
    = (Zpos mx * 2 ^ s / Zpos my, e',
       new_location (Zpos my) ((Zpos mx * 2 ^ s) mod Zpos my)).
Proof.
  intros e' s. assert (0 ≤ s) as Hs by (unfold s, e'; lia).
  split; [done|]. unfold SFdiv_core_binary.
  change (Z.min _ (ex - ey)) with e'. change (ex - ey - e') with s.
  assert (match s with
          | 0 => Zpos mx
          | Zpos _ => Z.shiftl (Zpos mx) s
          | Zneg _ => 0
          end = Zpos mx * 2 ^ s) as ->.
  { destruct s as [|p|p] eqn:Hp; [simpl; lia| |lia].
    by rewrite Z.shiftl_mul_pow2. }
  unfold Z.div, Z.modulo. by destruct (Z.div_eucl _ _).
Qed.

Lemma SFdiv_finite_nonneg mx ex my ey :
  SFnonneg (SFdiv prec emax (S754_finite false mx ex) (S754_finite false my ey)).
Proof.
  unfold SFdiv.
  destruct (SFdiv_core_binary_spec mx ex my ey) as [Hs ->]. simpl xorb.
  apply binary_round_aux_sign.
  apply Z.div_pos; [|lia].
  pose proof (Z.pow_pos_nonneg 2 _ ltac:(lia) Hs). lia.
Qed.

(** Dividing a positive number by one that is at least 1 does not
    increase it. *)
Lemma SFdiv_le_dividend mx ex my ey :
  valid_binary (S754_finite false mx ex) = true →
  (1 <= F2R (Zpos my) ey)%R →
  SFleb (SFdiv prec emax (S754_finite false mx ex) (S754_finite false my ey))
        (S754_finite false mx ex) = true.
Proof.
  intros [Hcx Hex]%valid_finite_inv Hy. unfold SFdiv.
  destruct (SFdiv_core_binary_spec mx ex my ey) as [Hs ->]. simpl xorb.
  set (d1 := Zdigits2 (Zpos mx)) in *. set (d2 := Zdigits2 (Zpos my)) in *.
  set (e' := Z.min (fexp (d1 + ex - (d2 + ey))) (ex - ey)) in *.
  set (s := ex - ey - e') in *.
  pose proof (Z.pow_pos_nonneg 2 s ltac:(lia) Hs) as Hp.
  set (m' := Zpos mx * 2 ^ s) in *.
  assert (0 < m') as Hm' by (unfold m'; lia).
  pose proof (Z.mul_div_le m' (Zpos my) ltac:(lia)) as Hqle.
  assert (0 ≤ m' / Zpos my) as Hq by (apply Z.div_pos; lia).
  (* the value of the dividend over the grid of the quotient *)
  assert (F2R (Zpos mx) ex
          = (IZR m' * bpow e' * bpow ey)%R) as Hx.
  { unfold F2R, m'. rewrite mult_IZR, IZR_pow2 by done.
    replace ex with (s + e' + ey) at 1 by (unfold s; lia).
    rewrite !bpow_plus. lra. }
  pose proof (bpow_gt_0 e') as He'pos. pose proof (bpow_gt_0 ey) as Heypos.
  assert (0 <= IZR (m' / Zpos my))%R as Hqr by (by apply IZR_le).
  assert (F2R (m' / Zpos my) e'
          <= IZR (Zpos my * (m' / Zpos my)) * bpow e' * bpow ey)%R as Hstep.
  { unfold F2R in *. rewrite mult_IZR.
    assert (0 <= IZR (m' / Zpos my) * bpow e')%R by nra. nra. }
  apply binary_round_aux_upper; [done| |done|done| |].
  - (* enough digits *)
    rewrite fexp_eq. destruct (Z_le_gt_dec e' (-1074)) as [|Hgt]; [lia|].
    assert (53 + d2 - d1 ≤ s) as Hsge
      by (unfold s, e' in *; rewrite fexp_eq in *; lia).
    pose proof (Zdigits2_bounds (Zpos mx) ltac:(lia)) as [Hlo1 _].
    pose proof (Zdigits2_bounds (Zpos my) ltac:(lia)) as [_ Hhi2].
    fold d1 in Hlo1. fold d2 in Hhi2.
    pose proof (Zdigits2_pos (Zpos my) ltac:(lia)) as Hd2. fold d2 in Hd2.
    pose proof (Zdigits2_pos (Zpos mx) ltac:(lia)) as Hd1. fold d1 in Hd1.
    assert (2 ^ (d1 + s - d2 - 1) ≤ m' / Zpos my) as Hk.
    { apply Z.div_le_lower_bound; [lia|].
      assert (2 ^ d2 * 2 ^ (d1 + s - d2 - 1) = 2 ^ (d1 - 1) * 2 ^ s) as Heq.
      { rewrite <- !Z.pow_add_r by lia. f_equal. lia. }
      assert (0 < 2 ^ (d1 + s - d2 - 1)) by (apply Z.pow_pos_nonneg; lia).
      unfold m'. nia. }
    assert (0 < 2 ^ (d1 + s - d2 - 1)) by (apply Z.pow_pos_nonneg; lia).
    pose proof (Zdigits2_bounds (m' / Zpos my) ltac:(lia)) as [_ Hhiq].
    assert (d1 + s - d2 - 1 < Zdigits2 (m' / Zpos my)).
    { apply (Z.pow_lt_mono_r_iff 2); [lia|apply Zdigits2_nonneg|lia]. }
    unfold s in *. lia.
  - rewrite Hx. apply IZR_le in Hqle.
    assert (IZR (Zpos my * (m' / Zpos my)) * bpow e' * bpow ey
            <= IZR m' * bpow e' * bpow ey)%R
      by (apply Rmult_le_compat_r; [lra|]; apply Rmult_le_compat_r; [lra|done]).
    lra.
  - intros Hl. rewrite Hx.
    assert (m' mod Zpos my ≠ 0) as Hmod
      by (intros H0; by apply Hl, new_location_exact).
    assert (Zpos my * (m' / Zpos my) < m') as Hlt.
    { pose proof (Z.div_mod m' (Zpos my) ltac:(lia)).
      pose proof (Z.mod_pos_bound m' (Zpos my) ltac:(lia)). lia. }
    apply IZR_lt in Hlt.
    assert (IZR (Zpos my * (m' / Zpos my)) * bpow e' * bpow ey
            < IZR m' * bpow e' * bpow ey)%R
      by (apply Rmult_lt_compat_r; [lra|]; apply Rmult_lt_compat_r; [lra|done]).
    lra.
Qed.
End Div.

(** *** Classes of binary64 numbers *)
Section Classes.
Implicit Types (x y r : spec_float).

Lemma Prim2SF_0 : Prim2SF 0 = S754_zero false.
Proof. reflexivity. Qed.
Lemma Prim2SF_1 : Prim2SF 1 = SF_one.
Proof. reflexivity. Qed.
Lemma Prim2SF_100 : Prim2SF 100 = SF_hundred.
Proof. reflexivity. Qed.

Lemma SFltb_zero_not_neg x : SFltb x (S754_zero false) = false → SFnot_neg x.
Proof. by destruct x as [|[]| |[] ? ?]. Qed.

Lemma is_finite_SFfinite (f : float) :
  is_finite f = true → SFfinite (Prim2SF f).
Proof.
  unfold is_finite, is_nan, is_infinity.
  rewrite !FloatAxioms.eqb_spec, abs_spec.
  change (Prim2SF infinity) with (S754_infinity false).
  by destruct (Prim2SF f) as [|[]| |].
Qed.

Lemma is_nan_Prim2SF (f : float) :
  Prim2SF f = S754_nan → is_nan f = true.
Proof. unfold is_nan. rewrite FloatAxioms.eqb_spec. by intros ->. Qed.

Lemma SFleb_refl_finite x : SFfinite x → SFleb x x = true.
Proof.
  destruct x as [s| | |s m e]; try done. intros _.
  destruct s; [rewrite SFleb_finite_neg|]; apply SFleb_finite_pos; right; lia.
Qed.
End Classes.

(** *** The cell of the RSI *)
Section RsiCell.
Implicit Types (x y r u d : spec_float).

Lemma SFnonneg_Rclass r : SFnonneg r → Rclass r.
Proof.
  unfold Rclass. intros [->|[->|(p & e & ->)]]; eauto 10.
Qed.

Lemma SFdiv_Rclass u d :
  SFnot_neg u → SFnot_neg d → Rclass (SFdiv prec emax u d).
Proof.
  destruct u as [su|[]| |[] mu eu], d as [sd|[]| |[] md ed]; try done;
    intros _ _; unfold Rclass; simpl; eauto 10.
  apply SFnonneg_Rclass, SFdiv_finite_nonneg.
Qed.

Lemma valid_SFone : valid_binary SF_one = true.
Proof. reflexivity. Qed.
Lemma valid_SFhundred : valid_binary SF_hundred = true.
Proof. reflexivity. Qed.

Lemma F2R_SFone : F2R 4503599627370496 (-52) = 1%R.
Proof.
  assert (F2R (1 * 2 ^ 52) (-52) = F2R 1 (-52 + 52)) as H
    by (apply F2R_shift; lia).
  change (1 * 2 ^ 52) with 4503599627370496 in H. rewrite H.
  change (-52 + 52) with 0. unfold F2R. rewrite bpow_0. lra.
Qed.

Lemma SFadd_one_Sclass r :
  Rclass r → valid_binary (SFadd prec emax SF_one r) = true →
  Sclass (SFadd prec emax SF_one r).
Proof.
  unfold Sclass, SF_one.
  intros [->|[[s ->]|[[s ->]|(m & e & ->)]]] Hvalid.
  - by left.
  - right. right. eexists _, _. split; [reflexivity|]. rewrite F2R_SFone. lra.
  - right. left. by eexists.
  - pose proof (SFadd_ge false _ (-52) m e valid_SFone) as Hge.
    destruct (SFadd_finite false 4503599627370496 (-52) false m e)
      as (z & ez & Hadd & Hz).
    assert (SFnonneg (SFadd prec emax (S754_finite false 4503599627370496 (-52))
                                      (S754_finite false m e))) as Hnn.
    { rewrite Hadd. simpl in Hz. rewrite F2R_SFone in Hz.
      pose proof (F2R_pos_gt_0 m e).
      assert (0 < z) as Hzpos.
      { apply (F2R_lt_inv 0 z ez). rewrite F2R_0, Hz. lra. }
      destruct z as [|p|p]; try lia. apply binary_round_nonneg. }
    destruct Hnn as [Hr|[Hr|(p & e' & Hr)]]; rewrite Hr in *.
    + discriminate.
    + right. left. by eexists.
    + right. right. exists p, e'. split; [done|].
      rewrite <- F2R_SFone. by apply SFleb_finite_pos_F2R.
Qed.

Lemma SFdiv_hundred_Qclass r :
  Sclass r → Qclass (SFdiv prec emax SF_hundred r).
Proof.
  unfold Qclass, SF_hundred. intros [->|[[s ->]|(m & e & -> & Hge)]].
  - by left.
  - right. left. by eexists.
  - pose proof (SFdiv_le_dividend _ (-46) m e valid_SFhundred Hge) as Hle.
    destruct (SFdiv_finite_nonneg 7036874417766400 (-46) m e)
      as [Hr|[Hr|(p & e' & Hr)]]; rewrite Hr in *.
    + right. left. by eexists.
    + discriminate.
    + right. right. eauto.
Qed.

Lemma SFsub_hundred_Vclass r :
  Qclass r → valid_binary r = true → Vclass (SFsub prec emax SF_hundred r).
Proof.
  unfold Vclass, Qclass, SF_hundred.
  intros [->|[[s ->]|(m & e & -> & Hle)]] Hvalid.
  - by left.
  - right. by split.
  - right. split.
    + apply SFleb_zero_nonneg.
      by apply (SFsub_nonneg _ (-46) m e valid_SFhundred).
    + apply (SFsub_le false _ (-46) m e valid_SFhundred).
Qed.

(** The RSI of two averages that are not negative is NaN or lies between
    0 and 100. *)
Lemma rsi_cell_range (up down : float) :
  PrimFloat.ltb up 0 = false → PrimFloat.ltb down 0 = false →
  is_nan (rsi_cell up down) = true
  ∨ (PrimFloat.leb 0 (rsi_cell up down) = true
     ∧ PrimFloat.leb (rsi_cell up down) 100 = true).
Proof.
  rewrite !FloatAxioms.ltb_spec, Prim2SF_0.
  intros Hu%SFltb_zero_not_neg Hd%SFltb_zero_not_neg. unfold rsi_cell.
  pose proof (SFdiv_Rclass _ _ Hu Hd) as Hr.
  change (SFdiv prec emax) with SF64div in Hr. rewrite <- div_spec in Hr.
  pose proof (Prim2SF_valid (1 + up / down)) as Hsv.
  rewrite add_spec, Prim2SF_1 in Hsv.
  pose proof (SFadd_one_Sclass _ Hr Hsv) as Hs.
  change (SFadd prec emax) with SF64add in Hs.
  rewrite <- Prim2SF_1, <- add_spec in Hs.
  pose proof (SFdiv_hundred_Qclass _ Hs) as Hq.
  change (SFdiv prec emax) with SF64div in Hq.
  rewrite <- Prim2SF_100, <- div_spec in Hq.
  pose proof (SFsub_hundred_Vclass _ Hq (Prim2SF_valid _)) as Hv.
  change (SFsub prec emax) with SF64sub in Hv.
  rewrite <- Prim2SF_100, <- sub_spec in Hv.
  destruct Hv as [Hnan|[H0 H100]].
  - left. by apply is_nan_Prim2SF.
  - right. rewrite !FloatAxioms.leb_spec, Prim2SF_0, Prim2SF_100. done.
Qed.

End RsiCell.

(** *** The cells of the Bollinger bands *)
Section BandCells.
Implicit Types (x y a p : spec_float).

Lemma SFnonneg_Pclass p : SFnonneg p → Pclass p.
Proof. unfold Pclass. intros [->|[->|(m & e & ->)]]; eauto 10. Qed.

Lemma SFadd_Pclass_ge a p :
  SFfinite a → valid_binary a = true → Pclass p →
  SFleb a (SFadd prec emax a p) = true.
Proof.
  intros Ha Hv [[sp ->]|[->|(m & e & ->)]].
  - destruct a as [sa| | |sa ma ea]; try done.
    + by destruct sa, sp.
    + by apply (SFleb_refl_finite (S754_finite sa ma ea)).
  - destruct a as [sa| | |[] ma ea]; done.
  - destruct a as [sa| | |sa ma ea]; try done. by apply SFadd_ge.
Qed.

Lemma SFsub_Pclass_le a p :
  SFfinite a → valid_binary a = true → Pclass p →
  SFleb (SFsub prec emax a p) a = true.
Proof.
  intros Ha Hv [[sp ->]|[->|(m & e & ->)]].
  - destruct a as [sa| | |sa ma ea]; try done.
    + by destruct sa, sp.
    + by apply (SFleb_refl_finite (S754_finite sa ma ea)).
  - destruct a as [sa| | |[] ma ea]; done.
  - destruct a as [sa| | |sa ma ea]; try done. by apply SFsub_le.
Qed.

Lemma SFmul_Pclass x y :
  (x = S754_zero false ∨ ∃ (m : positive) (e : Z), x = S754_finite false m e) →
  SFfinite y → SFleb (S754_zero false) y = true →
  Pclass (SFmul prec emax x y).
Proof.
  intros [->|(m & e & ->)] Hy Hpos.
  - destruct y as [sy| | |[] my ey]; try done; left; by eexists.
  - destruct y as [sy| | |[] my ey]; try done.
    + left. by eexists.
    + apply SFnonneg_Pclass. unfold SFmul. simpl xorb.
      apply binary_round_aux_sign. lia.
Qed.

Lemma valid_two_63 : valid_binary (S754_finite false 4503599627370496 11) = true.
Proof. reflexivity. Qed.

Lemma F2R_two_63 : F2R 4503599627370496 11 = IZR (2 ^ 63).
Proof.
  assert (F2R (1 * 2 ^ 52) 11 = F2R 1 (11 + 52)) as H by (apply F2R_shift; lia).
  change (1 * 2 ^ 52) with 4503599627370496 in H. rewrite H.
  unfold F2R. rewrite IZR_pow2 by lia. change (11 + 52) with 63. lra.
Qed.

(** The conversion of an [i8] that is not negative. *)
Lemma of_int_nonneg (k : Z) :
  0 ≤ k < 2 ^ 63 →
  Prim2SF (of_int k) = S754_zero false
  ∨ ∃ (m : positive) (e : Z), Prim2SF (of_int k) = S754_finite false m e.
Proof.
  intros [Hk0 Hk63]. unfold of_int.
  destruct (Z.ltb_spec k 0) as [|_]; [lia|].
  rewrite of_uint63_spec.
  change (Uint63Axioms.to_Z (Uint63.of_Z k)) with (Uint63.to_Z (Uint63.of_Z k)).
  rewrite Uint63.of_Z_spec, Z.mod_small by (change Uint63.wB with (2 ^ 63); lia).
  destruct k as [|p|p]; [by left| |lia]. right. simpl.
  assert (SFleb (binary_round prec emax false p 0)
            (S754_finite false 4503599627370496 11) = true) as Hle.
  { destruct (valid_finite_inv _ _ _ valid_two_63) as [Hc He].
    apply binary_round_upper; [done|done|].
    rewrite F2R_two_63. unfold F2R. rewrite bpow_0.
    apply IZR_lt in Hk63. lra. }
  destruct (binary_round_nonneg p 0) as [Hr|[Hr|(q & e' & Hr)]];
    rewrite Hr in *; [| discriminate | eauto].
  exfalso.
  assert (SFleb (S754_finite false 4503599627370496 (-52))
            (binary_round prec emax false p 0) = true) as Hone.
  { destruct (valid_finite_inv _ _ _ valid_SFone) as [Hc _].
    apply binary_round_lower; [done|].
    rewrite F2R_SFone. unfold F2R. rewrite bpow_0.
    assert (1 <= IZR (Zpos p))%R by (apply IZR_le; lia). lra. }
  by rewrite Hr in Hone.
Qed.

(** The bands around a finite mean, for a finite deviation that is not
    negative and a multiplier that is not negative. *)
Lemma bands_ordered (ma mstd : float) (k : Z) :
  0 ≤ k < 2 ^ 63 →
  is_finite ma = true → is_finite mstd = true →
  PrimFloat.leb 0 mstd = true →
  PrimFloat.leb (lower_band ma k mstd) ma = true
  ∧ PrimFloat.leb ma (upper_band ma k mstd) = true.
Proof.
  intros Hk Hma%is_finite_SFfinite Hmstd%is_finite_SFfinite Hpos.
  rewrite FloatAxioms.leb_spec, Prim2SF_0 in Hpos.
  pose proof (SFmul_Pclass _ _ (of_int_nonneg k Hk) Hmstd Hpos) as Hp.
  change (SFmul prec emax) with SF64mul in Hp. rewrite <- mul_spec in Hp.
  unfold lower_band, upper_band.
  rewrite !FloatAxioms.leb_spec, sub_spec, add_spec. split.
  - apply SFsub_Pclass_le; [done|apply Prim2SF_valid|done].
  - apply SFadd_Pclass_ge; [done|apply Prim2SF_valid|done].
Qed.
End BandCells.

End Binary64Facts.

(** ** The cells of the indicators *)

Section CellsOfBlocks.
Context {A : Type}.

Lemma at2_block (a : matrix A) i C t c v :
  at2 (block i C a) t c = Some v → c < C ∧ at2 a t (i * C + c) = Some v.
Proof.
  unfold at2, block. rewrite list_lookup_fmap.
  destruct (a !! t) as [r|]; simpl; [|done].
  intros [Hv Hc]%lookup_take_Some. by rewrite lookup_drop in Hv.
Qed.
End CellsOfBlocks.

Section CellsOfIndicators.
Context `{Timeseries}.


(** C7, as amended: at a cell where the rolling mean and the rolling
    deviation are finite, the deviation is not negative and the multiplier
    is an [i8] that is not negative, the bands are
    [mean - k * std <= mean <= mean + k * std]. *)
Theorem bb_nb_bands_ordered
    (ts : matrix f8) (ns ks : list Z) (min_periods : bool)
    (upper middle lower ma mstd : matrix f8) (i t c : nat) (n k : Z)
    (mean std : f8) :
  bb_nb ts ns ks min_periods = Some (upper, middle, lower) →
  ns !! i = Some n → ks !! i = Some k →
  bb_entry ts min_periods n = Some (ma, mstd) →
  at2 ma t c = Some mean → at2 mstd t c = Some std →
  (0 ≤ k < 2 ^ 63)%Z →
  is_finite mean = true → is_finite std = true →
  PrimFloat.leb 0 std = true →
  at2 upper t (i * shape1 ts + c) = Some (mean + of_int k * std)%float
  ∧ at2 middle t (i * shape1 ts + c) = Some mean
  ∧ at2 lower t (i * shape1 ts + c) = Some (mean - of_int k * std)%float
  ∧ PrimFloat.leb (mean - of_int k * std) mean = true
  ∧ PrimFloat.leb mean (mean + of_int k * std) = true.
Proof.
  intros Hrun Hn Hk Hentry Hmean Hstd Hkr Hfm Hfs Hpos.
  destruct (bb_nb_blocks _ _ _ _ _ _ _ Hrun i n Hn)
    as (k' & ma' & mstd' & Hk' & Hentry' & Hup & Hmid & Hlo & _).
  rewrite Hk in Hk'. injection Hk' as <-.
  rewrite Hentry in Hentry'. injection Hentry' as <- <-.
  pose proof (elementwise_at2 _ _ _ _ _ _ _ _ Hup Hmean Hstd) as Hu.
  pose proof (elementwise_at2 _ _ _ _ _ _ _ _ Hlo Hmean Hstd) as Hl.
  rewrite <- Hmid in Hmean.
  apply at2_block in Hu as [_ Hu]. apply at2_block in Hl as [_ Hl].
  apply at2_block in Hmean as [_ Hm].
  destruct (Binary64Facts.bands_ordered mean std k Hkr Hfm Hfs Hpos).
  split_and!; done.
Qed.
End CellsOfIndicators.



(** The averages behind that cell: the up-average is positive and the
    down-average is below zero, though every down-move is zero or more. *)
Lemma rsi_entry_negative_average_on_running_sums :
  let ts := [[3.9]; [2.8]; [1.8]; [2.4]; [2.7]]%float in
  let moves := rsi_moves (H := SpecTimeseries.running_sum) ts in
  ∃ roll_up roll_down up down,
    rsi_entry (H := SpecTimeseries.running_sum) moves.1 moves.2
      false false true 2 = Some (roll_up, roll_down)
    ∧ at2 roll_up 4 0 = Some up ∧ at2 roll_down 4 0 = Some down
    ∧ PrimFloat.ltb 0 up = true ∧ PrimFloat.ltb down 0 = true
    ∧ Forall (Forall (λ x, PrimFloat.leb 0 x = true)) moves.2.
Proof.
  eexists _, _, _, _.
  split_and!; [vm_compute; reflexivity|reflexivity|reflexivity
              |reflexivity|reflexivity|].
  vm_compute. repeat constructor.
Qed.

Lemma bb_nb_bands_ordered_witness :
  at2 [[nan]; [nan]; [5]]%float 2 (0 * shape1 [[1]; [2]; [4]]%float + 0)
  = Some (3 + of_int 2 * 1)%float
  ∧ at2 [[nan]; [nan]; [3]]%float 2 (0 * shape1 [[1]; [2]; [4]]%float + 0)
    = Some 3%float
  ∧ at2 [[nan]; [nan]; [1]]%float 2 (0 * shape1 [[1]; [2]; [4]]%float + 0)
    = Some (3 - of_int 2 * 1)%float
  ∧ PrimFloat.leb (3 - of_int 2 * 1) 3 = true
  ∧ PrimFloat.leb 3 (3 + of_int 2 * 1) = true.
Proof.
  apply (bb_nb_bands_ordered (H := SpecTimeseries.reference)
           [[1]; [2]; [4]]%float [2%Z] [2%Z] true
           [[nan]; [nan]; [5]]%float [[nan]; [nan]; [3]]%float
           [[nan]; [nan]; [1]]%float
           [[nan]; [nan]; [3]]%float [[nan]; [nan]; [1]]%float
           0 2 0 2%Z 2%Z 3%float 1%float).
  - vm_compute. reflexivity.
  - reflexivity.
  - reflexivity.
  - vm_compute. reflexivity.
  - reflexivity.
  - reflexivity.
  - lia.
  - reflexivity.
  - reflexivity.
  - reflexivity.
Defined.

(** The formulas of the bands at infinite operands: [inf - 1 * inf] and
    [0 + 0 * inf] are NaN. *)
Lemma bands_of_infinities_are_nan :
  is_nan (lower_band infinity 1 infinity) = true
  ∧ is_nan (upper_band 0 0 infinity) = true.
Proof. split; vm_compute; reflexivity. Qed.

(** The original C7 asks only that the mean and the deviation are not NaN.
    Three prices of 1.7e308 and the window 2: the sum of two prices
    overflows, the rolling mean and the rolling deviation of row 2 are both
    plus infinity, and with the multiplier 1 the lower band is
    [inf - inf], NaN, which is not below the mean. *)
Lemma bb_nb_bands_not_ordered_at_infinity :
  ¬ (∀ (ts : matrix f8) (ns ks : list Z) (min_periods : bool)
       (upper middle lower ma mstd : matrix f8) (i t c : nat) (n k : Z)
       (mean std up lo : f8),
       bb_nb (H := SpecTimeseries.reference) ts ns ks min_periods
         = Some (upper, middle, lower) →
       ns !! i = Some n → ks !! i = Some k →
       bb_entry (H := SpecTimeseries.reference) ts min_periods n
         = Some (ma, mstd) →
       at2 ma t c = Some mean → at2 mstd t c = Some std →
       (0 ≤ k)%Z → is_nan mean = false → is_nan std = false →
       PrimFloat.leb 0 std = true →
       at2 upper t (i * shape1 ts + c) = Some up →
       at2 middle t (i * shape1 ts + c) = Some mean →
       at2 lower t (i * shape1 ts + c) = Some lo →
       PrimFloat.leb lo mean = true ∧ PrimFloat.leb mean up = true).
Proof.
  intros Hall.
  specialize (Hall [[1.7e308]; [1.7e308]; [1.7e308]]%float [2%Z] [1%Z] true
                   [[nan]; [nan]; [infinity]] [[nan]; [nan]; [infinity]]
                   [[nan]; [nan]; [nan]]
                   [[nan]; [nan]; [infinity]] [[nan]; [nan]; [infinity]]
                   0 2 0 2%Z 1%Z infinity infinity infinity nan).
  destruct Hall as [Hlo _];
    [vm_compute; reflexivity|reflexivity|reflexivity|vm_compute; reflexivity
    |reflexivity|reflexivity|lia|reflexivity|reflexivity|reflexivity
    |reflexivity|reflexivity|reflexivity|].
  vm_compute in Hlo. discriminate.
Qed.

(** * Further properties *)

(** ** The order of the binary64 numbers *)

(** [SFleb] and [SFltb] on the numbers of the format are the order of the
    reals on [SFval]: this gives the comparisons of the module their
    transitivity. *)
Module Binary64Order.
Import Binary64 Binary64Facts.
Local Open Scope Z_scope.

Section Values.

Lemma bpow_1024_gt_0 : (0 < bpow 1024)%R.
Proof. apply bpow_gt_0. Qed.

Lemma valid_finite_bound s (m : positive) e :
  valid_binary (S754_finite s m e) = true →
  (0 < F2R (Zpos m) e < bpow 1024)%R.
Proof.
  intros [Hc He]%valid_finite_inv. split; [apply F2R_pos_gt_0|].
  unfold canonical in Hc. rewrite fexp_eq in Hc.
  destruct (F2R_mag_bounds (Zpos m) e) as [_ Hlt]; [lia|].
  eapply Rlt_le_trans; [exact Hlt|]. apply bpow_le. lia.
Qed.

Lemma SFval_finite_pos (m : positive) e :
  SFval (S754_finite false m e) = F2R (Zpos m) e.
Proof. reflexivity. Qed.

Lemma SFval_finite_neg (m : positive) e :
  SFval (S754_finite true m e) = (- F2R (Zpos m) e)%R.
Proof. unfold SFval, SF2R. simpl. by rewrite <- F2R_opp. Qed.

Lemma SFval_zero s : SFval (S754_zero s) = 0%R.
Proof. reflexivity. Qed.

Lemma SFval_infinity s :
  SFval (S754_infinity s) = if s then (- bpow 1024)%R else bpow 1024.
Proof. reflexivity. Qed.

Lemma SFleb_pos_iff (m1 m2 : positive) e1 e2 :
  canonical (Zpos m1) e1 → canonical (Zpos m2) e2 →
  SFleb (S754_finite false m1 e1) (S754_finite false m2 e2) = true
  ↔ (F2R (Zpos m1) e1 <= F2R (Zpos m2) e2)%R.
Proof.
  intros Hc1 Hc2. rewrite SFleb_finite_pos. split.
  - intros [Hlt|[-> Hle]].
    + apply Rlt_le, canonical_lt_exponent; done.
    + by apply F2R_le.
  - intros Hle.
    apply (canonical_le_coarse (Zpos m1) e1 (Zpos m2) e2); try done.
    by apply canonical_coarse.
Qed.

Lemma SFleb_SFval x y :
  valid_binary x = true → valid_binary y = true →
  x ≠ S754_nan → y ≠ S754_nan →
  SFleb x y = true ↔ (SFval x <= SFval y)%R.
Proof.
  intros Hvx Hvy Hx Hy. pose proof bpow_1024_gt_0 as HB.
  destruct x as [sx|sx| |sx mx ex], y as [sy|sy| |sy my ey]; try done;
    try (destruct (valid_finite_bound _ _ _ Hvx) as [Hx0 HxB]);
    try (destruct (valid_finite_bound _ _ _ Hvy) as [Hy0 HyB]);
    rewrite ?SFval_zero, ?SFval_infinity.
  - destruct sy; cbv [SFleb SFcompare]; split; intros; first [done|lra|exfalso; lra].
  - destruct sy; rewrite ?SFval_finite_pos, ?SFval_finite_neg;
      cbv [SFleb SFcompare]; split; intros; first [done|lra|exfalso; lra].
  - destruct sx; cbv [SFleb SFcompare]; split; intros; first [done|lra|exfalso; lra].
  - destruct sx, sy; cbv [SFleb SFcompare]; split; intros; first [done|lra|exfalso; lra].
  - destruct sx, sy; rewrite ?SFval_finite_pos, ?SFval_finite_neg;
      cbv [SFleb SFcompare]; split; intros; first [done|lra|exfalso; lra].
  - destruct sx; rewrite ?SFval_finite_pos, ?SFval_finite_neg;
      cbv [SFleb SFcompare]; split; intros; first [done|lra|exfalso; lra].
  - destruct sx, sy; rewrite ?SFval_finite_pos, ?SFval_finite_neg;
      cbv [SFleb SFcompare]; split; intros; first [done|lra|exfalso; lra].
  - destruct (valid_finite_inv _ _ _ Hvx) as [Hcx _].
    destruct (valid_finite_inv _ _ _ Hvy) as [Hcy _].
    destruct sx, sy; rewrite ?SFval_finite_pos, ?SFval_finite_neg.
    + rewrite SFleb_finite_neg, SFleb_pos_iff by done. split; lra.
    + cbv [SFleb SFcompare]. split; intros; [lra|done].
    + cbv [SFleb SFcompare]. split; intros; [done|exfalso; lra].
    + by apply SFleb_pos_iff.
Qed.

Lemma SFltb_SFleb x y :
  x ≠ S754_nan → y ≠ S754_nan → SFltb x y = negb (SFleb y x).
Proof.
  intros Hx Hy. unfold SFltb, SFleb.
  rewrite (SFcompare_antisym x y).
  destruct (SFcompare x y) as [[]|] eqn:E; try done.
  destruct x as [sx|sx| |sx mx ex], y as [sy|sy| |sy my ey]; done.
Qed.

Lemma SFltb_SFval x y :
  valid_binary x = true → valid_binary y = true →
  x ≠ S754_nan → y ≠ S754_nan →
  SFltb x y = true ↔ (SFval x < SFval y)%R.
Proof.
  intros Hvx Hvy Hx Hy. rewrite SFltb_SFleb by done.
  pose proof (SFleb_SFval y x Hvy Hvx Hy Hx) as Hle.
  destruct (SFleb y x); simpl; split; try done.
  - intros Hlt. assert (SFval y <= SFval x)%R as H' by (by apply Hle). lra.
  - intros _. apply Rnot_le_lt. intros H'. by apply Hle in H'.
Qed.

Lemma SFleb_not_nan x y : SFleb x y = true → x ≠ S754_nan ∧ y ≠ S754_nan.
Proof. by destruct x, y. Qed.

Lemma SFltb_not_nan x y : SFltb x y = true → x ≠ S754_nan ∧ y ≠ S754_nan.
Proof. by destruct x, y. Qed.

End Values.

Section Transitivity.
Implicit Types x y z : float.

Lemma leb_SFval x y :
  PrimFloat.leb x y = true
  ↔ Prim2SF x ≠ S754_nan ∧ Prim2SF y ≠ S754_nan
    ∧ (SFval (Prim2SF x) <= SFval (Prim2SF y))%R.
Proof.
  rewrite FloatAxioms.leb_spec. split.
  - intros Hle. destruct (SFleb_not_nan _ _ Hle) as [Hx Hy].
    split_and!; try done.
    by apply SFleb_SFval; auto using Prim2SF_valid.
  - intros (Hx & Hy & Hle). by apply SFleb_SFval; auto using Prim2SF_valid.
Qed.

Lemma ltb_SFval x y :
  PrimFloat.ltb x y = true
  ↔ Prim2SF x ≠ S754_nan ∧ Prim2SF y ≠ S754_nan
    ∧ (SFval (Prim2SF x) < SFval (Prim2SF y))%R.
Proof.
  rewrite FloatAxioms.ltb_spec. split.
  - intros Hlt. destruct (SFltb_not_nan _ _ Hlt) as [Hx Hy].
    split_and!; try done.
    by apply SFltb_SFval; auto using Prim2SF_valid.
  - intros (Hx & Hy & Hlt). by apply SFltb_SFval; auto using Prim2SF_valid.
Qed.

Lemma leb_trans x y z :
  PrimFloat.leb x y = true → PrimFloat.leb y z = true →
  PrimFloat.leb x z = true.
Proof.
  rewrite !leb_SFval. intros (Hx & _ & H1) (_ & Hz & H2).
  split_and!; try done. lra.
Qed.

Lemma ltb_leb_trans x y z :
  PrimFloat.ltb x y = true → PrimFloat.leb y z = true →
  PrimFloat.ltb x z = true.
Proof.
  rewrite !ltb_SFval, leb_SFval. intros (Hx & _ & H1) (_ & Hz & H2).
  split_and!; try done. lra.
Qed.

Lemma leb_ltb_trans x y z :
  PrimFloat.leb x y = true → PrimFloat.ltb y z = true →
  PrimFloat.ltb x z = true.
Proof.
  rewrite !ltb_SFval, leb_SFval. intros (Hx & _ & H1) (_ & Hz & H2).
  split_and!; try done. lra.
Qed.

Lemma leb_not_ltb x y :
  PrimFloat.leb x y = true → PrimFloat.ltb y x = false.
Proof.
  intros Hle. destruct (PrimFloat.ltb y x) eqn:Hlt; [|done].
  apply leb_SFval in Hle as (_ & _ & Hle).
  apply ltb_SFval in Hlt as (_ & _ & Hlt). lra.
Qed.

Lemma leb_antisym_eqb x y :
  PrimFloat.leb x y = true → PrimFloat.leb y x = true →
  PrimFloat.eqb x y = true.
Proof.
  intros H1 H2.
  pose proof (leb_not_ltb _ _ H1) as N1. pose proof (leb_not_ltb _ _ H2) as N2.
  revert H1 N1 N2.
  rewrite FloatAxioms.leb_spec, FloatAxioms.eqb_spec, !FloatAxioms.ltb_spec.
  unfold SFleb, SFltb, SFeqb.
  rewrite (SFcompare_antisym (Prim2SF x) (Prim2SF y)).
  by destruct (SFcompare (Prim2SF x) (Prim2SF y)) as [[]|].
Qed.

End Transitivity.

Section NotANumber.
Implicit Types x y : float.

Lemma SFcompare_refl a : a ≠ S754_nan → SFcompare a a = Some Eq.
Proof.
  destruct a as [s|s| |s m e]; try done; intros _; simpl.
  - by destruct s.
  - rewrite Z.compare_refl, Pos.compare_cont_refl. by destruct s.
Qed.

Lemma is_nan_spec x : is_nan x = true ↔ Prim2SF x = S754_nan.
Proof.
  split; [|apply is_nan_Prim2SF].
  unfold is_nan. rewrite FloatAxioms.eqb_spec. unfold SFeqb.
  destruct (Prim2SF x) as [s|s| |s m e] eqn:E; try done;
    by rewrite SFcompare_refl.
Qed.

Lemma ltb_nan x y :
  is_nan x = true ∨ is_nan y = true → PrimFloat.ltb x y = false.
Proof.
  rewrite !is_nan_spec, FloatAxioms.ltb_spec. unfold SFltb.
  intros [-> | ->]; [done|]. by destruct (Prim2SF x).
Qed.

Lemma leb_nan x y :
  is_nan x = true ∨ is_nan y = true → PrimFloat.leb x y = false.
Proof.
  rewrite !is_nan_spec, FloatAxioms.leb_spec. unfold SFleb.
  intros [-> | ->]; [done|]. by destruct (Prim2SF x).
Qed.

Lemma ltb_true_not_nan x y :
  PrimFloat.ltb x y = true → is_nan x = false ∧ is_nan y = false.
Proof.
  intros Hlt. split.
  - destruct (is_nan x) eqn:E; [|done]. by rewrite ltb_nan in Hlt by auto.
  - destruct (is_nan y) eqn:E; [|done]. by rewrite ltb_nan in Hlt by auto.
Qed.

Lemma arith_nan x y :
  is_nan x = true ∨ is_nan y = true →
  is_nan (x + y) = true ∧ is_nan (x - y) = true
  ∧ is_nan (x * y) = true ∧ is_nan (x / y) = true.
Proof.
  rewrite !is_nan_spec, FloatAxioms.add_spec, FloatAxioms.sub_spec,
    FloatAxioms.mul_spec, FloatAxioms.div_spec.
  unfold SF64add, SF64sub, SF64mul, SF64div, SFadd, SFsub, SFmul, SFdiv.
  intros [-> | ->]; [done|]. by destruct (Prim2SF x).
Qed.

End NotANumber.

(** The threshold of a relative stop, [(1 - stop) * price], is NaN or at
    most the price when neither the stop nor the price is negative. *)
Section RelativeThreshold.

Lemma F2R_mult m1 e1 m2 e2 :
  F2R (m1 * m2) (e1 + e2) = (F2R m1 e1 * F2R m2 e2)%R.
Proof. unfold F2R. rewrite mult_IZR, bpow_plus. ring. Qed.

Lemma Zdigits2_mult (m1 m2 : positive) :
  Zdigits2 (Zpos m1) + Zdigits2 (Zpos m2) - 1 ≤ Zdigits2 (Zpos (m1 * m2)).
Proof.
  destruct (Zdigits2_bounds (Zpos m2)) as [Hlo _]; [lia|].
  pose proof (Zdigits2_pos (Zpos m2) ltac:(lia)) as Hd2.
  assert (0 < 2 ^ (Zdigits2 (Zpos m2) - 1)) by (apply Z.pow_pos_nonneg; lia).
  pose proof (Zdigits2_mul_pow2 (Zpos m1) (Zdigits2 (Zpos m2) - 1)
                ltac:(lia) ltac:(lia)) as Heq.
  pose proof (Zdigits2_le (Zpos m1 * 2 ^ (Zdigits2 (Zpos m2) - 1))
                (Zpos (m1 * m2)) ltac:(nia) ltac:(nia)).
  lia.
Qed.

(** The product of the mantissas of two numbers of the format has the
    digits the format keeps, or more. *)
Lemma product_exponent (m1 m2 : positive) e1 e2 :
  canonical (Zpos m1) e1 → canonical (Zpos m2) e2 →
  e1 + e2 ≤ fexp (Zdigits2 (Zpos (m1 * m2)) + (e1 + e2)).
Proof.
  unfold canonical. rewrite !fexp_eq. intros H1 H2.
  pose proof (Zdigits2_mult m1 m2).
  pose proof (Zdigits2_pos (Zpos m1) ltac:(lia)).
  pose proof (Zdigits2_pos (Zpos m2) ltac:(lia)).
  lia.
Qed.

Lemma SFsub_one_cases X :
  SFnot_neg X → valid_binary X = true →
  valid_binary (SFsub prec emax SF_one X) = true →
  SFsub prec emax SF_one X = S754_nan
  ∨ SFsub prec emax SF_one X = S754_infinity true
  ∨ (∃ s, SFsub prec emax SF_one X = S754_zero s)
  ∨ (∃ (m : positive) (e : Z), SFsub prec emax SF_one X = S754_finite true m e)
  ∨ (∃ (m : positive) (e : Z),
       SFsub prec emax SF_one X = S754_finite false m e
       ∧ (F2R (Zpos m) e <= 1)%R).
Proof.
  intros Hneg HvX Hvd.
  destruct X as [sx|[]| |[] mx ex]; try done.
  - do 4 right. exists 4503599627370496%positive, (-52).
    split; [done|]. rewrite F2R_SFone. lra.
  - by right; left.
  - by left.
  - pose proof (SFsub_le false 4503599627370496 (-52) mx ex valid_SFone) as Hle.
    fold SF_one in Hle.
    destruct (SFsub prec emax SF_one (S754_finite false mx ex))
      as [sd|sd| |sd md ed] eqn:E.
    + right; right; left. by exists sd.
    + destruct sd; [by right; left|done].
    + by left.
    + destruct sd; [right; right; right; left; by exists md, ed|].
      do 4 right. exists md, ed. split; [done|].
      rewrite <- F2R_SFone.
      by apply SFleb_finite_pos_F2R; [|apply valid_SFone|].
Qed.

Lemma SFmul_le_factor d P :
  d = S754_nan ∨ d = S754_infinity true ∨ (∃ s, d = S754_zero s)
  ∨ (∃ (m : positive) (e : Z), d = S754_finite true m e)
  ∨ (∃ (m : positive) (e : Z),
       d = S754_finite false m e ∧ (F2R (Zpos m) e <= 1)%R) →
  valid_binary d = true → SFnot_neg P → valid_binary P = true →
  SFmul prec emax d P = S754_nan ∨ SFleb (SFmul prec emax d P) P = true.
Proof.
  intros Hd Hvd Hneg HvP.
  destruct P as [sp|[]| |[] mp ep]; try done.
  - (* the price is a zero *)
    destruct Hd as [->|[->|[[s ->]|[(m & e & ->)|(m & e & -> & _)]]]];
      try (by left); right; by destruct sp; try destruct s.
  - (* the price is plus infinity *)
    destruct Hd as [->|[->|[[s ->]|[(m & e & ->)|(m & e & -> & _)]]]];
      try (by left); by right.
  - left. by destruct d.
  - (* the price is a positive number *)
    destruct Hd as [->|[->|[[s ->]|[(m & e & ->)|(m & e & -> & Hle)]]]].
    + by left.
    + by right.
    + right. by destruct s.
    + right.
      change (SFmul prec emax (S754_finite true m e) (S754_finite false mp ep))
        with (binary_round_aux prec emax true (Zpos (m * mp)) (e + ep) loc_Exact).
      destruct (binary_round_aux_sign true (Zpos (m * mp)) (e + ep) loc_Exact)
        as [->|[->|(p' & e' & ->)]]; done.
    + right.
      change (SFmul prec emax (S754_finite false m e) (S754_finite false mp ep))
        with (binary_round_aux prec emax false (Zpos (m * mp)) (e + ep) loc_Exact).
      destruct (valid_finite_inv _ _ _ HvP) as [Hc He].
      destruct (valid_finite_inv _ _ _ Hvd) as [Hcd _].
      apply binary_round_aux_upper; try done.
      * by apply product_exponent.
      * rewrite Pos2Z.inj_mul, F2R_mult.
        pose proof (F2R_pos_gt_0 mp ep) as Hp.
        pose proof (F2R_pos_gt_0 m e) as Hm.
        rewrite <- (Rmult_1_l (F2R (Zpos mp) ep)) at 2.
        apply Rmult_le_compat_r; lra.
Qed.

Lemma relative_stop_le_price (s p : float) :
  PrimFloat.ltb s 0 = false → PrimFloat.ltb p 0 = false →
  is_nan ((1 - s) * p) = true ∨ PrimFloat.leb ((1 - s) * p) p = true.
Proof.
  rewrite !FloatAxioms.ltb_spec, Prim2SF_0.
  intros Hs%SFltb_zero_not_neg Hp%SFltb_zero_not_neg.
  rewrite is_nan_spec, FloatAxioms.leb_spec, FloatAxioms.mul_spec.
  unfold SF64mul. apply SFmul_le_factor; auto using Prim2SF_valid.
  rewrite FloatAxioms.sub_spec, Prim2SF_1. unfold SF64sub.
  apply SFsub_one_cases; auto using Prim2SF_valid.
  pose proof (Prim2SF_valid (1 - s)) as Hv.
  by rewrite FloatAxioms.sub_spec, Prim2SF_1 in Hv.
Qed.

End RelativeThreshold.
End Binary64Order.

(** ** The fixed stop-loss mask: prices, stops and NaN *)

Section StoplossMask.
Implicit Types (entries : matrix bool) (ts stop : matrix f8).
Implicit Types (mask : list bool).

Lemma stoploss_exit_mask_nb_inv entries c t ts stop is_relative mask :
  stoploss_exit_mask_nb entries c t ts stop is_relative = Some mask →
  ∃ col s,
    column ts c = Some col ∧ at2 stop t c = Some s
    ∧ (if is_relative
       then ∃ p, at2 ts t c = Some p
                 ∧ mask = map (λ x, lt x ((1 - s) * p)%float) col
       else mask = map (λ x, lt x s) col).
Proof.
  unfold stoploss_exit_mask_nb. intros Hm.
  destruct (column ts c) as [col|] eqn:Hcol; [|done].
  destruct (at2 stop t c) as [s|] eqn:Hs; [|done].
  exists col, s. split_and!; try done.
  rewrite <- (column_lookup _ _ _ t Hcol).
  destruct is_relative; simpl in Hm.
  - destruct (col !! t) as [p|]; [|done]. exists p. split; [done|].
    by injection Hm.
  - by injection Hm.
Qed.

(** X1: with a relative stop that is not negative and an entry price that
    is not negative, the threshold [(1 - stop) * price] does not exceed the
    entry price: the bar of the entry is never flagged, and every flagged
    bar has a price strictly below the entry price. *)
Theorem stoploss_relative_flags_below_entry_price
    entries ts stop (c t : nat) mask (s p : f8) :
  stoploss_exit_mask_nb entries c t ts stop true = Some mask →
  at2 stop t c = Some s → at2 ts t c = Some p →
  PrimFloat.ltb s 0 = false → PrimFloat.ltb p 0 = false →
  mask !! t = Some false
  ∧ ∀ t', mask !! t' = Some true →
          ∃ x, at2 ts t' c = Some x ∧ PrimFloat.ltb x p = true.
Proof.
  intros (col & s' & Hcol & Hs' & p' & Hp' & ->)%stoploss_exit_mask_nb_inv
         Hs Hp Hsneg Hpneg.
  assert (s' = s) as -> by congruence. assert (p' = p) as -> by congruence.
  assert (∀ x, lt x ((1 - s) * p)%float = true → PrimFloat.ltb x p = true)
    as Hbelow.
  { intros x Hx.
    destruct (Binary64Order.relative_stop_le_price s p Hsneg Hpneg)
      as [Hnan|Hle].
    - unfold lt in Hx. by rewrite Binary64Order.ltb_nan in Hx by auto.
    - by apply (Binary64Order.ltb_leb_trans _ _ _ Hx). }
  split.
  - rewrite list_lookup_fmap, (column_lookup _ _ _ t Hcol), Hp. simpl.
    destruct (lt p ((1 - s) * p)%float) eqn:Hlt; [|done].
    apply Hbelow in Hlt. by rewrite ltb_irrefl in Hlt.
  - intros t'. rewrite list_lookup_fmap, (column_lookup _ _ _ t' Hcol).
    destruct (at2 ts t' c) as [x|]; [|done]. simpl. intros [= Hx].
    exists x. split; [done|]. by apply Hbelow.
Qed.

(** X2: with an absolute stop, raising the stop level keeps every flag:
    a bar flagged for the lower level is flagged for the higher one. *)
Theorem stoploss_absolute_mask_grows_with_stop
    entries ts stop1 stop2 (c t : nat) (mask1 mask2 : list bool) (s1 s2 : f8) :
  stoploss_exit_mask_nb entries c t ts stop1 false = Some mask1 →
  stoploss_exit_mask_nb entries c t ts stop2 false = Some mask2 →
  at2 stop1 t c = Some s1 → at2 stop2 t c = Some s2 →
  PrimFloat.leb s1 s2 = true →
  ∀ t', mask1 !! t' = Some true → mask2 !! t' = Some true.
Proof.
  intros (col1 & s1' & Hcol1 & Hs1' & ->)%stoploss_exit_mask_nb_inv
         (col2 & s2' & Hcol2 & Hs2' & ->)%stoploss_exit_mask_nb_inv
         Hs1 Hs2 Hle t'.
  assert (s1' = s1) as -> by congruence. assert (s2' = s2) as -> by congruence.
  assert (col2 = col1) as -> by congruence.
  rewrite !list_lookup_fmap. destruct (col1 !! t') as [x|]; [|done]. simpl.
  intros [= Hx]. f_equal. by apply (Binary64Order.ltb_leb_trans _ _ _ Hx).
Qed.

(** X3: NaN never triggers the stop-loss.  A bar whose price is NaN is not
    flagged; when the stop read at the entry is NaN no bar is flagged; and
    with a relative stop, no bar is flagged when the entry price is NaN. *)
Theorem stoploss_mask_never_flags_nan
    entries ts stop (c t : nat) (is_relative : bool) mask :
  stoploss_exit_mask_nb entries c t ts stop is_relative = Some mask →
  (∀ t' x, at2 ts t' c = Some x → is_nan x = true → mask !! t' = Some false)
  ∧ (∀ s, at2 stop t c = Some s → is_nan s = true →
          ∀ t', t' < length ts → mask !! t' = Some false)
  ∧ (∀ p, is_relative = true → at2 ts t c = Some p → is_nan p = true →
          ∀ t', t' < length ts → mask !! t' = Some false).
Proof.
  intros (col & s & Hcol & Hs & Hmask)%stoploss_exit_mask_nb_inv.
  assert (∃ thr, mask = map (λ x, lt x thr) col
                 ∧ (is_nan s = true → is_nan thr = true)
                 ∧ (∀ p, is_relative = true → at2 ts t c = Some p →
                         is_nan p = true → is_nan thr = true))
    as (thr & -> & Hthr_s & Hthr_p).
  { destruct is_relative.
    - destruct Hmask as (p & Hp & ->). exists ((1 - s) * p)%float.
      split_and!; [done| |].
      + intros Hnan. apply Binary64Order.arith_nan. left.
        apply Binary64Order.arith_nan. by right.
      + intros p' _ Hp' Hnan. assert (p' = p) as -> by congruence.
        apply Binary64Order.arith_nan. by right.
    - exists s. by split_and!. }
  assert (∀ t', t' < length ts → is_nan thr = true →
                map (λ x, lt x thr) col !! t' = Some false) as Hall.
  { intros t' Ht' Hnan. rewrite list_lookup_fmap.
    destruct (lookup_lt_is_Some_2 col t') as [x ->].
    - by rewrite (column_length _ _ _ Hcol).
    - simpl. unfold lt. by rewrite Binary64Order.ltb_nan by auto. }
  split_and!.
  - intros t' x Hx Hnan.
    rewrite list_lookup_fmap, (column_lookup _ _ _ t' Hcol), Hx. simpl.
    unfold lt. by rewrite Binary64Order.ltb_nan by auto.
  - intros s' Hs' Hnan t' Ht'. assert (s' = s) as -> by congruence. auto.
  - intros p Hrel Hp Hnan t' Ht'. eauto.
Qed.

End StoplossMask.

Lemma stoploss_relative_flags_below_entry_price_witness :
  [false; false; false; true] !! 0 = Some false
  ∧ ∀ t', [false; false; false; true] !! t' = Some true →
          ∃ x, at2 [[10]; [9]; [11]; [8]]%float t' 0 = Some x
               ∧ PrimFloat.ltb x 10 = true.
Proof.
  apply (stoploss_relative_flags_below_entry_price
           (to_2d [true; false; false; false]) [[10]; [9]; [11]; [8]]%float
           [[0.1]; [0.1]; [0.1]; [0.1]]%float 0 0
           [false; false; false; true] 0.1%float 10%float).
  - vm_compute. reflexivity.
  - reflexivity.
  - reflexivity.
  - reflexivity.
  - reflexivity.
Defined.

Lemma stoploss_absolute_mask_grows_with_stop_witness :
  PrimFloat.leb 8.5 9.5 = true
  ∧ ∀ t', [false; false; true] !! t' = Some true →
          [false; true; true] !! t' = Some true.
Proof.
  split; [reflexivity|].
  apply (stoploss_absolute_mask_grows_with_stop
           (to_2d [true; false; false]) [[10]; [9]; [8]]%float
           [[8.5]; [8.5]; [8.5]]%float [[9.5]; [9.5]; [9.5]]%float 0 0
           [false; false; true] [false; true; true] 8.5%float 9.5%float).
  - vm_compute. reflexivity.
  - vm_compute. reflexivity.
  - reflexivity.
  - reflexivity.
  - reflexivity.
Defined.

Lemma stoploss_mask_never_flags_nan_witness :
  (∀ t' x, at2 [[10]; [nan]; [8]]%float t' 0 = Some x → is_nan x = true →
           [false; false; true] !! t' = Some false)
  ∧ (∀ s, at2 [[0.1]; [0.1]; [0.1]]%float 0 0 = Some s → is_nan s = true →
          ∀ t', t' < length [[10]; [nan]; [8]]%float →
                [false; false; true] !! t' = Some false)
  ∧ (∀ p, true = true → at2 [[10]; [nan]; [8]]%float 0 0 = Some p →
          is_nan p = true →
          ∀ t', t' < length [[10]; [nan]; [8]]%float →
                [false; false; true] !! t' = Some false).
Proof.
  apply (stoploss_mask_never_flags_nan
           (to_2d [true; false; false]) [[10]; [nan]; [8]]%float
           [[0.1]; [0.1]; [0.1]]%float 0 0 true [false; false; true]).
  vm_compute. reflexivity.
Defined.

(** ** Sweeps over stops *)

Section AssembleShape.
Context {A B : Type}.

Lemma assemble_has_shape (g : B → option (matrix A)) xs T C v out :
  for_each (assemble g C) 0 xs (full T (C * length xs) v) = Some out →
  has_shape T (C * length xs) out.
Proof.
  intros Hout.
  apply (for_each_invariant _ (λ _ o, has_shape T (C * length xs) o)
           _ _ _ _ (full_has_shape _ _ _)) in Hout; [done|].
  intros j x s s' _ Hs Hb. unfold assemble in Hb.
  destruct (g x) as [src|]; [|done]. simpl in Hb.
  eauto using set_cols_has_shape.
Qed.

End AssembleShape.

Section StopSweeps.
Context `{Timeseries}.
Implicit Types (entries exits : matrix bool) (ts : matrix f8).
Implicit Types (stops : list (matrix f8)).

Lemma lookup_broadcast_array ss ts i s :
  ss !! i = Some s →
  broadcast_to_cube_of (StopArray ss) ts !! i
  = Some (full (shape0 ts) (shape1 ts) s).
Proof. intros Hs. simpl. by rewrite list_lookup_fmap, Hs. Qed.

(** X4: the stop-loss exits of a sweep over stops have a block of
    [ts.shape[1]] columns per stop, and block i is the output of the run
    with stop i alone; with an array of stop levels, block i is the run
    with the scalar stop i. *)
Theorem stoploss_sweep_block_is_single_stop_run
    ts entries (is_relative only_first : bool) (i : nat) :
  (∀ stops exits stop_i,
     stoploss_exits_nb ts entries stops is_relative only_first = Some exits →
     stops !! i = Some stop_i →
     has_shape (shape0 ts) (shape1 ts * length stops) exits
     ∧ stoploss_exits_nb ts entries [stop_i] is_relative only_first
       = Some (block i (shape1 ts) exits))
  ∧ (∀ ss exits s,
       generate_stoploss_exits ts entries (StopArray ss)
         is_relative only_first = Some exits →
       ss !! i = Some s →
       generate_stoploss_exits ts entries (StopScalar s)
         is_relative only_first = Some (block i (shape1 ts) exits)).
Proof.
  assert (∀ stops exits stop_i,
     stoploss_exits_nb ts entries stops is_relative only_first = Some exits →
     stops !! i = Some stop_i →
     has_shape (shape0 ts) (shape1 ts * length stops) exits
     ∧ stoploss_exits_nb ts entries [stop_i] is_relative only_first
       = Some (block i (shape1 ts) exits)) as Hnb.
  { intros stops exits stop_i Hex Hi. split.
    - exact (assemble_has_shape _ _ _ _ _ _ Hex).
    - exact (assemble_block _ _ _ _ _ _ _ _ Hex Hi). }
  split; [done|].
  intros ss exits s Hex Hi. unfold generate_stoploss_exits in *.
  by apply (Hnb _ _ _ Hex), lookup_broadcast_array.
Qed.

(** X5: the trailing-stop exits of a sweep over stops have a block of
    [ts.shape[1]] columns per stop, and block i is the output of the run
    with stop i alone; with an array of stop levels, block i is the run
    with the scalar stop i. *)
Theorem tstop_sweep_block_is_single_stop_run
    ts entries (is_relative only_first : bool) (i : nat) :
  (∀ stops exits stop_i,
     tstop_exits_nb ts entries stops is_relative only_first = Some exits →
     stops !! i = Some stop_i →
     has_shape (shape0 ts) (shape1 ts * length stops) exits
     ∧ tstop_exits_nb ts entries [stop_i] is_relative only_first
       = Some (block i (shape1 ts) exits))
  ∧ (∀ ss exits s,
       generate_tstop_exits ts entries (StopArray ss)
         is_relative only_first = Some exits →
       ss !! i = Some s →
       generate_tstop_exits ts entries (StopScalar s)
         is_relative only_first = Some (block i (shape1 ts) exits)).
Proof.
  assert (∀ stops exits stop_i,
     tstop_exits_nb ts entries stops is_relative only_first = Some exits →
     stops !! i = Some stop_i →
     has_shape (shape0 ts) (shape1 ts * length stops) exits
     ∧ tstop_exits_nb ts entries [stop_i] is_relative only_first
       = Some (block i (shape1 ts) exits)) as Hnb.
  { intros stops exits stop_i Hex Hi. split.
    - exact (assemble_has_shape _ _ _ _ _ _ Hex).
    - exact (assemble_block _ _ _ _ _ _ _ _ Hex Hi). }
  split; [done|].
  intros ss exits s Hex Hi. unfold generate_tstop_exits in *.
  by apply (Hnb _ _ _ Hex), lookup_broadcast_array.
Qed.

End StopSweeps.

Lemma stoploss_sweep_block_is_single_stop_run_witness :
  has_shape (shape0 (to_2d [10; 9; 11; 8; 12]%float))
    (shape1 (to_2d [10; 9; 11; 8; 12]%float)
     * length [full 5 1 0.3%float; full 5 1 0.1%float])
    [[false; false]; [false; false]; [false; false]; [false; true];
     [false; false]]
  ∧ stoploss_exits_nb (to_2d [10; 9; 11; 8; 12]%float)
      (to_2d [true; false; false; false; false]) [full 5 1 0.1%float]
      true true
    = Some (block 1 (shape1 (to_2d [10; 9; 11; 8; 12]%float))
              [[false; false]; [false; false]; [false; false];
               [false; true]; [false; false]]).
Proof.
  apply (proj1 (stoploss_sweep_block_is_single_stop_run
                  (to_2d [10; 9; 11; 8; 12]%float)
                  (to_2d [true; false; false; false; false]) true true 1)
           [full 5 1 0.3%float; full 5 1 0.1%float]).
  - vm_compute. reflexivity.
  - reflexivity.
Defined.

Lemma tstop_sweep_block_is_single_stop_run_witness :
  has_shape (shape0 (to_2d [10; 12; 11; 15; 9]%float))
    (shape1 (to_2d [10; 12; 11; 15; 9]%float)
     * length [full 5 1 0.5%float; full 5 1 0.2%float])
    [[false; false]; [false; false]; [false; false]; [false; false];
     [false; true]]
  ∧ tstop_exits_nb (H := SpecTimeseries.reference)
      (to_2d [10; 12; 11; 15; 9]%float)
      (to_2d [true; false; false; false; false]) [full 5 1 0.2%float]
      true true
    = Some (block 1 (shape1 (to_2d [10; 12; 11; 15; 9]%float))
              [[false; false]; [false; false]; [false; false];
               [false; false]; [false; true]]).
Proof.
  apply (proj1 (tstop_sweep_block_is_single_stop_run
                  (H := SpecTimeseries.reference)
                  (to_2d [10; 12; 11; 15; 9]%float)
                  (to_2d [true; false; false; false; false]) true true 1)
           [full 5 1 0.5%float; full 5 1 0.2%float]).
  - vm_compute. reflexivity.
  - reflexivity.
Defined.

(** ** The trailing stop with one stop level *)

Section TrailingStopConstant.
Context `{Timeseries}.
Implicit Types (entries : matrix bool) (ts stop : matrix f8).

Lemma foldl_fmin_replicate n (s : f8) :
  is_nan s = false → foldl fmin s (replicate n s) = s.
Proof.
  intros Hs. induction n as [|n IH]; [done|]. simpl.
  replace (fmin s s) with s; [done|].
  unfold fmin. by rewrite Hs, ltb_irrefl.
Qed.

Lemma foldl_fmax_replicate n (s : f8) :
  is_nan s = false → foldl fmax s (replicate n s) = s.
Proof.
  intros Hs. induction n as [|n IH]; [done|]. simpl.
  replace (fmax s s) with s; [done|].
  unfold fmax. by rewrite Hs, ltb_irrefl.
Qed.

Lemma concat_expand_dims {A} (v : list A) : concat (expand_dims v) = v.
Proof. induction v as [|x v IH]; [done|]. simpl. by rewrite IH. Qed.

Lemma min_max_constant n (s : f8) :
  is_nan s = false → 0 < n →
  Np.min (expand_dims (replicate n s)) = Some s
  ∧ Np.max (expand_dims (replicate n s)) = Some s.
Proof.
  intros Hs Hn. unfold Np.min, Np.max. rewrite concat_expand_dims.
  destruct n as [|n]; [lia|]. simpl.
  by rewrite foldl_fmin_replicate, foldl_fmax_replicate.
Qed.

Lemma column_zip_expand_dims {A B C} (f : A → B → C) (a : list A) (b : list B) :
  column (zip_with (zip_with f) (expand_dims a) (expand_dims b)) 0
  = Some (zip_with f a b).
Proof.
  revert b. induction a as [|x a IH]; intros [|y b]; try done.
  unfold column in *. simpl. by rewrite IH.
Qed.

Lemma ne_refl (s : f8) : is_nan s = false → ne s s = false.
Proof. unfold ne, is_nan. by intros ->%negb_false_iff. Qed.

(** X6: with an absolute stop that has one level [s] over the whole column,
    the trailing stop does not trail: its mask is the mask of the fixed
    stop-loss, [ts < s] on every bar. *)
Theorem tstop_absolute_constant_stop_is_stoploss
    entries ts stop (c t : nat) (mask : list bool) (s : f8) :
  tstop_exit_mask_nb entries c t ts stop false = Some mask →
  column stop c = Some (replicate (length ts) s) →
  is_nan s = false → t < length ts →
  stoploss_exit_mask_nb entries c t ts stop false = Some mask
  ∧ ∀ t', mask !! t' = (λ x, PrimFloat.ltb x s) <$> at2 ts t' c.
Proof.
  intros Hmask Hstop Hs Ht. unfold tstop_exit_mask_nb in Hmask.
  rewrite Hstop in Hmask.
  destruct (column ts c) as [col|] eqn:Hcol; [|done].
  pose proof (column_length _ _ _ Hcol) as Hlen.
  simpl in Hmask.
  destruct (set_rows_from _ _ _) as [peak|]; [|done]. simpl in Hmask.
  destruct (min_max_constant (length ts) s Hs) as [Hmin Hmax]; [lia|].
  rewrite Hmin in Hmask. simpl in Hmask. rewrite Hmax in Hmask.
  simpl in Hmask. rewrite (ne_refl s Hs) in Hmask. simpl in Hmask.
  destruct (elementwise lt _ _) as [below|] eqn:Hbelow; [|done].
  simpl in Hmask.
  apply elementwise_Some in Hbelow as [_ ->].
  rewrite column_zip_expand_dims in Hmask. injection Hmask as <-.
  rewrite zip_with_replicate_r by lia.
  assert (at2 stop t c = Some s) as Hst.
  { rewrite <- (column_lookup _ _ _ t Hstop). by apply lookup_replicate_2. }
  split.
  - unfold stoploss_exit_mask_nb. rewrite Hcol. simpl. by rewrite Hst.
  - intros t'. by rewrite list_lookup_fmap, (column_lookup _ _ _ t' Hcol).
Qed.

End TrailingStopConstant.

Lemma tstop_absolute_constant_stop_is_stoploss_witness :
  stoploss_exit_mask_nb (to_2d [false; true; false]) 0 1
    [[1]; [12]; [5]]%float [[6]; [6]; [6]]%float false
  = Some [true; false; true]
  ∧ ∀ t', [true; false; true] !! t'
          = (λ x, PrimFloat.ltb x 6) <$> at2 [[1]; [12]; [5]]%float t' 0.
Proof.
  apply (tstop_absolute_constant_stop_is_stoploss
           (H := SpecTimeseries.reference)
           (to_2d [false; true; false]) [[1]; [12]; [5]]%float
           [[6]; [6]; [6]]%float 0 1 [true; false; true] 6%float).
  - vm_compute. reflexivity.
  - reflexivity.
  - reflexivity.
  - simpl. lia.
Defined.

(** ** Matrices by their cells and their blocks *)

Section MatrixFacts.
Context {A : Type}.
Implicit Types (a b : matrix A) (r : list A).

Lemma has_shape_at2 T N a t c :
  has_shape T N a → t < T → c < N → is_Some (at2 a t c).
Proof.
  intros [Hl Hrows] Ht Hc. unfold at2.
  destruct (lookup_lt_is_Some_2 a t) as [r Hr]; [lia|]. rewrite Hr. simpl.
  apply lookup_lt_is_Some_2.
  by rewrite (Forall_lookup_1 _ _ _ _ Hrows Hr).
Qed.

Lemma at2_bounds T N a t c v :
  has_shape T N a → at2 a t c = Some v → t < T ∧ c < N.
Proof.
  intros [Hl Hrows]. unfold at2.
  destruct (a !! t) as [r|] eqn:Hr; [|done]. simpl. intros Hc.
  rewrite <- Hl, <- (Forall_lookup_1 _ _ _ _ Hrows Hr).
  split; by eapply lookup_lt_Some.
Qed.

Lemma at2_block_eq a i C t c :
  c < C → at2 (block i C a) t c = at2 a t (i * C + c).
Proof.
  intros Hc. unfold at2, block. rewrite list_lookup_fmap.
  destruct (a !! t) as [r|]; simpl; [|done].
  by rewrite lookup_take_lt, lookup_drop.
Qed.

Lemma has_shape_ext T N a b :
  has_shape T N a → has_shape T N b →
  (∀ t c, t < T → c < N → at2 a t c = at2 b t c) → a = b.
Proof.
  intros [Hla Hra] [Hlb Hrb] Hcells. apply list_eq. intros t.
  destruct (decide (t < T)) as [Ht|Ht].
  - destruct (lookup_lt_is_Some_2 a t) as [ra Ha]; [lia|].
    destruct (lookup_lt_is_Some_2 b t) as [rb Hb]; [lia|].
    rewrite Ha, Hb. f_equal. apply list_eq. intros c.
    pose proof (Forall_lookup_1 _ _ _ _ Hra Ha) as Hna.
    pose proof (Forall_lookup_1 _ _ _ _ Hrb Hb) as Hnb.
    simpl in Hna, Hnb.
    destruct (decide (c < N)) as [Hc|Hc].
    + specialize (Hcells t c Ht Hc). unfold at2 in Hcells.
      by rewrite Ha, Hb in Hcells.
    + rewrite !lookup_ge_None_2; [done|lia|lia].
  - rewrite !lookup_ge_None_2; [done|lia|lia].
Qed.

Lemma blocks_ext T C P a b :
  has_shape T (C * P) a → has_shape T (C * P) b →
  (∀ i, i < P → block i C a = block i C b) → a = b.
Proof.
  intros Ha Hb Hblocks. apply (has_shape_ext T (C * P)); [done..|].
  intros t c Ht Hc.
  assert (0 < C) as HC by (destruct C; lia).
  assert (c = c / C * C + c mod C) as Hsplit
    by (rewrite (Nat.div_mod_eq c C) at 1; lia).
  assert (c mod C < C) as Hmod by (apply Nat.mod_upper_bound; lia).
  assert (c / C < P) as Hdiv by (apply Nat.Div0.div_lt_upper_bound; lia).
  rewrite Hsplit, <- !at2_block_eq by done. by rewrite Hblocks.
Qed.

Lemma block_has_shape T N a i C :
  has_shape T N a → i * C + C ≤ N → has_shape T C (block i C a).
Proof.
  intros [Hl Hrows] Hi. unfold block. split; [by rewrite length_map|].
  apply Forall_fmap, (Forall_impl _ _ _ Hrows). intros r Hr. simpl.
  rewrite length_take, length_drop. lia.
Qed.

End MatrixFacts.

Section ElementwiseFacts.
Context {A B C : Type}.
Implicit Types (a : matrix A) (b : matrix B) (f : A → B → C).

Lemma has_shape_same_shape T N a b :
  has_shape T N a → has_shape T N b → same_shape a b = true.
Proof.
  intros [Hla Hra] [Hlb Hrb]. unfold same_shape.
  apply andb_true_intro. split; [apply Nat.eqb_eq; lia|].
  apply forallb_forall. intros [ra rb] Hin.
  apply list_elem_of_In, list_elem_of_lookup in Hin as [t Ht].
  apply lookup_zip_with_Some in Ht as (ra' & rb' & [= <- <-] & Ha & Hb).
  apply Nat.eqb_eq. simpl.
  by rewrite (Forall_lookup_1 _ _ _ _ Hra Ha), (Forall_lookup_1 _ _ _ _ Hrb Hb).
Qed.

Lemma elementwise_has_shape f a b z T N :
  elementwise f a b = Some z → has_shape T N a → has_shape T N z.
Proof.
  intros Hz [Hl Hrows]. split; [by rewrite (elementwise_length _ _ _ _ Hz)|].
  apply Forall_lookup. intros t r Hr.
  pose proof (elementwise_Some _ _ _ _ Hz) as [Hs ->].
  apply lookup_zip_with_Some in Hr as (ra & rb & -> & Ha & Hb).
  rewrite length_zip_with, <- (same_shape_rows _ _ _ _ _ Hs Ha Hb).
  rewrite (Forall_lookup_1 _ _ _ _ Hrows Ha). lia.
Qed.

Lemma elementwise_is_Some f a b T N :
  has_shape T N a → has_shape T N b →
  ∃ z, elementwise f a b = Some z ∧ has_shape T N z.
Proof.
  intros Ha Hb. unfold elementwise.
  rewrite (has_shape_same_shape _ _ _ _ Ha Hb). eexists. split; [done|].
  apply (elementwise_has_shape f a b); [|done].
  unfold elementwise. by rewrite (has_shape_same_shape _ _ _ _ Ha Hb).
Qed.

Lemma elementwise_flip f a b :
  elementwise (flip f) b a = elementwise f a b.
Proof.
  unfold elementwise.
  assert (same_shape b a = same_shape a b) as ->.
  { unfold same_shape. rewrite (Nat.eqb_sym (length b)). f_equal.
    revert b. induction a as [|ra a IH]; intros [|rb b]; try done. simpl.
    by rewrite IH, (Nat.eqb_sym (length rb)). }
  destruct (same_shape a b); [|done]. f_equal.
  revert b. induction a as [|ra a IH]; intros [|rb b]; try done. simpl.
  by rewrite IH, zip_with_flip.
Qed.

End ElementwiseFacts.

Section TileFacts.
Context {A : Type}.
Implicit Types (a : matrix A) (r : list A).

Lemma length_concat_replicate P r :
  length (concat (replicate P r)) = length r * P.
Proof.
  induction P as [|P IH]; simpl; [lia|]. rewrite length_app, IH. lia.
Qed.

Lemma lookup_concat_replicate P r i c :
  i < P → c < length r → concat (replicate P r) !! (i * length r + c) = r !! c.
Proof.
  revert i. induction P as [|P IH]; intros i Hi Hc; [lia|]. simpl.
  destruct i as [|i].
  - by rewrite lookup_app_l by (simpl; lia).
  - rewrite lookup_app_r by (simpl; lia).
    replace (S i * length r + c - length r) with (i * length r + c)
      by (simpl; lia).
    apply IH; lia.
Qed.

Lemma tile_has_shape T N a P :
  has_shape T N a → has_shape T (N * P) (tile a P).
Proof.
  intros [Hl Hrows]. unfold tile. split; [by rewrite length_map|].
  apply Forall_fmap, (Forall_impl _ _ _ Hrows). intros r Hr. simpl.
  by rewrite length_concat_replicate, Hr.
Qed.

Lemma at2_tile T N a P t i c :
  has_shape T N a → i < P → c < N →
  at2 (tile a P) t (i * N + c) = at2 a t c.
Proof.
  intros [Hl Hrows] Hi Hc. unfold at2, tile. rewrite list_lookup_fmap.
  destruct (a !! t) as [r|] eqn:Hr; simpl; [|done].
  pose proof (Forall_lookup_1 _ _ _ _ Hrows Hr) as Hlen. simpl in Hlen.
  rewrite <- Hlen. apply lookup_concat_replicate; lia.
Qed.

End TileFacts.

(** ** MovingAverage: shapes, equal windows, swapped windows, warm-up *)

Section MovingAverageFurther.
Context `{Timeseries}.
Implicit Types (ts : matrix f8) (fast_windows slow_windows : list Z).

Lemma MovingAverage_init_inv ts fast_windows slow_windows ewm adjust mp self :
  MovingAverage_init ts fast_windows slow_windows ewm adjust mp = Some self →
  ma_nb ts fast_windows slow_windows ewm adjust mp
  = Some (fast_mas self, slow_mas self).
Proof.
  unfold MovingAverage_init.
  destruct (ma_nb _ _ _ _ _ _) as [[F S]|]; [|done]. by intros [= <-].
Qed.

Lemma ma_nb_has_shape ts fast_windows slow_windows ewm adjust mp F S :
  ma_nb ts fast_windows slow_windows ewm adjust mp = Some (F, S) →
  has_shape (shape0 ts) (shape1 ts * length fast_windows) F
  ∧ has_shape (shape0 ts) (shape1 ts * length fast_windows) S.
Proof.
  unfold ma_nb. intros Hrun.
  destruct (ma_cache _ _ _ _ _ _) as [[cache_d log]|]; [|done].
  cbn [mbind option_bind] in Hrun.
  set (T := shape0 ts) in *. set (N := shape1 ts * length fast_windows) in *.
  apply (for_each_invariant _
           (λ _ out, has_shape T N out.1 ∧ has_shape T N out.2)) in Hrun.
  - done.
  - split; apply full_has_shape.
  - intros j x [F0 S0] [F1 S1] _ [HF0 HS0] Hbody. simpl in *.
    destruct (cache_d !! x) as [fm|]; [|done]. simpl in Hbody.
    destruct (set_cols F0 _ _ fm) as [F'|] eqn:HF'; [|done]. simpl in Hbody.
    destruct (slow_windows !! j) as [sw|]; [|done]. simpl in Hbody.
    destruct (cache_d !! sw) as [sm|]; [|done]. simpl in Hbody.
    destruct (set_cols S0 _ _ sm) as [S'|] eqn:HS'; [|done]. simpl in Hbody.
    injection Hbody as <- <-.
    split; [exact (set_cols_has_shape _ _ _ _ _ _ _ HF0 HF')
           |exact (set_cols_has_shape _ _ _ _ _ _ _ HS0 HS')].
Qed.

Lemma ma_nb_entries ts fast_windows slow_windows ewm adjust mp F S :
  ma_nb ts fast_windows slow_windows ewm adjust mp = Some (F, S) →
  ∀ w, w ∈ fast_windows ++ slow_windows →
       is_Some (ma_entry ts ewm adjust mp w).
Proof.
  unfold ma_nb, ma_cache. intros Hrun w Hw.
  destruct (fill_cache _ _) as [[cache_d log]|] eqn:Hcache; [|done].
  apply fill_cache_Some in Hcache as (_ & Hin & _).
  by apply Hin, elem_of_unique.
Qed.

Lemma ma_nb_is_Some ts fast_windows slow_windows ewm adjust mp :
  (∀ w, w ∈ fast_windows ++ slow_windows →
        is_Some (ma_entry ts ewm adjust mp w)) →
  (∀ i fw, fast_windows !! i = Some fw →
     ∃ sw fm sm,
       slow_windows !! i = Some sw
       ∧ ma_entry ts ewm adjust mp fw = Some fm
       ∧ ma_entry ts ewm adjust mp sw = Some sm
       ∧ has_shape (shape0 ts) (shape1 ts) fm
       ∧ has_shape (shape0 ts) (shape1 ts) sm) →
  is_Some (ma_nb ts fast_windows slow_windows ewm adjust mp).
Proof.
  intros Hall Hpairs. unfold ma_nb, ma_cache.
  destruct (fill_cache_is_Some (ma_entry ts ewm adjust mp)
              (unique (fast_windows ++ slow_windows))) as [[cache_d log] Hcache].
  { intros w Hw. by apply Hall, (proj1 (elem_of_unique _ _)). }
  rewrite Hcache. cbn [mbind option_bind].
  apply fill_cache_Some in Hcache as (_ & Hin & _).
  set (T := shape0 ts) in *. set (C := shape1 ts) in *.
  set (N := C * length fast_windows) in *.
  apply (for_each_is_Some _
           (λ _ out, has_shape T N out.1 ∧ has_shape T N out.2)).
  - split; apply full_has_shape.
  - intros j fw [F0 S0] Hfw [HF0 HS0]. simpl in *.
    destruct (Hpairs j fw Hfw) as (sw & fm & sm & Hsw & Hfm & Hsm & Hfs & Hss).
    assert (j * C + C ≤ N) as Hfit.
    { apply lookup_lt_Some in Hfw. unfold N. nia. }
    assert (cache_d !! fw = Some fm) as ->.
    { rewrite <- Hfm. apply Hin, elem_of_unique, elem_of_app. left.
      by eapply list_elem_of_lookup_2. }
    assert (cache_d !! sw = Some sm) as Hcs.
    { rewrite <- Hsm. apply Hin, elem_of_unique, elem_of_app. right.
      by eapply list_elem_of_lookup_2. }
    simpl.
    destruct (set_cols_is_Some F0 (j * C) C fm T N HF0 Hfs Hfit) as [F' HF'].
    destruct (set_cols_is_Some S0 (j * C) C sm T N HS0 Hss Hfit) as [S' HS'].
    rewrite HF'. simpl. rewrite Hsw. simpl. rewrite Hcs. simpl.
    rewrite HS'. simpl. eexists. split; [done|]. simpl.
    split; [exact (set_cols_has_shape _ _ _ _ _ _ _ HF0 HF')
           |exact (set_cols_has_shape _ _ _ _ _ _ _ HS0 HS')].
Qed.

(** X7: where the fast and the slow window of a position are the same
    window, the two averages of that block are the same and the crossover
    has no signal there: no cell of the block is an entry or an exit. *)
Theorem MovingAverage_equal_windows_no_signal
    ts fast_windows slow_windows (ewm adjust mp : bool) (self : MovingAverage)
    (entries exits : matrix bool) (i : nat) (w : Z) :
  MovingAverage_init ts fast_windows slow_windows ewm adjust mp = Some self →
  MovingAverage_generate_entries self = Some entries →
  MovingAverage_generate_exits self = Some exits →
  fast_windows !! i = Some w → slow_windows !! i = Some w →
  block i (shape1 ts) (fast_mas self) = block i (shape1 ts) (slow_mas self)
  ∧ ∀ t c, t < shape0 ts → c < shape1 ts →
           at2 entries t (i * shape1 ts + c) = Some false
           ∧ at2 exits t (i * shape1 ts + c) = Some false.
Proof.
  intros Hrun%MovingAverage_init_inv Hen Hex Hfw Hsw.
  destruct (ma_nb_blocks _ _ _ _ _ _ _ _ Hrun i w Hfw)
    as (sw & Hsw' & Hf & Hs & HFs & _).
  assert (sw = w) as -> by congruence.
  assert (block i (shape1 ts) (fast_mas self)
          = block i (shape1 ts) (slow_mas self)) as Heq by congruence.
  split; [done|].
  intros t c Ht Hc.
  destruct (has_shape_at2 _ _ _ t c HFs Ht Hc) as [x Hx].
  pose proof Hx as Hy. rewrite Heq in Hy.
  rewrite at2_block_eq in Hx, Hy by done.
  rewrite (elementwise_at2 _ _ _ _ _ _ _ _ Hen Hx Hy),
          (elementwise_at2 _ _ _ _ _ _ _ _ Hex Hx Hy).
  unfold gt, lt. by rewrite ltb_irrefl.
Qed.

(** X8: swapping the fast and the slow windows swaps the two averages, and
    with them the signals: the entries of one crossover are the exits of
    the other. *)
Theorem MovingAverage_swapped_windows_swap_signals
    ts fast_windows slow_windows (ewm adjust mp : bool) (self : MovingAverage) :
  MovingAverage_init ts fast_windows slow_windows ewm adjust mp = Some self →
  length fast_windows = length slow_windows →
  ∃ swapped,
    MovingAverage_init ts slow_windows fast_windows ewm adjust mp
    = Some swapped
    ∧ fast_mas swapped = slow_mas self
    ∧ slow_mas swapped = fast_mas self
    ∧ MovingAverage_generate_entries swapped
      = MovingAverage_generate_exits self
    ∧ MovingAverage_generate_exits swapped
      = MovingAverage_generate_entries self.
Proof.
  intros Hrun%MovingAverage_init_inv Hlen.
  destruct (ma_nb_has_shape _ _ _ _ _ _ _ _ Hrun) as [HF HS].
  pose proof (ma_nb_blocks _ _ _ _ _ _ _ _ Hrun) as Hblocks.
  destruct (ma_nb_is_Some ts slow_windows fast_windows ewm adjust mp)
    as [[F' S'] Hrun'].
  { intros w Hw. apply (ma_nb_entries _ _ _ _ _ _ _ _ Hrun).
    apply elem_of_app. apply elem_of_app in Hw. tauto. }
  { intros i sw Hsw.
    destruct (lookup_lt_is_Some_2 fast_windows i) as [fw Hfw].
    { apply lookup_lt_Some in Hsw. lia. }
    destruct (Hblocks i fw Hfw) as (sw' & Hsw' & Hf & Hs & HFs & HSs).
    assert (sw' = sw) as -> by congruence. eauto 10. }
  destruct (ma_nb_has_shape _ _ _ _ _ _ _ _ Hrun') as [HF' HS'].
  pose proof (ma_nb_blocks _ _ _ _ _ _ _ _ Hrun') as Hblocks'.
  rewrite <- Hlen in HF', HS'.
  assert (F' = slow_mas self ∧ S' = fast_mas self) as [-> ->].
  { split; apply (blocks_ext (shape0 ts) (shape1 ts) (length fast_windows));
      try done; intros i Hi.
    - destruct (lookup_lt_is_Some_2 fast_windows i Hi) as [fw Hfw].
      destruct (Hblocks i fw Hfw) as (sw & Hsw & Hf & Hs & _).
      destruct (Hblocks' i sw Hsw) as (fw' & Hfw' & Hf' & Hs' & _).
      congruence.
    - destruct (lookup_lt_is_Some_2 fast_windows i Hi) as [fw Hfw].
      destruct (Hblocks i fw Hfw) as (sw & Hsw & Hf & Hs & _).
      destruct (Hblocks' i sw Hsw) as (fw' & Hfw' & Hf' & Hs' & _).
      assert (fw' = fw) as -> by congruence. congruence. }
  exists {| fast_mas := slow_mas self; slow_mas := fast_mas self |}.
  split_and!; try done.
  - unfold MovingAverage_init. by rewrite Hrun'.
  - exact (elementwise_flip lt (fast_mas self) (slow_mas self)).
  - exact (elementwise_flip gt (fast_mas self) (slow_mas self)).
Qed.

End MovingAverageFurther.

Lemma MovingAverage_equal_windows_no_signal_witness :
  let ts := [[3]; [3]; [6]; [9]]%float in
  let self := {| fast_mas := [[nan; nan]; [nan; nan]; [4.5; 4.5]; [7.5; 7.5]]%float;
                 slow_mas := [[nan; nan]; [nan; nan]; [nan; 4.5]; [6; 7.5]]%float |} in
  block 1 (shape1 ts) (fast_mas self) = block 1 (shape1 ts) (slow_mas self)
  ∧ ∀ t c, t < shape0 ts → c < shape1 ts →
           at2 [[false; false]; [false; false]; [false; false];
                [true; false]] t (1 * shape1 ts + c) = Some false
           ∧ at2 [[false; false]; [false; false]; [false; false];
                  [false; false]] t (1 * shape1 ts + c) = Some false.
Proof.
  apply (MovingAverage_equal_windows_no_signal (H := SpecTimeseries.reference)
           [[3]; [3]; [6]; [9]]%float [2%Z; 2%Z] [3%Z; 2%Z] false false true
           {| fast_mas := [[nan; nan]; [nan; nan]; [4.5; 4.5]; [7.5; 7.5]]%float;
              slow_mas := [[nan; nan]; [nan; nan]; [nan; 4.5]; [6; 7.5]]%float |}
           [[false; false]; [false; false]; [false; false]; [true; false]]
           [[false; false]; [false; false]; [false; false]; [false; false]]
           1 2%Z).
  - vm_compute. reflexivity.
  - vm_compute. reflexivity.
  - vm_compute. reflexivity.
  - reflexivity.
  - reflexivity.
Defined.

Lemma MovingAverage_swapped_windows_swap_signals_witness :
  let self := {| fast_mas := [[nan]; [nan]; [4.5]; [7.5]]%float;
                 slow_mas := [[nan]; [nan]; [nan]; [6]]%float |} in
  ∃ swapped,
    MovingAverage_init (H := SpecTimeseries.reference)
      [[3]; [3]; [6]; [9]]%float [3%Z] [2%Z] false false true
    = Some swapped
    ∧ fast_mas swapped = slow_mas self
    ∧ slow_mas swapped = fast_mas self
    ∧ MovingAverage_generate_entries swapped
      = MovingAverage_generate_exits self
    ∧ MovingAverage_generate_exits swapped
      = MovingAverage_generate_entries self.
Proof.
  apply (MovingAverage_swapped_windows_swap_signals
           (H := SpecTimeseries.reference)
           [[3]; [3]; [6]; [9]]%float [2%Z] [3%Z] false false true).
  - vm_compute. reflexivity.
  - reflexivity.
Defined.

(** ** The warm-up rows *)

Section WarmUp.
Context {A : Type}.

Lemma set_rows_until_cell (a : matrix A) (w : Z) (v : A) T N t c :
  has_shape T N (set_rows_until a w v) →
  (Z.of_nat t < w)%Z → t < T → c < N →
  at2 (set_rows_until a w v) t c = Some v.
Proof.
  intros Hshape Hw Ht Hc.
  destruct (set_rows_until_has_shape _ _ _ _ _ Hshape) as [Hl Hrows].
  destruct (lookup_lt_is_Some_2 a t) as [r Hr]; [lia|].
  pose proof (Forall_lookup_1 _ _ _ _ Hrows Hr) as Hlen. simpl in Hlen.
  unfold at2. rewrite (set_rows_until_forced a w v t r) by (done || lia).
  simpl. apply lookup_replicate_2. lia.
Qed.

End WarmUp.

Section MovingAverageWarmUp.
Context `{Timeseries}.

Lemma is_nan_nan : is_nan nan = true.
Proof. reflexivity. Qed.

Lemma ma_entry_warmup (ts : matrix f8) ewm adjust (w : Z) m T N t c :
  ma_entry ts ewm adjust true w = Some m → has_shape T N m →
  (Z.of_nat t < w)%Z → t < T → c < N →
  at2 m t c = Some nan.
Proof.
  unfold ma_entry. intros Hm Hshape Hw Ht Hc.
  destruct (if ewm then _ else _) as [ma|]; [|done].
  injection Hm as <-. by eapply set_rows_until_cell.
Qed.

(** X9: with [min_periods], a crossover has no signal during the warm-up:
    on a row before the fast or the slow window of block i, no cell of the
    block is an entry or an exit. *)
Theorem MovingAverage_no_signal_during_warmup
    (ts : matrix f8) (fast_windows slow_windows : list Z) (ewm adjust : bool)
    (self : MovingAverage) (entries exits : matrix bool)
    (i t c : nat) (fw sw : Z) :
  MovingAverage_init ts fast_windows slow_windows ewm adjust true = Some self →
  MovingAverage_generate_entries self = Some entries →
  MovingAverage_generate_exits self = Some exits →
  fast_windows !! i = Some fw → slow_windows !! i = Some sw →
  (Z.of_nat t < Z.max fw sw)%Z → t < shape0 ts → c < shape1 ts →
  at2 entries t (i * shape1 ts + c) = Some false
  ∧ at2 exits t (i * shape1 ts + c) = Some false.
Proof.
  intros Hrun%MovingAverage_init_inv Hen Hex Hfw Hsw Hw Ht Hc.
  destruct (ma_nb_blocks _ _ _ _ _ _ _ _ Hrun i fw Hfw)
    as (sw' & Hsw' & Hf & Hs & HFs & HSs).
  assert (sw' = sw) as -> by congruence.
  destruct (has_shape_at2 _ _ _ t c HFs Ht Hc) as [x Hx].
  destruct (has_shape_at2 _ _ _ t c HSs Ht Hc) as [y Hy].
  assert (is_nan x = true ∨ is_nan y = true) as Hnan.
  { destruct (Z.max_spec fw sw) as [[_ Hmax]|[_ Hmax]]; rewrite Hmax in Hw.
    - right. rewrite (ma_entry_warmup _ _ _ _ _ _ _ t c Hs HSs Hw Ht Hc) in Hy.
      by injection Hy as <-.
    - left. rewrite (ma_entry_warmup _ _ _ _ _ _ _ t c Hf HFs Hw Ht Hc) in Hx.
      by injection Hx as <-. }
  rewrite at2_block_eq in Hx, Hy by done.
  rewrite (elementwise_at2 _ _ _ _ _ _ _ _ Hen Hx Hy),
          (elementwise_at2 _ _ _ _ _ _ _ _ Hex Hx Hy).
  unfold gt, lt.
  rewrite !Binary64Order.ltb_nan; [done|tauto|tauto].
Qed.

End MovingAverageWarmUp.

Lemma MovingAverage_no_signal_during_warmup_witness :
  at2 [[false]; [false]; [false]; [true]] 2
    (0 * shape1 [[3]; [3]; [6]; [9]]%float + 0) = Some false
  ∧ at2 [[false]; [false]; [false]; [false]] 2
      (0 * shape1 [[3]; [3]; [6]; [9]]%float + 0) = Some false.
Proof.
  apply (MovingAverage_no_signal_during_warmup (H := SpecTimeseries.reference)
           [[3]; [3]; [6]; [9]]%float [2%Z] [3%Z] false false
           {| fast_mas := [[nan]; [nan]; [4.5]; [7.5]]%float;
              slow_mas := [[nan]; [nan]; [nan]; [6]]%float |}
           [[false]; [false]; [false]; [true]]
           [[false]; [false]; [false]; [false]] 0 2 0 2%Z 3%Z).
  - vm_compute. reflexivity.
  - reflexivity.
  - reflexivity.
  - reflexivity.
  - reflexivity.
  - lia.
  - simpl. lia.
  - simpl. lia.
Defined.

(** ** Quotients and differences in the cells of the bands *)

Module Binary64Quotients.
Import Binary64 Binary64Facts Binary64Order.
Local Open Scope Z_scope.

Section Quotients.
Implicit Types x y d : float.

Lemma not_SFfinite_not_finite x : ¬ SFfinite (Prim2SF x) → is_finite x = false.
Proof.
  intros Hn. destruct (is_finite x) eqn:E; [|done].
  by apply is_finite_SFfinite in E.
Qed.

Lemma SFdiv_self s (m : positive) e :
  SFdiv prec emax (S754_finite s m e) (S754_finite s m e) = SF_one.
Proof.
  unfold SFdiv.
  destruct (SFdiv_core_binary_spec m e m e) as [_ ->].
  rewrite !Z.sub_diag.
  change (Z.min (fexp 0) 0) with (-53).
  change (0 - -53) with 53.
  rewrite (Z.mul_comm (Zpos m)), Z.div_mul, Z.mod_mul by lia.
  rewrite (proj2 (new_location_exact (Zpos m) 0)) by done.
  destruct s; vm_compute; reflexivity.
Qed.

Lemma div_self d :
  is_finite d = true → PrimFloat.eqb d 0 = false → (d / d)%float = 1%float.
Proof.
  intros Hfin Hnz. apply Prim2SF_inj.
  rewrite FloatAxioms.div_spec, Prim2SF_1. unfold SF64div.
  apply is_finite_SFfinite in Hfin.
  rewrite FloatAxioms.eqb_spec, Prim2SF_0 in Hnz.
  destruct (Prim2SF d) as [s|s| |s m e]; try done.
  apply SFdiv_self.
Qed.

Lemma SFsub_self X : SFfinite X → SFsub prec emax X X = S754_zero false.
Proof.
  destruct X as [s|s| |s m e]; try done; intros _.
  - by destruct s.
  - unfold SFsub. by rewrite Z.sub_diag.
Qed.

Lemma sub_self x : is_finite x = true → (x - x)%float = 0%float.
Proof.
  intros Hfin%is_finite_SFfinite. apply Prim2SF_inj.
  rewrite FloatAxioms.sub_spec, Prim2SF_0. by apply SFsub_self.
Qed.

Lemma zero_div d :
  is_finite d = true → PrimFloat.eqb d 0 = false →
  PrimFloat.eqb (0 / d) 0 = true.
Proof.
  intros Hfin%is_finite_SFfinite Hnz.
  rewrite FloatAxioms.eqb_spec, Prim2SF_0 in Hnz.
  rewrite FloatAxioms.eqb_spec, FloatAxioms.div_spec, Prim2SF_0.
  unfold SF64div.
  destruct (Prim2SF d) as [s|s| |s m e]; try done.
Qed.

(** A quotient by the difference of two equal numbers is NaN or infinite. *)
Lemma div_by_difference_of_equals x y z :
  PrimFloat.eqb y z = true → is_finite (x / (y - z)) = false.
Proof.
  rewrite FloatAxioms.eqb_spec. intros Heq.
  apply not_SFfinite_not_finite.
  rewrite FloatAxioms.div_spec, FloatAxioms.sub_spec.
  unfold SF64div, SF64sub.
  assert (SFsub prec emax (Prim2SF y) (Prim2SF z) = S754_nan
          ∨ ∃ s, SFsub prec emax (Prim2SF y) (Prim2SF z) = S754_zero s)
    as [-> | [s ->]].
  { unfold SFeqb in Heq.
    destruct (Prim2SF y) as [sy|sy| |sy my ey],
             (Prim2SF z) as [sz|sz| |sz mz ez]; simpl in Heq; try done.
    all: try (destruct sy; done). all: try (destruct sz; done).
    - right. destruct sy, sz; by eexists.
    - left. by destruct sy, sz.
    - right. exists false.
      assert (sy = sz ∧ ey = ez ∧ my = mz) as (-> & -> & ->).
      { destruct sy, sz; try done;
          destruct (ey ?= ez) eqn:He; try done;
          apply Z.compare_eq in He;
          destruct (Pos.compare_cont Eq my mz) eqn:Hm; try done;
          by apply Pos.compare_eq in Hm. }
      by apply SFsub_self. }
  - destruct (Prim2SF x); simpl; tauto.
  - destruct (Prim2SF x); simpl; tauto.
Qed.

End Quotients.

(** The width of two ordered bands, and its quotient by a positive
    middle band, are not negative. *)
Section Widths.

Lemma Pclass_nonneg p : Pclass p → SFleb (S754_zero false) p = true.
Proof. by intros [[s ->]|[->|(m & e & ->)]]. Qed.

Lemma binary_normalize_Pclass z e :
  (0 <= F2R z e)%R → Pclass (binary_normalize prec emax z e false).
Proof.
  intros Hz. assert (0 ≤ z) as Hz'.
  { apply (F2R_le_inv 0 z e). by rewrite F2R_0. }
  destruct z as [|m|m]; [|apply SFnonneg_Pclass, binary_round_nonneg|lia].
  left. by exists false.
Qed.

Lemma SFsub_ordered_Pclass A B :
  valid_binary A = true → valid_binary B = true →
  SFleb B A = true → A ≠ S754_infinity true → B ≠ S754_infinity false →
  Pclass (SFsub prec emax A B).
Proof.
  intros HvA HvB Hle HA HB.
  destruct (SFleb_not_nan _ _ Hle) as [HBn HAn].
  pose proof (proj1 (SFleb_SFval B A HvB HvA HBn HAn) Hle) as Hval.
  destruct A as [sa|[]| |sa ma ea], B as [sb|[]| |sb mb eb]; try done.
  - left. destruct sa, sb; by eexists.
  - by right; left.
  - destruct sb; [|done]. right; right. by exists mb, eb.
  - by right; left.
  - by right; left.
  - by right; left.
  - destruct sa; [done|]. right; right. by exists ma, ea.
  - by right; left.
  - destruct (SFsub_finite sa ma ea sb mb eb) as (z & ez & -> & Hz).
    apply binary_normalize_Pclass. rewrite Hz.
    change (SF2R (S754_finite sa ma ea)) with (SFval (S754_finite sa ma ea)).
    change (SF2R (S754_finite sb mb eb)) with (SFval (S754_finite sb mb eb)).
    lra.
Qed.

Lemma SFdiv_Pclass_positive p (m : positive) e :
  Pclass p → Pclass (SFdiv prec emax p (S754_finite false m e)).
Proof.
  intros [[s ->]|[->|(mp & ep & ->)]].
  - left. by eexists.
  - by right; left.
  - apply SFnonneg_Pclass, SFdiv_finite_nonneg.
Qed.

Lemma width_over_middle_nonneg (up mid lo : float) :
  PrimFloat.leb lo mid = true → PrimFloat.leb mid up = true →
  is_finite mid = true → PrimFloat.ltb 0 mid = true →
  PrimFloat.leb 0 ((up - lo) / mid) = true.
Proof.
  intros Hlm Hmu Hfin Hpos.
  pose proof (leb_trans _ _ _ Hlm Hmu) as Hlu.
  rewrite FloatAxioms.leb_spec in Hlm, Hmu, Hlu.
  rewrite FloatAxioms.ltb_spec, Prim2SF_0 in Hpos.
  apply is_finite_SFfinite in Hfin.
  rewrite FloatAxioms.leb_spec, Prim2SF_0, FloatAxioms.div_spec,
    FloatAxioms.sub_spec.
  unfold SF64div, SF64sub.
  pose proof (Prim2SF_valid up) as Hvu. pose proof (Prim2SF_valid lo) as Hvl.
  destruct (Prim2SF mid) as [sm|sm| |sm mm em]; try done.
  destruct sm; [done|].
  apply Pclass_nonneg, SFdiv_Pclass_positive, SFsub_ordered_Pclass;
    try done.
  - intros Hu. by rewrite Hu in Hmu.
  - intros Hl. by rewrite Hl in Hlm.
Qed.

End Widths.

(** The cells of the RSI without up-moves. *)
Section FlatAndFalling.

Lemma rsi_cell_no_up_moves (up down : float) :
  PrimFloat.eqb up 0 = true →
  (PrimFloat.ltb 0 down = true → rsi_cell up down = 0%float)
  ∧ (PrimFloat.eqb down 0 = true → is_nan (rsi_cell up down) = true).
Proof.
  rewrite !FloatAxioms.eqb_spec, FloatAxioms.ltb_spec, Prim2SF_0.
  intros Hup. split.
  - intros Hdown. apply Prim2SF_inj. unfold rsi_cell.
    rewrite FloatAxioms.sub_spec, FloatAxioms.div_spec, FloatAxioms.add_spec,
      FloatAxioms.div_spec, Prim2SF_0, Prim2SF_1, Prim2SF_100.
    unfold SF64sub, SF64div, SF64add.
    destruct (Prim2SF up) as [su|su| |su mu eu]; try done;
      try (by destruct su).
    destruct (Prim2SF down) as [sd|sd| |sd md ed]; try done;
      destruct sd; try done; destruct su; vm_compute; reflexivity.
  - intros Hdown. apply is_nan_spec. unfold rsi_cell.
    rewrite FloatAxioms.sub_spec, FloatAxioms.div_spec, FloatAxioms.add_spec,
      FloatAxioms.div_spec, Prim2SF_1, Prim2SF_100.
    unfold SF64sub, SF64div, SF64add.
    destruct (Prim2SF up) as [su|su| |su mu eu]; try done;
      try (by destruct su).
    destruct (Prim2SF down) as [sd|sd| |sd md ed]; try done;
      by destruct sd.
Qed.

End FlatAndFalling.
End Binary64Quotients.

(** ** BollingerBands: sweeps, the middle band, signals and %b *)

Section BollingerFurther.
Context `{Timeseries}.
Implicit Types (ts : matrix f8) (ns ks windows std_ns : list Z).

Lemma bb_nb_has_shape ts ns ks mp U M L :
  bb_nb ts ns ks mp = Some (U, M, L) →
  has_shape (shape0 ts) (shape1 ts * length ns) U
  ∧ has_shape (shape0 ts) (shape1 ts * length ns) M
  ∧ has_shape (shape0 ts) (shape1 ts * length ns) L.
Proof.
  unfold bb_nb. intros Hrun.
  destruct (bb_cache _ _ _) as [[cache_d log]|]; [|done].
  cbn [mbind option_bind] in Hrun.
  set (T := shape0 ts) in *. set (N := shape1 ts * length ns) in *.
  apply (for_each_invariant _
           (λ _ out, has_shape T N out.1.1 ∧ has_shape T N out.1.2
                     ∧ has_shape T N out.2)) in Hrun.
  - done.
  - split_and!; apply full_has_shape.
  - intros j n [[U0 M0] L0] [[U1 M1] L1] _ (HU0 & HM0 & HL0) Hbody.
    simpl in *.
    destruct (cache_d !! n) as [[ma mstd]|]; [|done]. simpl in Hbody.
    destruct (ks !! j) as [k|]; [|done]. simpl in Hbody.
    destruct (elementwise (λ m s, upper_band m k s) ma mstd)
      as [upper|]; [|done].
    simpl in Hbody.
    destruct (elementwise (λ m s, lower_band m k s) ma mstd)
      as [lower|]; [|done].
    simpl in Hbody.
    destruct (set_cols U0 _ _ upper) as [U'|] eqn:HU'; [|done]. simpl in Hbody.
    destruct (set_cols M0 _ _ ma) as [M'|] eqn:HM'; [|done]. simpl in Hbody.
    destruct (set_cols L0 _ _ lower) as [L'|] eqn:HL'; [|done]. simpl in Hbody.
    injection Hbody as <- <- <-.
    split_and!; [exact (set_cols_has_shape _ _ _ _ _ _ _ HU0 HU')
                |exact (set_cols_has_shape _ _ _ _ _ _ _ HM0 HM')
                |exact (set_cols_has_shape _ _ _ _ _ _ _ HL0 HL')].
Qed.

Lemma bb_nb_single ts n k mp ma mstd upper lower :
  bb_entry ts mp n = Some (ma, mstd) →
  elementwise (λ m s, upper_band m k s) ma mstd = Some upper →
  elementwise (λ m s, lower_band m k s) ma mstd = Some lower →
  has_shape (shape0 ts) (shape1 ts) ma →
  bb_nb ts [n] [k] mp = Some (upper, ma, lower).
Proof.
  intros Hentry Hup Hlo Hshape. unfold bb_nb, bb_cache.
  destruct (fill_cache_is_Some (bb_entry ts mp) [n]) as [[cache_d log] Hcache].
  { intros w Hw%list_elem_of_singleton. subst w. eauto. }
  rewrite Hcache. cbn [mbind option_bind].
  apply fill_cache_Some in Hcache as (_ & Hin & _).
  assert (cache_d !! n = Some (ma, mstd)) as Hc.
  { rewrite <- Hentry. apply Hin. repeat constructor. }
  cbn [for_each length mbind option_bind lookup list_lookup].
  rewrite Hc. cbn [mbind option_bind]. rewrite Hup, Hlo.
  cbn [mbind option_bind].
  rewrite !set_cols_single; eauto using elementwise_has_shape.
Qed.

(** X10: block i of the three bands of a sweep is the output of the run
    with window i and multiplier i alone; two positions of a sweep with
    the same window and the same multiplier hold the same blocks, also
    though the window is computed once per position. *)
Theorem bb_nb_block_is_single_run
    ts ns ks (mp : bool) (U M L : matrix f8) (i : nat) (n k : Z) :
  bb_nb ts ns ks mp = Some (U, M, L) →
  ns !! i = Some n → ks !! i = Some k →
  bb_nb ts [n] [k] mp
  = Some (block i (shape1 ts) U, block i (shape1 ts) M, block i (shape1 ts) L)
  ∧ ∀ j, ns !! j = Some n → ks !! j = Some k →
         block j (shape1 ts) U = block i (shape1 ts) U
         ∧ block j (shape1 ts) M = block i (shape1 ts) M
         ∧ block j (shape1 ts) L = block i (shape1 ts) L.
Proof.
  intros Hrun Hn Hk.
  assert (∀ j, ns !! j = Some n → ks !! j = Some k →
            bb_nb ts [n] [k] mp
            = Some (block j (shape1 ts) U, block j (shape1 ts) M,
                    block j (shape1 ts) L)) as Hsingle.
  { intros j Hnj Hkj.
    destruct (bb_nb_blocks _ _ _ _ _ _ _ Hrun j n Hnj)
      as (k' & ma & mstd & Hk' & Hentry & Hup & Hmid & Hlo & Hshape).
    assert (k' = k) as -> by congruence. rewrite Hmid.
    by apply (bb_nb_single _ _ _ _ _ mstd). }
  split; [by apply Hsingle|].
  intros j Hnj Hkj.
  pose proof (Hsingle i Hn Hk) as Hi. pose proof (Hsingle j Hnj Hkj) as Hj.
  rewrite Hi in Hj. by injection Hj as -> -> ->.
Qed.

Lemma bb_entry_ma_entry ts mp adjust n ma mstd :
  bb_entry ts mp n = Some (ma, mstd) →
  ma_entry ts false adjust mp n = Some ma.
Proof.
  unfold bb_entry, ma_entry.
  destruct (rolling_mean_nb ts n) as [m|]; [|done]. simpl.
  destruct (rolling_std_nb ts n) as [sd|]; [|done]. simpl.
  destruct mp; by intros [= <- _].
Qed.

(** X11: the middle band is the simple moving average of [ma_nb]: when
    [bb_nb] returns, [ma_nb] run on the same windows without [ewm] returns
    the middle band; the middle band does not depend on the multipliers. *)
Theorem bb_nb_middle_band_is_simple_moving_average
    ts ns ks (mp : bool) (U M L : matrix f8) :
  bb_nb ts ns ks mp = Some (U, M, L) →
  (∀ adjust, ma_nb ts ns ns false adjust mp = Some (M, M))
  ∧ ∀ ks' U' M' L', bb_nb ts ns ks' mp = Some (U', M', L') → M' = M.
Proof.
  intros Hrun.
  assert (∀ ks U M L adjust,
            bb_nb ts ns ks mp = Some (U, M, L) →
            ma_nb ts ns ns false adjust mp = Some (M, M)) as Hma.
  { clear. intros ks U M L adjust Hrun.
    pose proof (bb_nb_blocks _ _ _ _ _ _ _ Hrun) as Hblocks.
    destruct (bb_nb_has_shape _ _ _ _ _ _ _ Hrun) as (_ & HM & _).
    destruct (ma_nb_is_Some ts ns ns false adjust mp) as [[F S] Hrun'].
    { intros w Hw. assert (w ∈ ns) as Hin by (apply elem_of_app in Hw; tauto).
      apply list_elem_of_lookup in Hin as [i Hi].
      destruct (Hblocks i w Hi) as (k & ma & mstd & _ & Hentry & _).
      rewrite (bb_entry_ma_entry _ _ adjust _ _ _ Hentry). eauto. }
    { intros i w Hi.
      destruct (Hblocks i w Hi) as (k & ma & mstd & _ & Hentry & _ & _ & _ & Hs).
      exists w, ma, ma.
      rewrite (bb_entry_ma_entry _ _ adjust _ _ _ Hentry). done. }
    rewrite Hrun'.
    destruct (ma_nb_has_shape _ _ _ _ _ _ _ _ Hrun') as [HF HS].
    pose proof (ma_nb_blocks _ _ _ _ _ _ _ _ Hrun') as Hblocks'.
    assert (F = M ∧ S = M) as [-> ->]; [|done].
    split; apply (blocks_ext (shape0 ts) (shape1 ts) (length ns));
      try done; intros i Hi;
      destruct (lookup_lt_is_Some_2 ns i Hi) as [w Hw];
      destruct (Hblocks i w Hw) as (k & ma & mstd & _ & Hentry & _ & Hmid & _);
      destruct (Hblocks' i w Hw) as (sw & Hsw & Hf & Hs & _);
      assert (sw = w) as -> by congruence;
      rewrite (bb_entry_ma_entry _ _ adjust _ _ _ Hentry) in Hf, Hs;
      congruence. }
  split; [eauto|].
  intros ks' U' M' L' Hrun'.
  pose proof (Hma _ _ _ _ false Hrun) as H1.
  pose proof (Hma _ _ _ _ false Hrun') as H2. congruence.
Qed.

End BollingerFurther.

Section BollingerBandsClass.
Context `{Timeseries}.
Implicit Types (ts : matrix f8) (windows std_ns : list Z).
Implicit Types (self : BollingerBands).

Lemma BollingerBands_init_inv ts windows std_ns mp self :
  BollingerBands_init ts windows std_ns mp = Some self →
  bb_ts self = tile ts (length windows)
  ∧ bb_nb ts windows std_ns mp
    = Some (upper_bands self, middle_bands self, lower_bands self).
Proof.
  unfold BollingerBands_init.
  destruct (bb_nb _ _ _ _) as [[[U M] L]|]; [|done]. by intros [= <-].
Qed.

Lemma percent_b_cell self pb t j price up lo :
  BollingerBands_percent_b self = Some pb →
  at2 (bb_ts self) t j = Some price →
  at2 (upper_bands self) t j = Some up →
  at2 (lower_bands self) t j = Some lo →
  at2 pb t j = Some ((price - lo) / (up - lo))%float.
Proof.
  unfold BollingerBands_percent_b. intros Hpb Hp Hu Hl.
  destruct (elementwise PrimFloat.sub (bb_ts self) _) as [num|] eqn:Hnum;
    [|done].
  simpl in Hpb.
  destruct (elementwise PrimFloat.sub (upper_bands self) _) as [den|] eqn:Hden;
    [|done].
  simpl in Hpb.
  apply (elementwise_at2 _ _ _ _ _ _ _ _ Hpb).
  - apply (elementwise_at2 _ _ _ _ _ _ _ _ Hnum Hp Hl).
  - apply (elementwise_at2 _ _ _ _ _ _ _ _ Hden Hu Hl).
Qed.

Lemma bandwidth_cell self bw t j up mid lo :
  BollingerBands_bandwidth self = Some bw →
  at2 (upper_bands self) t j = Some up →
  at2 (middle_bands self) t j = Some mid →
  at2 (lower_bands self) t j = Some lo →
  at2 bw t j = Some ((up - lo) / mid)%float.
Proof.
  unfold BollingerBands_bandwidth. intros Hbw Hu Hm Hl.
  destruct (elementwise PrimFloat.sub (upper_bands self) _) as [w|] eqn:Hw;
    [|done].
  simpl in Hbw.
  apply (elementwise_at2 _ _ _ _ _ _ _ _ Hbw); [|done].
  apply (elementwise_at2 _ _ _ _ _ _ _ _ Hw Hu Hl).
Qed.

(** X12: on a rectangular price matrix, the four outputs of a
    [BollingerBands] instance are defined and have the shape of the bands:
    [np.tile] lines the price of column c up with the bands of column c of
    every block.  In block i the cell of column c holds
    [%b = (price - lower) / (upper - lower)],
    [bandwidth = (upper - lower) / middle], the entry [price >= upper] and
    the exit [price <= lower]. *)
Theorem BollingerBands_outputs_cell_by_cell
    ts windows std_ns (mp : bool) self :
  BollingerBands_init ts windows std_ns mp = Some self →
  has_shape (shape0 ts) (shape1 ts) ts →
  ∃ percent_b bandwidth entries exits,
    BollingerBands_percent_b self = Some percent_b
    ∧ BollingerBands_bandwidth self = Some bandwidth
    ∧ BollingerBands_generate_entries self = Some entries
    ∧ BollingerBands_generate_exits self = Some exits
    ∧ has_shape (shape0 ts) (shape1 ts * length windows) percent_b
    ∧ has_shape (shape0 ts) (shape1 ts * length windows) bandwidth
    ∧ has_shape (shape0 ts) (shape1 ts * length windows) entries
    ∧ has_shape (shape0 ts) (shape1 ts * length windows) exits
    ∧ ∀ i t c price,
        i < length windows → at2 ts t c = Some price →
        ∃ up mid lo,
          at2 (upper_bands self) t (i * shape1 ts + c) = Some up
          ∧ at2 (middle_bands self) t (i * shape1 ts + c) = Some mid
          ∧ at2 (lower_bands self) t (i * shape1 ts + c) = Some lo
          ∧ at2 percent_b t (i * shape1 ts + c)
            = Some ((price - lo) / (up - lo))%float
          ∧ at2 bandwidth t (i * shape1 ts + c)
            = Some ((up - lo) / mid)%float
          ∧ at2 entries t (i * shape1 ts + c)
            = Some (PrimFloat.leb up price)
          ∧ at2 exits t (i * shape1 ts + c)
            = Some (PrimFloat.leb price lo).
Proof.
  intros [Hts Hrun]%BollingerBands_init_inv Hrect.
  destruct (bb_nb_has_shape _ _ _ _ _ _ _ Hrun) as (HU & HM & HL).
  pose proof (tile_has_shape _ _ _ (length windows) Hrect) as Htile.
  rewrite <- Hts in Htile.
  set (T := shape0 ts) in *. set (N := shape1 ts) in *.
  set (P := length windows) in *.
  destruct (elementwise_is_Some PrimFloat.sub _ _ _ _ Htile HL)
    as (num & Hnum & Hnums).
  destruct (elementwise_is_Some PrimFloat.sub _ _ _ _ HU HL)
    as (den & Hden & Hdens).
  destruct (elementwise_is_Some PrimFloat.div _ _ _ _ Hnums Hdens)
    as (pb & Hpb & Hpbs).
  destruct (elementwise_is_Some PrimFloat.div _ _ _ _ Hdens HM)
    as (bw & Hbw & Hbws).
  destruct (elementwise_is_Some ge _ _ _ _ Htile HU) as (en & Hen & Hens).
  destruct (elementwise_is_Some le _ _ _ _ Htile HL) as (ex & Hex & Hexs).
  assert (BollingerBands_percent_b self = Some pb) as Hpb'.
  { unfold BollingerBands_percent_b. rewrite Hnum. simpl. by rewrite Hden. }
  assert (BollingerBands_bandwidth self = Some bw) as Hbw'.
  { unfold BollingerBands_bandwidth. by rewrite Hden. }
  exists pb, bw, en, ex. split_and!; try done.
  intros i t c price Hi Hprice.
  destruct (at2_bounds _ _ _ _ _ _ Hrect Hprice) as [Ht Hc].
  assert (i * N + c < N * P) as Hj by nia.
  destruct (has_shape_at2 _ _ _ t _ HU Ht Hj) as [up Hup].
  destruct (has_shape_at2 _ _ _ t _ HM Ht Hj) as [mid Hmid].
  destruct (has_shape_at2 _ _ _ t _ HL Ht Hj) as [lo Hlo].
  assert (at2 (bb_ts self) t (i * N + c) = Some price) as Hp.
  { rewrite Hts, <- Hprice. by apply (at2_tile T N). }
  exists up, mid, lo. split_and!; try done.
  - by apply (percent_b_cell self).
  - by apply (bandwidth_cell self).
  - apply (elementwise_at2 _ _ _ _ _ _ _ _ Hen Hp Hup).
  - apply (elementwise_at2 _ _ _ _ _ _ _ _ Hex Hp Hlo).
Qed.

(** X13: [%b] is 1 at the upper band and 0 at the lower band, where the
    width [upper - lower] of the bands is finite and not zero: a price
    equal to the upper band gives exactly 1, a finite price equal to the
    lower band gives a zero. *)
Theorem BollingerBands_percent_b_at_the_bands
    self (pb : matrix f8) (t j : nat) (price up lo : f8) :
  BollingerBands_percent_b self = Some pb →
  at2 (bb_ts self) t j = Some price →
  at2 (upper_bands self) t j = Some up →
  at2 (lower_bands self) t j = Some lo →
  is_finite (up - lo) = true → PrimFloat.eqb (up - lo) 0 = false →
  (price = up → at2 pb t j = Some 1%float)
  ∧ (price = lo → is_finite lo = true →
     ∃ z, at2 pb t j = Some z ∧ PrimFloat.eqb z 0 = true).
Proof.
  intros Hpb Hp Hu Hl Hfin Hnz.
  rewrite (percent_b_cell _ _ _ _ _ _ _ Hpb Hp Hu Hl). split.
  - intros ->. by rewrite Binary64Quotients.div_self.
  - intros -> Hlo. eexists. split; [done|].
    rewrite Binary64Quotients.sub_self by done.
    by apply Binary64Quotients.zero_div.
Qed.

(** X14: where the two bands are equal, [%b] is a division by zero: the
    cell is NaN or infinite, never a finite number, and nothing is
    raised. *)
Theorem BollingerBands_percent_b_where_bands_coincide
    self (pb : matrix f8) (t j : nat) (price up lo : f8) :
  BollingerBands_percent_b self = Some pb →
  at2 (bb_ts self) t j = Some price →
  at2 (upper_bands self) t j = Some up →
  at2 (lower_bands self) t j = Some lo →
  PrimFloat.eqb up lo = true →
  ∃ z, at2 pb t j = Some z ∧ is_finite z = false.
Proof.
  intros Hpb Hp Hu Hl Heq.
  rewrite (percent_b_cell _ _ _ _ _ _ _ Hpb Hp Hu Hl).
  eexists. split; [done|].
  by apply Binary64Quotients.div_by_difference_of_equals.
Qed.

(** X15: a cell is an entry and an exit at once only where the upper band
    is not above the lower band; where the lower band is strictly below
    the upper band, entries and exits exclude each other. *)
Theorem BollingerBands_entry_and_exit_need_crossed_bands
    self (entries exits : matrix bool) (t j : nat) (up lo : f8) :
  BollingerBands_generate_entries self = Some entries →
  BollingerBands_generate_exits self = Some exits →
  at2 (upper_bands self) t j = Some up →
  at2 (lower_bands self) t j = Some lo →
  (at2 entries t j = Some true → at2 exits t j = Some true →
   PrimFloat.leb up lo = true)
  ∧ (PrimFloat.ltb lo up = true →
     ¬ (at2 entries t j = Some true ∧ at2 exits t j = Some true)).
Proof.
  intros Hen Hex Hu Hl.
  assert (at2 entries t j = Some true → at2 exits t j = Some true →
          PrimFloat.leb up lo = true) as Hboth.
  { intros (p & u & Hp & Hu' & Hge)%(elementwise_at2_inv _ _ _ _ _ _ _ Hen)
           (p' & l & Hp' & Hl' & Hle)%(elementwise_at2_inv _ _ _ _ _ _ _ Hex).
    assert (u = up) as -> by congruence. assert (l = lo) as -> by congruence.
    assert (p' = p) as -> by congruence.
    symmetry in Hge, Hle. unfold ge in Hge. unfold le in Hle.
    by apply (Binary64Order.leb_trans _ p). }
  split; [done|].
  intros Hlt [He Hx].
  by rewrite (Binary64Order.leb_not_ltb _ _ (Hboth He Hx)) in Hlt.
Qed.

End BollingerBandsClass.

Section BollingerBandsWarmUp.
Context `{Timeseries}.
Implicit Types (ts : matrix f8) (windows std_ns : list Z).

Lemma bb_entry_warmup ts (n : Z) ma mstd T N t c :
  bb_entry ts true n = Some (ma, mstd) → has_shape T N ma →
  (Z.of_nat t < n)%Z → t < T → c < N →
  at2 ma t c = Some nan.
Proof.
  unfold bb_entry. intros He Hshape Hn Ht Hc.
  destruct (rolling_mean_nb ts n) as [m|]; [|done]. simpl in He.
  destruct (rolling_std_nb ts n) as [sd|]; [|done]. simpl in He.
  injection He as <- <-. by eapply set_rows_until_cell.
Qed.

(** X16: with [min_periods], the bands of block i are NaN on the rows
    before window i, and nothing is signalled there: the cell is neither
    an entry nor an exit, and [%b] and the bandwidth are NaN. *)
Theorem BollingerBands_no_signal_during_warmup
    ts windows std_ns (self : BollingerBands)
    (percent_b bandwidth : matrix f8) (entries exits : matrix bool)
    (i t c : nat) (n : Z) :
  BollingerBands_init ts windows std_ns true = Some self →
  has_shape (shape0 ts) (shape1 ts) ts →
  BollingerBands_percent_b self = Some percent_b →
  BollingerBands_bandwidth self = Some bandwidth →
  BollingerBands_generate_entries self = Some entries →
  BollingerBands_generate_exits self = Some exits →
  windows !! i = Some n →
  (Z.of_nat t < n)%Z → t < shape0 ts → c < shape1 ts →
  at2 entries t (i * shape1 ts + c) = Some false
  ∧ at2 exits t (i * shape1 ts + c) = Some false
  ∧ (∃ b, at2 percent_b t (i * shape1 ts + c) = Some b ∧ is_nan b = true)
  ∧ (∃ w, at2 bandwidth t (i * shape1 ts + c) = Some w ∧ is_nan w = true).
Proof.
  intros [Hts Hrun]%BollingerBands_init_inv Hrect Hpb Hbw Hen Hex Hn Hw Ht Hc.
  destruct (bb_nb_blocks _ _ _ _ _ _ _ Hrun i n Hn)
    as (k & ma & mstd & Hk & Hentry & Hup & Hmid & Hlo & Hshape).
  pose proof (bb_entry_warmup _ _ _ _ _ _ t c Hentry Hshape Hw Ht Hc) as Hnan.
  destruct (has_shape_at2 _ _ _ t c Hrect Ht Hc) as [price Hprice].
  assert (at2 (bb_ts self) t (i * shape1 ts + c) = Some price) as Hp.
  { rewrite Hts, <- Hprice.
    apply (at2_tile (shape0 ts) (shape1 ts)); [done| |done].
    by eapply lookup_lt_Some. }
  destruct (elementwise_Some _ _ _ _ Hup) as [Hsame _].
  assert (∃ s, at2 mstd t c = Some s) as [s Hs].
  { unfold at2 in Hnan |- *.
    destruct (ma !! t) as [ra|] eqn:Hra; [|done].
    destruct (lookup_lt_is_Some_2 mstd t) as [rs Hrs].
    { rewrite <- (same_shape_length _ _ Hsame). by eapply lookup_lt_Some. }
    rewrite Hrs. simpl in *. apply lookup_lt_is_Some_2.
    rewrite <- (same_shape_rows _ _ _ _ _ Hsame Hra Hrs).
    by eapply lookup_lt_Some. }
  pose proof (elementwise_at2 _ _ _ _ _ _ _ _ Hup Hnan Hs) as Hu.
  pose proof (elementwise_at2 _ _ _ _ _ _ _ _ Hlo Hnan Hs) as Hl.
  assert (at2 (middle_bands self) t (i * shape1 ts + c) = Some nan) as Hm.
  { rewrite <- at2_block_eq by done. by rewrite Hmid. }
  rewrite at2_block_eq in Hu, Hl by done.
  assert (is_nan (upper_band nan k s) = true) as Hunan.
  { unfold upper_band. apply Binary64Order.arith_nan. by left. }
  assert (is_nan (lower_band nan k s) = true) as Hlnan.
  { unfold lower_band. apply Binary64Order.arith_nan. by left. }
  split_and!.
  - rewrite (elementwise_at2 _ _ _ _ _ _ _ _ Hen Hp Hu). unfold ge.
    by rewrite Binary64Order.leb_nan by auto.
  - rewrite (elementwise_at2 _ _ _ _ _ _ _ _ Hex Hp Hl). unfold le.
    by rewrite Binary64Order.leb_nan by auto.
  - eexists. split; [exact (percent_b_cell _ _ _ _ _ _ _ Hpb Hp Hu Hl)|].
    apply Binary64Order.arith_nan. left.
    apply Binary64Order.arith_nan. by right.
  - eexists. split; [exact (bandwidth_cell _ _ _ _ _ _ _ Hbw Hu Hm Hl)|].
    apply Binary64Order.arith_nan. by right.
Qed.

End BollingerBandsWarmUp.

Lemma bb_nb_block_is_single_run_witness :
  let ts := [[1]; [3]; [5]; [3]]%float in
  let U := [[nan; nan]; [nan; nan]; [5; 6]; [5; 6]]%float in
  let M := [[nan; nan]; [nan; nan]; [4; 4]; [4; 4]]%float in
  let L := [[nan; nan]; [nan; nan]; [3; 2]; [3; 2]]%float in
  bb_nb (H := SpecTimeseries.reference) ts [2%Z] [2%Z] true
  = Some (block 1 (shape1 ts) U, block 1 (shape1 ts) M, block 1 (shape1 ts) L)
  ∧ ∀ j, [2%Z; 2%Z] !! j = Some 2%Z → [1%Z; 2%Z] !! j = Some 2%Z →
         block j (shape1 ts) U = block 1 (shape1 ts) U
         ∧ block j (shape1 ts) M = block 1 (shape1 ts) M
         ∧ block j (shape1 ts) L = block 1 (shape1 ts) L.
Proof.
  apply (bb_nb_block_is_single_run (H := SpecTimeseries.reference)
           [[1]; [3]; [5]; [3]]%float [2%Z; 2%Z] [1%Z; 2%Z] true).
  - vm_compute. reflexivity.
  - reflexivity.
  - reflexivity.
Defined.

Lemma bb_nb_middle_band_is_simple_moving_average_witness :
  let ts := [[1]; [3]; [5]; [3]]%float in
  let M := [[nan; nan]; [nan; nan]; [4; 4]; [4; 4]]%float in
  (∀ adjust,
     ma_nb (H := SpecTimeseries.reference) ts [2%Z; 2%Z] [2%Z; 2%Z]
       false adjust true = Some (M, M))
  ∧ ∀ ks' U' M' L',
      bb_nb (H := SpecTimeseries.reference) ts [2%Z; 2%Z] ks' true
        = Some (U', M', L') → M' = M.
Proof.
  apply (bb_nb_middle_band_is_simple_moving_average
           (H := SpecTimeseries.reference)
           [[1]; [3]; [5]; [3]]%float [2%Z; 2%Z] [1%Z; 2%Z] true
           [[nan; nan]; [nan; nan]; [5; 6]; [5; 6]]%float
           [[nan; nan]; [nan; nan]; [4; 4]; [4; 4]]%float
           [[nan; nan]; [nan; nan]; [3; 2]; [3; 2]]%float).
  vm_compute. reflexivity.
Defined.

Lemma BollingerBands_outputs_cell_by_cell_witness :
  let ts := [[1]; [3]; [5]; [3]]%float in
  let self := {| bb_ts := ts;
                 upper_bands := [[nan]; [nan]; [5]; [5]]%float;
                 middle_bands := [[nan]; [nan]; [4]; [4]]%float;
                 lower_bands := [[nan]; [nan]; [3]; [3]]%float |} in
  ∃ percent_b bandwidth entries exits,
    BollingerBands_percent_b self = Some percent_b
    ∧ BollingerBands_bandwidth self = Some bandwidth
    ∧ BollingerBands_generate_entries self = Some entries
    ∧ BollingerBands_generate_exits self = Some exits
    ∧ has_shape (shape0 ts) (shape1 ts * length [2%Z]) percent_b
    ∧ has_shape (shape0 ts) (shape1 ts * length [2%Z]) bandwidth
    ∧ has_shape (shape0 ts) (shape1 ts * length [2%Z]) entries
    ∧ has_shape (shape0 ts) (shape1 ts * length [2%Z]) exits
    ∧ ∀ i t c price,
        i < length [2%Z] → at2 ts t c = Some price →
        ∃ up mid lo,
          at2 (upper_bands self) t (i * shape1 ts + c) = Some up
          ∧ at2 (middle_bands self) t (i * shape1 ts + c) = Some mid
          ∧ at2 (lower_bands self) t (i * shape1 ts + c) = Some lo
          ∧ at2 percent_b t (i * shape1 ts + c)
            = Some ((price - lo) / (up - lo))%float
          ∧ at2 bandwidth t (i * shape1 ts + c)
            = Some ((up - lo) / mid)%float
          ∧ at2 entries t (i * shape1 ts + c)
            = Some (PrimFloat.leb up price)
          ∧ at2 exits t (i * shape1 ts + c)
            = Some (PrimFloat.leb price lo).
Proof.
  apply (BollingerBands_outputs_cell_by_cell (H := SpecTimeseries.reference)
           [[1]; [3]; [5]; [3]]%float [2%Z] [1%Z] true).
  - vm_compute. reflexivity.
  - split; [reflexivity|repeat constructor].
Defined.

Lemma BollingerBands_percent_b_at_the_bands_witness :
  ((5 = 5)%float → at2 [[nan]; [nan]; [1]; [0]]%float 2 0 = Some 1%float)
  ∧ ((5 = 3)%float → is_finite 3 = true →
     ∃ z, at2 [[nan]; [nan]; [1]; [0]]%float 2 0 = Some z
          ∧ PrimFloat.eqb z 0 = true).
Proof.
  apply (BollingerBands_percent_b_at_the_bands
           {| bb_ts := [[1]; [3]; [5]; [3]]%float;
              upper_bands := [[nan]; [nan]; [5]; [5]]%float;
              middle_bands := [[nan]; [nan]; [4]; [4]]%float;
              lower_bands := [[nan]; [nan]; [3]; [3]]%float |}
           [[nan]; [nan]; [1]; [0]]%float 2 0 5%float 5%float 3%float).
  - vm_compute. reflexivity.
  - reflexivity.
  - reflexivity.
  - reflexivity.
  - reflexivity.
  - reflexivity.
Defined.

Lemma BollingerBands_percent_b_where_bands_coincide_witness :
  ∃ z, at2 [[nan]; [nan]; [infinity]; [neg_infinity]] 2 0 = Some z
       ∧ is_finite z = false.
Proof.
  apply (BollingerBands_percent_b_where_bands_coincide
           {| bb_ts := [[1]; [3]; [5]; [3]]%float;
              upper_bands := [[nan]; [nan]; [4]; [4]]%float;
              middle_bands := [[nan]; [nan]; [4]; [4]]%float;
              lower_bands := [[nan]; [nan]; [4]; [4]]%float |}
           [[nan]; [nan]; [infinity]; [neg_infinity]] 2 0
           5%float 4%float 4%float).
  - vm_compute. reflexivity.
  - reflexivity.
  - reflexivity.
  - reflexivity.
  - reflexivity.
Defined.

Lemma BollingerBands_entry_and_exit_need_crossed_bands_witness :
  (at2 [[false]; [false]; [true]; [true]] 3 0 = Some true →
   at2 [[false]; [false]; [false]; [true]] 3 0 = Some true →
   PrimFloat.leb 4 4 = true)
  ∧ (PrimFloat.ltb 4 4 = true →
     ¬ (at2 [[false]; [false]; [true]; [true]] 3 0 = Some true
        ∧ at2 [[false]; [false]; [false]; [true]] 3 0 = Some true)).
Proof.
  apply (BollingerBands_entry_and_exit_need_crossed_bands
           {| bb_ts := [[1]; [3]; [5]; [4]]%float;
              upper_bands := [[nan]; [nan]; [4]; [4]]%float;
              middle_bands := [[nan]; [nan]; [4]; [4]]%float;
              lower_bands := [[nan]; [nan]; [4]; [4]]%float |}
           [[false]; [false]; [true]; [true]]
           [[false]; [false]; [false]; [true]] 3 0 4%float 4%float).
  - vm_compute. reflexivity.
  - vm_compute. reflexivity.
  - reflexivity.
  - reflexivity.
Defined.

Lemma BollingerBands_no_signal_during_warmup_witness :
  let ts := [[1]; [3]; [5]; [3]]%float in
  at2 [[false]; [false]; [true]; [false]] 1 (0 * shape1 ts + 0) = Some false
  ∧ at2 [[false]; [false]; [false]; [true]] 1 (0 * shape1 ts + 0) = Some false
  ∧ (∃ b, at2 [[nan]; [nan]; [1]; [0]]%float 1 (0 * shape1 ts + 0) = Some b
          ∧ is_nan b = true)
  ∧ (∃ w, at2 [[nan]; [nan]; [0.5]; [0.5]]%float 1 (0 * shape1 ts + 0)
          = Some w ∧ is_nan w = true).
Proof.
  apply (BollingerBands_no_signal_during_warmup (H := SpecTimeseries.reference)
           [[1]; [3]; [5]; [3]]%float [2%Z] [1%Z]
           {| bb_ts := [[1]; [3]; [5]; [3]]%float;
              upper_bands := [[nan]; [nan]; [5]; [5]]%float;
              middle_bands := [[nan]; [nan]; [4]; [4]]%float;
              lower_bands := [[nan]; [nan]; [3]; [3]]%float |}
           [[nan]; [nan]; [1]; [0]]%float [[nan]; [nan]; [0.5]; [0.5]]%float
           [[false]; [false]; [true]; [false]]
           [[false]; [false]; [false]; [true]] 0 1 0 2%Z).
  - vm_compute. reflexivity.
  - split; [reflexivity|repeat constructor].
  - vm_compute. reflexivity.
  - vm_compute. reflexivity.
  - vm_compute. reflexivity.
  - vm_compute. reflexivity.
  - reflexivity.
  - lia.
  - simpl. lia.
  - simpl. lia.
Defined.

(** ** RSI: bounds, range and warm-up *)

Section ElementwiseCells.
Context {A B C : Type}.

Lemma elementwise_at2_l (f : A → B → C) a b z t c x :
  elementwise f a b = Some z → at2 a t c = Some x →
  ∃ y, at2 b t c = Some y ∧ at2 z t c = Some (f x y).
Proof.
  intros Hz Hx. pose proof (elementwise_Some _ _ _ _ Hz) as [Hsame _].
  assert (is_Some (at2 b t c)) as [y Hy].
  { unfold at2 in Hx |- *. destruct (a !! t) as [ra|] eqn:Hra; [|done].
    destruct (lookup_lt_is_Some_2 b t) as [rb Hrb].
    { rewrite <- (same_shape_length _ _ Hsame). by eapply lookup_lt_Some. }
    rewrite Hrb. simpl in *. apply lookup_lt_is_Some_2.
    rewrite <- (same_shape_rows _ _ _ _ _ Hsame Hra Hrb).
    by eapply lookup_lt_Some. }
  exists y. split; [done|]. by eapply elementwise_at2.
Qed.

Lemma elementwise_has_shape_l (f : A → B → C) a b z T N :
  elementwise f a b = Some z → has_shape T N z → has_shape T N a.
Proof.
  intros Hz [Hl Hrows]. pose proof (elementwise_Some _ _ _ _ Hz) as [Hsame ->].
  pose proof (same_shape_length _ _ Hsame) as Hlen.
  rewrite length_zip_with in Hl. split; [lia|].
  apply Forall_lookup. intros t ra Hra.
  destruct (lookup_lt_is_Some_2 b t) as [rb Hrb].
  { rewrite <- Hlen. by eapply lookup_lt_Some. }
  assert (zip_with (zip_with f) a b !! t = Some (zip_with f ra rb)) as Hzt
    by (by rewrite lookup_zip_with, Hra, Hrb).
  pose proof (Forall_lookup_1 _ _ _ _ Hrows Hzt) as Hn. simpl in Hn.
  rewrite length_zip_with, <- (same_shape_rows _ _ _ _ _ Hsame Hra Hrb) in Hn.
  lia.
Qed.

End ElementwiseCells.

Section RSIClass.
Context `{Timeseries}.
Implicit Types (ts : matrix f8) (windows : list Z) (self : RSI).
Implicit Types (lower_bound upper_bound : matrix f8).

Lemma RSI_init_inv ts windows ewm adjust mp self :
  RSI_init ts windows ewm adjust mp = Some self →
  rsi_nb ts windows ewm adjust mp = Some (rsi self).
Proof.
  unfold RSI_init. destruct (rsi_nb _ _ _ _ _) as [R|]; [|done].
  by intros [= <-].
Qed.

Lemma rsi_nb_has_shape ts windows ewm adjust mp R :
  rsi_nb ts windows ewm adjust mp = Some R →
  has_shape (shape0 ts) (shape1 ts * length windows) R.
Proof.
  rewrite rsi_nb_assemble.
  destruct (rsi_cache _ _ _ _ _) as [cache|]; [|done]. simpl.
  apply assemble_has_shape.
Qed.

Lemma rsi_nb_cell ts windows ewm adjust mp R i w roll_up roll_down t c up down :
  rsi_nb ts windows ewm adjust mp = Some R →
  windows !! i = Some w →
  rsi_entry (rsi_moves ts).1 (rsi_moves ts).2 ewm adjust mp w
    = Some (roll_up, roll_down) →
  at2 roll_up t c = Some up → at2 roll_down t c = Some down →
  at2 R t (i * shape1 ts + c) = Some (rsi_cell up down).
Proof.
  intros Hrun Hw Hentry Hup Hdown.
  destruct (rsi_nb_blocks _ _ _ _ _ _ Hrun i w Hw) as [Hblock _].
  unfold rsi_block in Hblock. rewrite Hentry in Hblock. simpl in Hblock.
  pose proof (elementwise_at2 _ _ _ _ _ _ _ _ Hblock Hup Hdown) as Hcell.
  by apply at2_block in Hcell as [_ Hcell].
Qed.

(** X17: the signals of an [RSI] instance are defined for every bound of
    the shape of the index and have that shape; cell by cell, an entry is
    [rsi < lower_bound] and an exit is [rsi > upper_bound]. *)
Theorem RSI_signals_cell_by_cell
    ts windows (ewm adjust mp : bool) self lower_bound upper_bound :
  RSI_init ts windows ewm adjust mp = Some self →
  has_shape (shape0 ts) (shape1 ts * length windows) lower_bound →
  has_shape (shape0 ts) (shape1 ts * length windows) upper_bound →
  has_shape (shape0 ts) (shape1 ts * length windows) (rsi self)
  ∧ ∃ entries exits,
      RSI_generate_entries self lower_bound = Some entries
      ∧ RSI_generate_exits self upper_bound = Some exits
      ∧ has_shape (shape0 ts) (shape1 ts * length windows) entries
      ∧ has_shape (shape0 ts) (shape1 ts * length windows) exits
      ∧ ∀ t j r lb ub,
          at2 (rsi self) t j = Some r →
          at2 lower_bound t j = Some lb → at2 upper_bound t j = Some ub →
          at2 entries t j = Some (PrimFloat.ltb r lb)
          ∧ at2 exits t j = Some (PrimFloat.ltb ub r).
Proof.
  intros Hrun%RSI_init_inv%rsi_nb_has_shape Hlb Hub. split; [done|].
  destruct (elementwise_is_Some lt _ _ _ _ Hrun Hlb) as (en & Hen & Hens).
  destruct (elementwise_is_Some gt _ _ _ _ Hrun Hub) as (ex & Hex & Hexs).
  exists en, ex. split_and!; try done.
  intros t j r lb ub Hr Hl Hu. split.
  - apply (elementwise_at2 _ _ _ _ _ _ _ _ Hen Hr Hl).
  - apply (elementwise_at2 _ _ _ _ _ _ _ _ Hex Hr Hu).
Qed.

(** X18: where the lower bound does not exceed the upper bound, no cell
    is an entry and an exit at once. *)
Theorem RSI_entries_exits_exclusive_for_ordered_bounds
    self lower_bound upper_bound (entries exits : matrix bool)
    (t j : nat) (lb ub : f8) :
  RSI_generate_entries self lower_bound = Some entries →
  RSI_generate_exits self upper_bound = Some exits →
  at2 lower_bound t j = Some lb → at2 upper_bound t j = Some ub →
  PrimFloat.leb lb ub = true →
  ¬ (at2 entries t j = Some true ∧ at2 exits t j = Some true).
Proof.
  intros Hen Hex Hl Hu Hle
    [(r & lb' & Hr & Hl' & Hlt)%(elementwise_at2_inv _ _ _ _ _ _ _ Hen)
     (r' & ub' & Hr' & Hu' & Hgt)%(elementwise_at2_inv _ _ _ _ _ _ _ Hex)].
  assert (lb' = lb) as -> by congruence. assert (ub' = ub) as -> by congruence.
  assert (r' = r) as -> by congruence.
  symmetry in Hlt, Hgt. unfold lt in Hlt. unfold gt in Hgt.
  pose proof (Binary64Order.ltb_leb_trans _ _ _ Hlt Hle) as Hru.
  by rewrite (ltb_asym _ _ Hru) in Hgt.
Qed.

(** X19: the index stays within its range, so bounds outside it are never
    crossed.  In a cell whose smoothed up-moves and down-moves are not
    negative, a lower bound of 0 or less gives no entry and an upper bound
    of 100 or more gives no exit. *)
Theorem RSI_bounds_outside_range_never_signal
    ts windows (ewm adjust mp : bool) self lower_bound upper_bound
    (entries exits : matrix bool) (roll_up roll_down : matrix f8)
    (i t c : nat) (w : Z) (up down : f8) :
  RSI_init ts windows ewm adjust mp = Some self →
  RSI_generate_entries self lower_bound = Some entries →
  RSI_generate_exits self upper_bound = Some exits →
  windows !! i = Some w →
  rsi_entry (rsi_moves ts).1 (rsi_moves ts).2 ewm adjust mp w
    = Some (roll_up, roll_down) →
  at2 roll_up t c = Some up → at2 roll_down t c = Some down →
  PrimFloat.ltb up 0 = false → PrimFloat.ltb down 0 = false →
  (∀ lb, at2 lower_bound t (i * shape1 ts + c) = Some lb →
         PrimFloat.leb lb 0 = true →
         at2 entries t (i * shape1 ts + c) = Some false)
  ∧ (∀ ub, at2 upper_bound t (i * shape1 ts + c) = Some ub →
           PrimFloat.leb 100 ub = true →
           at2 exits t (i * shape1 ts + c) = Some false).
Proof.
  intros Hrun%RSI_init_inv Hen Hex Hw Hentry Hup Hdown Hupn Hdownn.
  pose proof (rsi_nb_cell _ _ _ _ _ _ _ _ _ _ _ _ _ _
                Hrun Hw Hentry Hup Hdown) as Hcell.
  pose proof (Binary64Facts.rsi_cell_range up down Hupn Hdownn) as Hrange.
  split.
  - intros lb Hlb Hle.
    rewrite (elementwise_at2 _ _ _ _ _ _ _ _ Hen Hcell Hlb). f_equal.
    unfold lt. destruct (PrimFloat.ltb (rsi_cell up down) lb) eqn:Hlt; [|done].
    destruct Hrange as [Hnan|[Hlo _]].
    + by rewrite Binary64Order.ltb_nan in Hlt by auto.
    + pose proof (Binary64Order.ltb_leb_trans _ _ _ Hlt Hle) as Hneg.
      by rewrite (Binary64Order.leb_not_ltb _ _ Hlo) in Hneg.
  - intros ub Hub Hle.
    rewrite (elementwise_at2 _ _ _ _ _ _ _ _ Hex Hcell Hub). f_equal.
    unfold gt. destruct (PrimFloat.ltb ub (rsi_cell up down)) eqn:Hlt; [|done].
    destruct Hrange as [Hnan|[_ Hhi]].
    + by rewrite Binary64Order.ltb_nan in Hlt by auto.
    + pose proof (Binary64Order.leb_ltb_trans _ _ _ Hle Hlt) as Habove.
      by rewrite (Binary64Order.leb_not_ltb _ _ Hhi) in Habove.
Qed.

Lemma rsi_entry_warmup (up down : matrix f8) ewm adjust (w : Z)
    roll_up roll_down T N t c :
  rsi_entry up down ewm adjust true w = Some (roll_up, roll_down) →
  has_shape T N roll_up →
  (Z.of_nat t < w)%Z → t < T → c < N →
  at2 roll_up t c = Some nan.
Proof.
  unfold rsi_entry. intros He Hsu Hw Ht Hc.
  destruct (if ewm then ewma_nb up w adjust else rolling_mean_nb up w)
    as [ru|]; [|done].
  simpl in He.
  destruct (if ewm then ewma_nb down w adjust else rolling_mean_nb down w)
    as [rd|]; [|done].
  simpl in He.
  injection He as <- <-. by eapply set_rows_until_cell.
Qed.

(** X20: with [min_periods], the index of block i is NaN on the rows
    before window i, and no bound is crossed there: the cell is neither an
    entry nor an exit, whatever the bounds. *)
Theorem RSI_no_signal_during_warmup
    ts windows (ewm adjust : bool) self lower_bound upper_bound
    (entries exits : matrix bool) (i t c : nat) (w : Z) :
  RSI_init ts windows ewm adjust true = Some self →
  RSI_generate_entries self lower_bound = Some entries →
  RSI_generate_exits self upper_bound = Some exits →
  windows !! i = Some w →
  (Z.of_nat t < w)%Z → t < shape0 ts → c < shape1 ts →
  (∃ r, at2 (rsi self) t (i * shape1 ts + c) = Some r ∧ is_nan r = true)
  ∧ at2 entries t (i * shape1 ts + c) = Some false
  ∧ at2 exits t (i * shape1 ts + c) = Some false.
Proof.
  intros Hrun%RSI_init_inv Hen Hex Hw Hlt Ht Hc.
  destruct (rsi_nb_blocks _ _ _ _ _ _ Hrun i w Hw) as [Hblock Hshape].
  unfold rsi_block in Hblock.
  destruct (rsi_entry _ _ _ _ _ _) as [[roll_up roll_down]|] eqn:Hentry;
    [|done].
  simpl in Hblock.
  pose proof (elementwise_has_shape_l _ _ _ _ _ _ Hblock Hshape) as Hsu.
  destruct (elementwise_at2_l _ _ _ _ t c nan Hblock) as (down & Hdown & Hcell).
  { exact (rsi_entry_warmup _ _ _ _ _ _ _ _ _ t c Hentry Hsu Hlt Ht Hc). }
  apply at2_block in Hcell as [_ Hcell].
  assert (is_nan (rsi_cell nan down) = true) as Hnan.
  { unfold rsi_cell. apply Binary64Order.arith_nan. right.
    apply Binary64Order.arith_nan. right.
    apply Binary64Order.arith_nan. right.
    apply Binary64Order.arith_nan. by left. }
  split_and!.
  - eauto.
  - destruct (elementwise_at2_l _ _ _ _ _ _ _ Hen Hcell) as (lb & _ & ->).
    unfold lt. by rewrite Binary64Order.ltb_nan by auto.
  - destruct (elementwise_at2_l _ _ _ _ _ _ _ Hex Hcell) as (ub & _ & ->).
    unfold gt. by rewrite Binary64Order.ltb_nan by auto.
Qed.

End RSIClass.

Lemma RSI_signals_cell_by_cell_witness :
  let ts := [[1]; [2]; [3]; [2]; [1]]%float in
  let self := {| rsi := [[nan]; [nan]; [100]; [50]; [0]]%float |} in
  has_shape (shape0 ts) (shape1 ts * length [2%Z]) (rsi self)
  ∧ ∃ entries exits,
      RSI_generate_entries self (full 5 1 30%float) = Some entries
      ∧ RSI_generate_exits self (full 5 1 70%float) = Some exits
      ∧ has_shape (shape0 ts) (shape1 ts * length [2%Z]) entries
      ∧ has_shape (shape0 ts) (shape1 ts * length [2%Z]) exits
      ∧ ∀ t j r lb ub,
          at2 (rsi self) t j = Some r →
          at2 (full 5 1 30%float) t j = Some lb →
          at2 (full 5 1 70%float) t j = Some ub →
          at2 entries t j = Some (PrimFloat.ltb r lb)
          ∧ at2 exits t j = Some (PrimFloat.ltb ub r).
Proof.
  apply (RSI_signals_cell_by_cell (H := SpecTimeseries.reference)
           [[1]; [2]; [3]; [2]; [1]]%float [2%Z] false false true).
  - vm_compute. reflexivity.
  - split; [reflexivity|repeat constructor].
  - split; [reflexivity|repeat constructor].
Defined.

Lemma RSI_entries_exits_exclusive_for_ordered_bounds_witness :
  PrimFloat.leb 30 70 = true
  ∧ ¬ (at2 [[false]; [false]; [false]; [false]; [true]] 4 0 = Some true
       ∧ at2 [[false]; [false]; [true]; [false]; [false]] 4 0 = Some true).
Proof.
  split; [reflexivity|].
  apply (RSI_entries_exits_exclusive_for_ordered_bounds
           {| rsi := [[nan]; [nan]; [100]; [50]; [0]]%float |}
           (full 5 1 30%float) (full 5 1 70%float)
           [[false]; [false]; [false]; [false]; [true]]
           [[false]; [false]; [true]; [false]; [false]] 4 0 30%float 70%float).
  - vm_compute. reflexivity.
  - vm_compute. reflexivity.
  - reflexivity.
  - reflexivity.
  - reflexivity.
Defined.

Lemma RSI_bounds_outside_range_never_signal_witness :
  let ts := [[1]; [2]; [3]; [2]; [1]]%float in
  (∀ lb, at2 (full 5 1 0%float) 3 (0 * shape1 ts + 0) = Some lb →
         PrimFloat.leb lb 0 = true →
         at2 (full 5 1 false) 3 (0 * shape1 ts + 0) = Some false)
  ∧ (∀ ub, at2 (full 5 1 100%float) 3 (0 * shape1 ts + 0) = Some ub →
           PrimFloat.leb 100 ub = true →
           at2 (full 5 1 false) 3 (0 * shape1 ts + 0) = Some false).
Proof.
  apply (RSI_bounds_outside_range_never_signal (H := SpecTimeseries.reference)
           [[1]; [2]; [3]; [2]; [1]]%float [2%Z] false false true
           {| rsi := [[nan]; [nan]; [100]; [50]; [0]]%float |}
           (full 5 1 0%float) (full 5 1 100%float)
           (full 5 1 false) (full 5 1 false)
           [[nan]; [nan]; [1]; [0.5]; [0]]%float
           [[nan]; [nan]; [0]; [0.5]; [1]]%float
           0 3 0 2%Z 0.5%float 0.5%float).
  - vm_compute. reflexivity.
  - vm_compute. reflexivity.
  - vm_compute. reflexivity.
  - reflexivity.
  - vm_compute. reflexivity.
  - reflexivity.
  - reflexivity.
  - reflexivity.
  - reflexivity.
Defined.

Lemma RSI_no_signal_during_warmup_witness :
  let ts := [[1]; [2]; [3]; [2]; [1]]%float in
  (∃ r, at2 [[nan]; [nan]; [100]; [50]; [0]]%float 1 (0 * shape1 ts + 0)
        = Some r ∧ is_nan r = true)
  ∧ at2 [[false]; [false]; [false]; [false]; [true]] 1 (0 * shape1 ts + 0)
    = Some false
  ∧ at2 [[false]; [false]; [true]; [false]; [false]] 1 (0 * shape1 ts + 0)
    = Some false.
Proof.
  apply (RSI_no_signal_during_warmup (H := SpecTimeseries.reference)
           [[1]; [2]; [3]; [2]; [1]]%float [2%Z] false false
           {| rsi := [[nan]; [nan]; [100]; [50]; [0]]%float |}
           (full 5 1 30%float) (full 5 1 70%float)
           [[false]; [false]; [false]; [false]; [true]]
           [[false]; [false]; [true]; [false]; [false]] 0 1 0 2%Z).
  - vm_compute. reflexivity.
  - vm_compute. reflexivity.
  - vm_compute. reflexivity.
  - reflexivity.
  - lia.
  - simpl. lia.
  - simpl. lia.
Defined.

(** ** The trailing stop after the entry *)

Section TrailingStopPeak.
Context `{Timeseries}.
Implicit Types (entries : matrix bool) (ts stop : matrix f8).

Lemma set_rows_from_lookup_from {A} (dst src out : matrix A) start k :
  set_rows_from dst start src = Some out → start ≤ length dst →
  out !! (start + k) = src !! k.
Proof.
  unfold set_rows_from. destruct (same_shape _ _); [|done].
  intros [= <-] Hstart.
  rewrite lookup_app_r by (rewrite length_take; lia).
  f_equal. rewrite length_take. lia.
Qed.

(** X21: with a relative stop of one level [s] over the whole column, the
    threshold of a bar at or after the entry is [(1 - s)] times the
    expanding maximum of the prices since the entry: bar [t + k] is flagged
    exactly when its price is below [(1 - s) * peak[k]], where [peak] is
    [rolling_max_nb] of the column from the entry on. *)
Theorem tstop_relative_constant_stop_trails_the_peak
    entries ts stop (c t : nat) (mask : list bool) (s : f8) (col : list f8) :
  tstop_exit_mask_nb entries c t ts stop true = Some mask →
  column ts c = Some col →
  column stop c = Some (replicate (length ts) s) →
  is_nan s = false → t < length ts →
  ∀ k x, col !! (t + k) = Some x →
    ∃ p, at2 (rolling_max_nb (drop t (expand_dims col)) None) k 0 = Some p
         ∧ mask !! (t + k) = Some (PrimFloat.ltb x ((1 - s) * p)).
Proof.
  unfold tstop_exit_mask_nb. intros Hm Htc Hsc Hs Ht k x Hx.
  rewrite Htc, Hsc in Hm.
  cbn [fmap option_fmap option_map mbind option_bind] in Hm.
  destruct (set_rows_from _ _ _) as [peak|] eqn:Hpeak; [|done].
  cbn [mbind option_bind] in Hm.
  destruct (min_max_constant (length ts) s Hs) as [Hmin Hmax]; [lia|].
  rewrite Hmin in Hm. cbn [mbind option_bind] in Hm.
  rewrite Hmax in Hm. cbn [mbind option_bind] in Hm.
  rewrite (ne_refl s Hs) in Hm. cbn [mbind option_bind] in Hm.
  destruct (elementwise _ _ peak) as [thr|] eqn:Hthr; [|done].
  cbn [mbind option_bind] in Hm.
  destruct (elementwise lt _ thr) as [below|] eqn:Hb; [|done].
  cbn [mbind option_bind] in Hm.
  pose proof (column_length _ _ _ Htc) as Hlen.
  assert (col ≠ []) as Hne by (intros ->; simpl in Hlen; lia).
  set (src := rolling_max_nb (drop t (expand_dims col)) None) in *.
  (* the row of the peak *)
  assert (peak !! (t + k) = src !! k) as Hpk.
  { apply (set_rows_from_lookup_from _ _ _ _ _ Hpeak).
    unfold full, shape0. rewrite length_replicate.
    unfold expand_dims. rewrite length_map. lia. }
  assert (same_shape
            (drop t (full (shape0 (expand_dims col))
                          (shape1 (expand_dims col)) nan)) src = true)
    as Hsame.
  { unfold set_rows_from in Hpeak. by destruct (same_shape _ _). }
  assert (t + k < length col) as Hk by (by eapply lookup_lt_Some).
  destruct (lookup_lt_is_Some_2 src k) as [rp Hrp].
  { rewrite <- (same_shape_length _ _ Hsame), length_drop.
    unfold full, shape0. rewrite length_replicate.
    unfold expand_dims. rewrite length_map. lia. }
  assert (length rp = 1) as Hrp1.
  { rewrite <- (same_shape_rows _ _ (k) (replicate 1 nan) rp Hsame); [done| |done].
    rewrite lookup_drop, full_lookup, expand_dims_shape1; [done|done|].
    unfold shape0, expand_dims. rewrite length_map. lia. }
  destruct (length_one_inv rp Hrp1) as [p ->].
  exists p. split; [unfold at2; by rewrite Hrp|].
  rewrite Hrp in Hpk.
  assert (expand_dims (replicate (length ts) s) !! (t + k) = Some [s]) as Hst.
  { apply expand_dims_lookup, lookup_replicate_2. lia. }
  destruct (elementwise_lookup _ _ _ _ _ _ _ Hthr Hst Hpk) as [Hthrt _].
  destruct (elementwise_lookup _ _ _ _ _ _ _ Hb
              (expand_dims_lookup _ _ _ Hx) Hthrt) as [Hbt _].
  rewrite (column_lookup _ _ _ (t + k) Hm). unfold at2. by rewrite Hbt.
Qed.

End TrailingStopPeak.

Lemma tstop_relative_constant_stop_trails_the_peak_witness :
  let col := [10; 12; 11; 15; 9]%float in
  is_nan 0.2 = false
  ∧ ∀ k x, col !! (0 + k) = Some x →
      ∃ p, at2 (rolling_max_nb (Timeseries := SpecTimeseries.reference)
                  (drop 0 (expand_dims col)) None) k 0 = Some p
           ∧ [false; false; false; false; true] !! (0 + k)
             = Some (PrimFloat.ltb x ((1 - 0.2) * p)).
Proof.
  split; [reflexivity|].
  apply (tstop_relative_constant_stop_trails_the_peak
           (H := SpecTimeseries.reference)
           (to_2d [true; false; false; false; false])
           (to_2d [10; 12; 11; 15; 9]%float) (full 5 1 0.2%float) 0 0
           [false; false; false; false; true] 0.2%float).
  - vm_compute. reflexivity.
  - reflexivity.
  - reflexivity.
  - reflexivity.
  - simpl. lia.
Defined.

(** ** The crossover, cell by cell; rejected windows *)

Section MovingAverageCells.
Context `{Timeseries}.
Implicit Types (ts : matrix f8) (fast_windows slow_windows : list Z).

(** X22: the signals of a [MovingAverage] instance are defined and have
    the shape of the averages; in block i, the cell of column c is an
    entry exactly when the average of fast window i is above the average
    of slow window i on that column, and an exit when it is below. *)
Theorem MovingAverage_signals_cell_by_cell
    ts fast_windows slow_windows (ewm adjust mp : bool) (self : MovingAverage) :
  MovingAverage_init ts fast_windows slow_windows ewm adjust mp = Some self →
  ∃ entries exits,
    MovingAverage_generate_entries self = Some entries
    ∧ MovingAverage_generate_exits self = Some exits
    ∧ has_shape (shape0 ts) (shape1 ts * length fast_windows) entries
    ∧ has_shape (shape0 ts) (shape1 ts * length fast_windows) exits
    ∧ ∀ i t c fw sw fast slow x y,
        fast_windows !! i = Some fw → slow_windows !! i = Some sw →
        ma_entry ts ewm adjust mp fw = Some fast →
        ma_entry ts ewm adjust mp sw = Some slow →
        at2 fast t c = Some x → at2 slow t c = Some y →
        at2 entries t (i * shape1 ts + c) = Some (PrimFloat.ltb y x)
        ∧ at2 exits t (i * shape1 ts + c) = Some (PrimFloat.ltb x y).
Proof.
  intros Hrun%MovingAverage_init_inv.
  destruct (ma_nb_has_shape _ _ _ _ _ _ _ _ Hrun) as [HF HS].
  unfold MovingAverage_generate_entries, MovingAverage_generate_exits.
  destruct (elementwise_is_Some gt _ _ _ _ HF HS) as (en & Hen & Hens).
  destruct (elementwise_is_Some lt _ _ _ _ HF HS) as (ex & Hex & Hexs).
  exists en, ex. split_and!; try done.
  intros i t c fw sw fast slow x y Hfw Hsw Hfast Hslow Hx Hy.
  destruct (ma_nb_blocks _ _ _ _ _ _ _ _ Hrun i fw Hfw)
    as (sw' & Hsw' & Hf & Hs & _).
  assert (sw' = sw) as -> by congruence.
  assert (fast = block i (shape1 ts) (fast_mas self)) as -> by congruence.
  assert (slow = block i (shape1 ts) (slow_mas self)) as -> by congruence.
  apply at2_block in Hx as [_ Hx]. apply at2_block in Hy as [_ Hy].
  split.
  - apply (elementwise_at2 _ _ _ _ _ _ _ _ Hen Hx Hy).
  - apply (elementwise_at2 _ _ _ _ _ _ _ _ Hex Hx Hy).
Qed.

(** X23: a sweep has no partial result.  When the rolling routine rejects
    one window of the sweep, the whole call fails: for [ma_nb] also when
    the window is a slow window past the number of fast windows, whose
    average would not be output. *)
Theorem sweep_fails_when_a_window_is_rejected
    ts (ewm adjust mp : bool) (w : Z) :
  (∀ fast_windows slow_windows,
     w ∈ fast_windows ++ slow_windows →
     (if ewm then ewma_nb ts w adjust else rolling_mean_nb ts w) = None →
     ma_nb ts fast_windows slow_windows ewm adjust mp = None)
  ∧ (∀ ns ks,
       w ∈ ns →
       rolling_mean_nb ts w = None ∨ rolling_std_nb ts w = None →
       bb_nb ts ns ks mp = None)
  ∧ (∀ windows,
       w ∈ windows →
       (if ewm then ewma_nb (rsi_moves ts).1 w adjust
        else rolling_mean_nb (rsi_moves ts).1 w) = None
       ∨ (if ewm then ewma_nb (rsi_moves ts).2 w adjust
          else rolling_mean_nb (rsi_moves ts).2 w) = None →
       rsi_nb ts windows ewm adjust mp = None).
Proof.
  split_and!.
  - intros fast_windows slow_windows Hw Hrej.
    destruct (ma_nb _ _ _ _ _ _) as [[F S]|] eqn:Hrun; [|done].
    destruct (ma_nb_entries _ _ _ _ _ _ _ _ Hrun w Hw) as [m Hm].
    unfold ma_entry in Hm. by rewrite Hrej in Hm.
  - intros ns ks Hw Hrej.
    destruct (bb_nb _ _ _ _) as [[[U M] L]|] eqn:Hrun; [|done].
    apply list_elem_of_lookup in Hw as [i Hi].
    destruct (bb_nb_blocks _ _ _ _ _ _ _ Hrun i w Hi)
      as (k & ma & mstd & _ & Hentry & _).
    unfold bb_entry in Hentry.
    destruct Hrej as [Hrej|Hrej]; rewrite Hrej in Hentry;
      [done|by destruct (rolling_mean_nb ts w)].
  - intros windows Hw Hrej.
    destruct (rsi_nb _ _ _ _ _) as [R|] eqn:Hrun; [|done].
    apply list_elem_of_lookup in Hw as [i Hi].
    destruct (rsi_nb_blocks _ _ _ _ _ _ Hrun i w Hi) as [Hblock _].
    unfold rsi_block, rsi_entry in Hblock.
    destruct Hrej as [Hrej|Hrej]; rewrite Hrej in Hblock; [done|].
    by destruct (if ewm then ewma_nb (rsi_moves ts).1 w adjust
                 else rolling_mean_nb (rsi_moves ts).1 w).
Qed.

End MovingAverageCells.

Lemma MovingAverage_signals_cell_by_cell_witness :
  let ts := [[3]; [3]; [6]; [9]]%float in
  let self := {| fast_mas := [[nan]; [nan]; [4.5]; [7.5]]%float;
                 slow_mas := [[nan]; [nan]; [nan]; [6]]%float |} in
  ∃ entries exits,
    MovingAverage_generate_entries self = Some entries
    ∧ MovingAverage_generate_exits self = Some exits
    ∧ has_shape (shape0 ts) (shape1 ts * length [2%Z]) entries
    ∧ has_shape (shape0 ts) (shape1 ts * length [2%Z]) exits
    ∧ ∀ i t c fw sw fast slow x y,
        [2%Z] !! i = Some fw → [3%Z] !! i = Some sw →
        ma_entry (H := SpecTimeseries.reference) ts false false true fw
          = Some fast →
        ma_entry (H := SpecTimeseries.reference) ts false false true sw
          = Some slow →
        at2 fast t c = Some x → at2 slow t c = Some y →
        at2 entries t (i * shape1 ts + c) = Some (PrimFloat.ltb y x)
        ∧ at2 exits t (i * shape1 ts + c) = Some (PrimFloat.ltb x y).
Proof.
  apply (MovingAverage_signals_cell_by_cell (H := SpecTimeseries.reference)
           [[3]; [3]; [6]; [9]]%float [2%Z] [3%Z] false false true).
  vm_compute. reflexivity.
Defined.

Lemma sweep_fails_when_a_window_is_rejected_witness :
  ma_nb (H := SpecTimeseries.reference) [[3]; [3]; [6]; [9]]%float
    [2%Z] [3%Z; 0%Z] false false true = None.
Proof.
  apply (proj1 (sweep_fails_when_a_window_is_rejected
                  (H := SpecTimeseries.reference)
                  [[3]; [3]; [6]; [9]]%float false false true 0%Z)).
  - vm_compute. repeat constructor.
  - reflexivity.
Defined.

(** ** The bandwidth, and the RSI without up-moves *)

Section BandwidthAndFallingPrices.
Context `{Timeseries}.

(** X24: where the bands are in order around a finite positive middle
    band, the bandwidth [(upper - lower) / middle] is not negative (it is
    plus infinity when the width overflows) and it is not NaN. *)
Theorem BollingerBands_bandwidth_not_negative
    (self : BollingerBands) (bandwidth : matrix f8) (t j : nat)
    (up mid lo : f8) :
  BollingerBands_bandwidth self = Some bandwidth →
  at2 (upper_bands self) t j = Some up →
  at2 (middle_bands self) t j = Some mid →
  at2 (lower_bands self) t j = Some lo →
  PrimFloat.leb lo mid = true → PrimFloat.leb mid up = true →
  is_finite mid = true → PrimFloat.ltb 0 mid = true →
  ∃ w, at2 bandwidth t j = Some w ∧ PrimFloat.leb 0 w = true.
Proof.
  intros Hbw Hu Hm Hl Hlm Hmu Hfin Hpos.
  rewrite (bandwidth_cell _ _ _ _ _ _ _ Hbw Hu Hm Hl).
  eexists. split; [done|].
  by apply Binary64Quotients.width_over_middle_nonneg.
Qed.

(** X25: the cells of the RSI without up-moves.  Where the smoothed
    up-moves are zero, the index is exactly 0 when the smoothed down-moves
    are positive, and NaN when they are zero too (a flat window divides
    zero by zero). *)
Theorem rsi_nb_cell_without_up_moves
    (ts : matrix f8) (windows : list Z) (ewm adjust min_periods : bool)
    (rsi roll_up roll_down : matrix f8) (i t c : nat) (w : Z) (up down : f8) :
  rsi_nb ts windows ewm adjust min_periods = Some rsi →
  windows !! i = Some w →
  rsi_entry (rsi_moves ts).1 (rsi_moves ts).2 ewm adjust min_periods w
    = Some (roll_up, roll_down) →
  at2 roll_up t c = Some up → at2 roll_down t c = Some down →
  PrimFloat.eqb up 0 = true →
  (PrimFloat.ltb 0 down = true →
   at2 rsi t (i * shape1 ts + c) = Some 0%float)
  ∧ (PrimFloat.eqb down 0 = true →
     ∃ r, at2 rsi t (i * shape1 ts + c) = Some r ∧ is_nan r = true).
Proof.
  intros Hrun Hw Hentry Hup Hdown Hzero.
  rewrite (rsi_nb_cell _ _ _ _ _ _ _ _ _ _ _ _ _ _ Hrun Hw Hentry Hup Hdown).
  destruct (Binary64Quotients.rsi_cell_no_up_moves up down Hzero)
    as [Hfall Hflat].
  split.
  - intros Hd. by rewrite Hfall.
  - intros Hd. eexists. split; [done|]. by apply Hflat.
Qed.

End BandwidthAndFallingPrices.

Lemma BollingerBands_bandwidth_not_negative_witness :
  ∃ w, at2 [[nan]; [nan]; [0.5]; [0.5]]%float 2 0 = Some w
       ∧ PrimFloat.leb 0 w = true.
Proof.
  apply (BollingerBands_bandwidth_not_negative
           {| bb_ts := [[1]; [3]; [5]; [3]]%float;
              upper_bands := [[nan]; [nan]; [5]; [5]]%float;
              middle_bands := [[nan]; [nan]; [4]; [4]]%float;
              lower_bands := [[nan]; [nan]; [3]; [3]]%float |}
           [[nan]; [nan]; [0.5]; [0.5]]%float 2 0 5%float 4%float 3%float).
  - vm_compute. reflexivity.
  - reflexivity.
  - reflexivity.
  - reflexivity.
  - reflexivity.
  - reflexivity.
  - reflexivity.
  - reflexivity.
Defined.

Lemma rsi_nb_cell_without_up_moves_witness :
  let ts := [[1]; [2]; [3]; [2]; [1]]%float in
  (PrimFloat.ltb 0 1 = true →
   at2 [[nan]; [nan]; [100]; [50]; [0]]%float 4 (0 * shape1 ts + 0)
   = Some 0%float)
  ∧ (PrimFloat.eqb 1 0 = true →
     ∃ r, at2 [[nan]; [nan]; [100]; [50]; [0]]%float 4 (0 * shape1 ts + 0)
          = Some r ∧ is_nan r = true).
Proof.
  apply (rsi_nb_cell_without_up_moves (H := SpecTimeseries.reference)
           [[1]; [2]; [3]; [2]; [1]]%float [2%Z] false false true
           [[nan]; [nan]; [100]; [50]; [0]]%float
           [[nan]; [nan]; [1]; [0.5]; [0]]%float
           [[nan]; [nan]; [0]; [0.5]; [1]]%float
           0 4 0 2%Z 0%float 1%float).
  - vm_compute. reflexivity.
  - reflexivity.
  - vm_compute. reflexivity.
  - reflexivity.
  - reflexivity.
  - reflexivity.
Defined.

(** ** When a sweep returns *)

Section SweepReturns.
Context `{Timeseries}.
Implicit Types (ts : matrix f8).

Lemma set_rows_until_keeps_shape {A} (a : matrix A) (w : Z) (v : A) T N :
  has_shape T N a → has_shape T N (set_rows_until a w v).
Proof.
  intros [Hl Hrows]. split; [by rewrite set_rows_until_length|].
  unfold set_rows_until. apply Forall_app. split.
  - apply Forall_fmap, Forall_take, (Forall_impl _ _ _ Hrows).
    intros r Hr. simpl. by rewrite length_map.
  - by apply Forall_drop.
Qed.

Lemma bb_nb_is_Some ts ns ks mp :
  length ns ≤ length ks →
  (∀ w, w ∈ ns →
     ∃ ma mstd, bb_entry ts mp w = Some (ma, mstd)
                ∧ has_shape (shape0 ts) (shape1 ts) ma
                ∧ has_shape (shape0 ts) (shape1 ts) mstd) →
  is_Some (bb_nb ts ns ks mp).
Proof.
  intros Hlen Hall. unfold bb_nb, bb_cache.
  destruct (fill_cache_is_Some (bb_entry ts mp) ns) as [[cache_d log] Hcache].
  { intros w Hw. destruct (Hall w Hw) as (ma & mstd & -> & _). eauto. }
  rewrite Hcache. cbn [mbind option_bind].
  apply fill_cache_Some in Hcache as (_ & Hin & _).
  set (T := shape0 ts) in *. set (C := shape1 ts) in *.
  set (N := C * length ns) in *.
  apply (for_each_is_Some _
           (λ _ out, has_shape T N out.1.1 ∧ has_shape T N out.1.2
                     ∧ has_shape T N out.2)).
  - split_and!; apply full_has_shape.
  - intros j n [[U0 M0] L0] Hn (HU0 & HM0 & HL0). simpl in *.
    assert (n ∈ ns) as Hnin by (by eapply list_elem_of_lookup_2).
    destruct (Hall n Hnin) as (ma & mstd & Hentry & Hma & Hsd).
    destruct (lookup_lt_is_Some_2 ks j) as [k Hk].
    { apply lookup_lt_Some in Hn. lia. }
    assert (j * C + C ≤ N) as Hfit.
    { apply lookup_lt_Some in Hn. unfold N. nia. }
    assert (cache_d !! n = Some (ma, mstd)) as ->.
    { rewrite <- Hentry. by apply Hin. }
    simpl. rewrite Hk. simpl.
    destruct (elementwise_is_Some (λ m s, upper_band m k s) _ _ _ _ Hma Hsd)
      as (upper & -> & Hups).
    destruct (elementwise_is_Some (λ m s, lower_band m k s) _ _ _ _ Hma Hsd)
      as (lower & -> & Hlos).
    simpl.
    destruct (set_cols_is_Some U0 (j * C) C upper T N HU0 Hups Hfit)
      as [U' HU'].
    destruct (set_cols_is_Some M0 (j * C) C ma T N HM0 Hma Hfit) as [M' HM'].
    destruct (set_cols_is_Some L0 (j * C) C lower T N HL0 Hlos Hfit)
      as [L' HL'].
    rewrite HU'. simpl. rewrite HM'. simpl. rewrite HL'. simpl.
    eexists. split; [done|]. simpl.
    split_and!; [exact (set_cols_has_shape _ _ _ _ _ _ _ HU0 HU')
                |exact (set_cols_has_shape _ _ _ _ _ _ _ HM0 HM')
                |exact (set_cols_has_shape _ _ _ _ _ _ _ HL0 HL')].
Qed.

(** X26: a sweep returns whenever every window is accepted.  If the
    rolling routines accept each window of the sweep and return arrays of
    the shape of [ts], and no position lacks its slow window or its
    multiplier, then [ma_nb] and [bb_nb] return a result. *)
Theorem sweep_returns_when_every_window_is_accepted
    ts (ewm adjust mp : bool) :
  (∀ fast_windows slow_windows,
     length fast_windows ≤ length slow_windows →
     (∀ w, w ∈ fast_windows ++ slow_windows →
        ∃ m, (if ewm then ewma_nb ts w adjust else rolling_mean_nb ts w)
             = Some m
             ∧ has_shape (shape0 ts) (shape1 ts) m) →
     is_Some (ma_nb ts fast_windows slow_windows ewm adjust mp))
  ∧ (∀ ns ks,
       length ns ≤ length ks →
       (∀ w, w ∈ ns →
          ∃ m sd, rolling_mean_nb ts w = Some m
                  ∧ rolling_std_nb ts w = Some sd
                  ∧ has_shape (shape0 ts) (shape1 ts) m
                  ∧ has_shape (shape0 ts) (shape1 ts) sd) →
       is_Some (bb_nb ts ns ks mp)).
Proof.
  split.
  - intros fast_windows slow_windows Hlen Hall.
    assert (∀ w, w ∈ fast_windows ++ slow_windows →
              ∃ m, ma_entry ts ewm adjust mp w = Some m
                   ∧ has_shape (shape0 ts) (shape1 ts) m) as Hentries.
    { intros w Hw. destruct (Hall w Hw) as (m & Hm & Hshape).
      unfold ma_entry. rewrite Hm. simpl. eexists. split; [done|].
      destruct mp; [by apply set_rows_until_keeps_shape|done]. }
    apply ma_nb_is_Some.
    + intros w Hw. destruct (Hentries w Hw) as (m & -> & _). eauto.
    + intros i fw Hfw.
      destruct (lookup_lt_is_Some_2 slow_windows i) as [sw Hsw].
      { apply lookup_lt_Some in Hfw. lia. }
      destruct (Hentries fw) as (fm & Hfm & Hfs).
      { apply elem_of_app. left. by eapply list_elem_of_lookup_2. }
      destruct (Hentries sw) as (sm & Hsm & Hss).
      { apply elem_of_app. right. by eapply list_elem_of_lookup_2. }
      eauto 10.
  - intros ns ks Hlen Hall. apply bb_nb_is_Some; [done|].
    intros w Hw. destruct (Hall w Hw) as (m & sd & Hm & Hsd & Hms & Hsds).
    unfold bb_entry. rewrite Hm, Hsd. simpl.
    destruct mp; eauto 10 using set_rows_until_keeps_shape.
Qed.

End SweepReturns.

Lemma sweep_returns_when_every_window_is_accepted_witness :
  is_Some (bb_nb (H := SpecTimeseries.reference)
             [[1]; [3]; [5]; [3]]%float [2%Z] [1%Z] true).
Proof.
  apply (proj2 (sweep_returns_when_every_window_is_accepted
                  (H := SpecTimeseries.reference)
                  [[1]; [3]; [5]; [3]]%float false false true)).
  - simpl. lia.
  - intros w ->%list_elem_of_singleton.
    exists [[1]; [2]; [4]; [4]]%float, [[0]; [1]; [1]; [1]]%float.
    split_and!; [vm_compute; reflexivity|vm_compute; reflexivity
                |split; [reflexivity|repeat constructor]
                |split; [reflexivity|repeat constructor]].
Defined.

(** ** The RSI returns on every series of two rows or more *)

Section ShapesOfTheReference.
Implicit Types (a d : matrix f8).

Lemma per_column_has_shape f a :
  has_shape (shape0 a) (shape1 a) (SpecTimeseries.per_column f a).
Proof.
  unfold SpecTimeseries.per_column. split.
  - by rewrite length_map, length_seq.
  - apply Forall_fmap, Forall_forall. intros t _. simpl.
    by rewrite !length_map, length_seq.
Qed.

Lemma has_shape_shape1 {A} T N (m : matrix A) :
  has_shape (S T) N m → shape1 m = N.
Proof. intros [Hl Hrows]. destruct m as [|r m]; [done|]. by inversion Hrows. Qed.

Lemma has_shape_drop_1 {A} T N (m : matrix A) :
  has_shape (S T) N m → has_shape T N (drop 1 m).
Proof.
  intros [Hl Hrows]. destruct m as [|r m]; [done|]. simpl in *.
  split; [rewrite drop_0; lia|]. rewrite drop_0. by inversion Hrows.
Qed.

Lemma map_cells_has_shape {A B} (g : A → B) T N (m : matrix A) :
  has_shape T N m → has_shape T N (map (map g) m).
Proof.
  intros [Hl Hrows]. split; [by rewrite length_map|].
  apply Forall_fmap, (Forall_impl _ _ _ Hrows). intros r Hr. simpl.
  by rewrite length_map.
Qed.

Lemma masked_has_shape (v : f8) T N d (mask : matrix bool) :
  has_shape T N d → has_shape T N mask →
  has_shape T N (set_by_mask_nb (Timeseries := SpecTimeseries.reference)
                   d mask v).
Proof.
  intros [Hl Hrows] [Hml Hmrows]. simpl. split.
  - rewrite length_zip_with. lia.
  - apply Forall_lookup. intros i r Hr.
    apply lookup_zip_with_Some in Hr as (x & m & -> & Hx & Hm).
    rewrite length_zip_with.
    rewrite (Forall_lookup_1 _ _ _ _ Hrows Hx).
    rewrite (Forall_lookup_1 _ _ _ _ Hmrows Hm). lia.
Qed.

(** The up-moves and the down-moves have one row less than the prices. *)
Lemma rsi_moves_have_shape ts T :
  shape0 ts = S T →
  has_shape T (shape1 ts) (rsi_moves (H := SpecTimeseries.reference) ts).1
  ∧ has_shape T (shape1 ts) (rsi_moves (H := SpecTimeseries.reference) ts).2.
Proof.
  intros HT. unfold rsi_moves.
  assert (has_shape T (shape1 ts)
            (drop 1 (diff_nb (Timeseries := SpecTimeseries.reference) ts)))
    as Hdelta.
  { apply has_shape_drop_1. rewrite <- HT. apply per_column_has_shape. }
  cbn [fst snd]. split.
  - by apply masked_has_shape, map_cells_has_shape.
  - by apply map_cells_has_shape, masked_has_shape, map_cells_has_shape.
Qed.

Lemma prepend_row_has_shape (v : f8) T N a :
  has_shape (S T) N a →
  has_shape (S (S T)) N
    (prepend_nb (Timeseries := SpecTimeseries.reference) a 1 v).
Proof.
  intros Ha. simpl. rewrite (has_shape_shape1 _ _ _ Ha).
  destruct Ha as [Hl Hrows]. split; [simpl; lia|].
  constructor; [by rewrite length_replicate|done].
Qed.

Lemma smoothed_has_shape (ewm adjust : bool) (w : Z) T N a :
  (0 < w)%Z → has_shape (S T) N a →
  ∃ m, (if ewm
        then ewma_nb (Timeseries := SpecTimeseries.reference) a w adjust
        else rolling_mean_nb (Timeseries := SpecTimeseries.reference) a w)
       = Some m
       ∧ has_shape (S T) N m.
Proof.
  intros Hw Ha. pose proof (has_shape_shape1 _ _ _ Ha) as HN.
  destruct Ha as [Hl _]. simpl. unfold SpecTimeseries.checked_window.
  rewrite (proj2 (Z.ltb_lt 0 w) Hw).
  destruct ewm; (eexists; split; [done|]); rewrite <- Hl, <- HN;
    apply per_column_has_shape.
Qed.

End ShapesOfTheReference.

Section RsiReturns.
Context `{Timeseries}.
Implicit Types (ts : matrix f8).

Lemma rsi_nb_is_Some ts windows ewm adjust mp :
  (∀ w, w ∈ windows →
     ∃ roll_up roll_down,
       rsi_entry (rsi_moves ts).1 (rsi_moves ts).2 ewm adjust mp w
       = Some (roll_up, roll_down)
       ∧ has_shape (shape0 ts) (shape1 ts) roll_up
       ∧ has_shape (shape0 ts) (shape1 ts) roll_down) →
  is_Some (rsi_nb ts windows ewm adjust mp).
Proof.
  intros Hall. unfold rsi_nb, rsi_cache.
  destruct (rsi_moves ts) as [up down] eqn:Hmoves. simpl in Hall.
  destruct (fill_cache_is_Some (rsi_entry up down ewm adjust mp)
              (unique windows)) as [[cache_d log] Hcache].
  { intros w Hw. apply (proj1 (elem_of_unique _ _)) in Hw.
    destruct (Hall w Hw) as (ru & rd & -> & _). eauto. }
  rewrite Hcache. cbn [mbind option_bind].
  apply fill_cache_Some in Hcache as (_ & Hin & _).
  set (T := shape0 ts) in *. set (C := shape1 ts) in *.
  set (N := C * length windows) in *.
  apply (for_each_is_Some _ (λ _ out, has_shape T N out)).
  - apply full_has_shape.
  - intros j w out Hw Hout. simpl in *.
    assert (w ∈ windows) as Hwin by (by eapply list_elem_of_lookup_2).
    destruct (Hall w Hwin) as (ru & rd & Hentry & Hru & Hrd).
    assert (j * C + C ≤ N) as Hfit.
    { apply lookup_lt_Some in Hw. unfold N. nia. }
    assert (cache_d !! w = Some (ru, rd)) as ->.
    { rewrite <- Hentry. by apply Hin, (proj2 (elem_of_unique _ _)). }
    simpl.
    destruct (elementwise_is_Some rsi_cell _ _ _ _ Hru Hrd)
      as (cells & -> & Hcells).
    simpl.
    destruct (set_cols_is_Some out (j * C) C cells T N Hout Hcells Hfit)
      as [out' Hout'].
    rewrite Hout'. eexists. split; [done|].
    exact (set_cols_has_shape _ _ _ _ _ _ _ Hout Hout').
Qed.

End RsiReturns.

(** X27: with the reference routines [rsi_nb] returns an array of shape
    [(T, C * K)] for every price matrix of two rows or more and every sweep
    of [K] positive windows, smoothed either way and with or without the
    warm-up rows blanked. *)
Theorem rsi_nb_returns_from_two_rows
    (ts : matrix f8) (windows : list Z) (ewm adjust min_periods : bool) :
  2 ≤ shape0 ts →
  (∀ w, w ∈ windows → (0 < w)%Z) →
  ∃ rsi,
    rsi_nb (H := SpecTimeseries.reference) ts windows ewm adjust min_periods
    = Some rsi
    ∧ has_shape (shape0 ts) (shape1 ts * length windows) rsi.
Proof.
  intros Hrows Hpos.
  destruct (shape0 ts) as [|[|T]] eqn:HT; [lia|lia|].
  destruct (rsi_moves_have_shape ts (S T) HT) as [Hup Hdown].
  destruct (rsi_nb_is_Some (H := SpecTimeseries.reference)
              ts windows ewm adjust min_periods) as [rsi Hrsi].
  { intros w Hw. unfold rsi_entry.
    destruct (smoothed_has_shape ewm adjust w _ _ _ (Hpos w Hw) Hup)
      as (ru & -> & Hru).
    destruct (smoothed_has_shape ewm adjust w _ _ _ (Hpos w Hw) Hdown)
      as (rd & -> & Hrd).
    cbn [mbind option_bind]. rewrite HT.
    apply (prepend_row_has_shape nan) in Hru, Hrd.
    destruct min_periods; eauto 10 using set_rows_until_keeps_shape. }
  exists rsi. split; [done|].
  rewrite <- HT. by apply (rsi_nb_has_shape (H := SpecTimeseries.reference))
    in Hrsi.
Qed.

Lemma rsi_nb_returns_from_two_rows_witness :
  2 ≤ shape0 [[3.9]; [2.8]]%float
  ∧ ∃ rsi,
      rsi_nb (H := SpecTimeseries.reference)
        [[3.9]; [2.8]]%float [2%Z; 3%Z] false false true = Some rsi
      ∧ has_shape 2 2 rsi.
Proof.
  split; [simpl; lia|].
  apply (rsi_nb_returns_from_two_rows
           [[3.9]; [2.8]]%float [2%Z; 3%Z] false false true).
  - simpl. lia.
  - intros w Hw. repeat (apply elem_of_cons in Hw as [->|Hw]; [lia|]).
    by apply elem_of_nil in Hw.
Defined.
